(** * RTK visualization core: record parser, component resolver,
      graph builder and tree transformer

    A shallow embedding of the library [rtk/rtk-visualization.umd.js]
    (the parser, the component mappings, the graph builder and the tree
    data transformer) followed by the properties established about it.

    Conventions of the embedding.
    - A JavaScript string is the list of its UTF-16 code units; the
      regular expressions of the source carry no [u] flag, so they work
      on code units too.
    - A JavaScript [Map] that the source iterates is an association list
      in insertion order ([Map_set] keeps the position of an existing
      key); a [Map] or [Set] that is only queried is a [gmap] or [gset].
    - A function that may [throw] returns a [result]; [console.warn]
      is the list of messages written.
    - Numbers that the source uses as counts, indices and depths are
      integers of [Z]. *)

From Stdlib Require Import ZArith NArith Ascii String DecimalString DecimalPos.
From stdpp Require Import base tactics option list numbers gmap sorting.

Local Open Scope Z_scope.

(** ** JavaScript strings and values *)

Module JS.

Abbreviation jsstring := (list N) (only parsing).

(** An ASCII literal as a JavaScript string. *)
Definition lit (s : string) : jsstring :=
  (fun a => N_of_ascii a) <$> list_ascii_of_string s.
Arguments lit : simpl never.

(** WhiteSpace and LineTerminator code units, the ones
    [String.prototype.trim] removes. *)
Definition isWhiteSpace (c : N) : bool :=
  ((c =? 9) || (c =? 10) || (c =? 11) || (c =? 12) || (c =? 13)
   || (c =? 32) || (c =? 160) || (c =? 5760)
   || ((8192 <=? c) && (c <=? 8202))
   || (c =? 8232) || (c =? 8233) || (c =? 8239) || (c =? 8287)
   || (c =? 12288) || (c =? 65279))%N.

Fixpoint trimStart (s : jsstring) : jsstring :=
  match s with
  | c :: s' => if isWhiteSpace c then trimStart s' else s
  | [] => []
  end.

Definition trimEnd (s : jsstring) : jsstring :=
  reverse (trimStart (reverse s)).

Definition trim (s : jsstring) : jsstring := trimEnd (trimStart s).

Fixpoint startsWith (s p : jsstring) : bool :=
  match p, s with
  | [], _ => true
  | a :: p', b :: s' => (a =? b)%N && startsWith s' p'
  | _ :: _, [] => false
  end.

(** [s.includes(sub)] *)
Fixpoint includes (s sub : jsstring) : bool :=
  startsWith s sub
  || match s with
     | [] => false
     | _ :: s' => includes s' sub
     end.

(** [s.split(sep)] for a separator of one code unit. *)
Fixpoint split (sep : N) (s : jsstring) : list jsstring :=
  match s with
  | [] => [[]]
  | c :: s' =>
      if (c =? sep)%N then [] :: split sep s'
      else match split sep s' with
           | h :: t => (c :: h) :: t
           | [] => [[c]]
           end
  end.

(** [parts.join(sep)] *)
Fixpoint join (sep : jsstring) (parts : list jsstring) : jsstring :=
  match parts with
  | [] => []
  | [p] => p
  | p :: rest => p ++ sep ++ join sep rest
  end.

(** Truthiness of a string: the empty string is falsy. *)
Definition truthy (s : jsstring) : bool :=
  match s with [] => false | _ => true end.

(** [a || b] on strings. *)
Definition or_else (a b : jsstring) : jsstring :=
  if truthy a then a else b.

(** [s || undefined] *)
Definition or_undefined (s : jsstring) : option jsstring :=
  if truthy s then Some s else None.

(** [a || b] on optional numbers: [undefined] and [0] are falsy. *)
Definition or_num (a b : option Z) : option Z :=
  match a with
  | Some n => if n =? 0 then b else a
  | None => b
  end.

(** Template-literal rendering of an integer: plain decimal, as the
    engine renders the integers below 10^21. *)
Definition Number_toString (z : Z) : jsstring :=
  lit (NilZero.string_of_int (Z.to_int z)).
Arguments Number_toString : simpl never.

Definition isDigit (c : N) : bool := ((48 <=? c) && (c <=? 57))%N.

(** Code units of the Object.prototype properties every plain object
    literal inherits: [obj[k]] is a function (or, for [__proto__], an
    object) and [k in obj] is true for each of them. *)
Definition Object_prototype_keys : list jsstring :=
  lit <$> [ "constructor"; "hasOwnProperty"; "isPrototypeOf";
            "propertyIsEnumerable"; "toLocaleString"; "toString";
            "valueOf"; "__proto__"; "__defineGetter__";
            "__defineSetter__"; "__lookupGetter__";
            "__lookupSetter__" ]%string.

Definition inheritedKey (k : jsstring) : bool :=
  bool_decide (k ∈ Object_prototype_keys).

(** Errors of the library and of the engine. *)
Inductive error :=
| RTKParseError (message : jsstring) (lineNumber : option Z)
| RTKDataError (message : jsstring) (kanjiCount primitivesCount : Z)
| TypeError (message : jsstring)
| Error (message : jsstring).

Definition error_message (e : error) : jsstring :=
  match e with
  | RTKParseError m _ | RTKDataError m _ _ | TypeError m | Error m => m
  end.

Inductive result (A : Type) :=
| Ok (a : A)
| Throw (e : error).
Arguments Ok {A} a.
Arguments Throw {A} e.

Definition bind {A B} (r : result A) (k : A -> result B) : result B :=
  match r with
  | Ok a => k a
  | Throw e => Throw e
  end.

(** [Array.prototype.slice(start, end)] with its relative indices. *)
Definition relativeIndex (len k : Z) : Z :=
  if k <? 0 then Z.max (len + k) 0 else Z.min k len.

Definition Array_slice {A} (l : list A) (start finish : Z) : list A :=
  let len := Z.of_nat (length l) in
  let k := relativeIndex len start in
  let final := relativeIndex len finish in
  take (Z.to_nat (final - k)) (drop (Z.to_nat k) l).

(** An iterated [Map]: association list in insertion order. *)
Abbreviation Map V := (list (list N * V)) (only parsing).

Fixpoint Map_get {V} (m : Map V) (k : jsstring) : option V :=
  match m with
  | [] => None
  | (k', v) :: m' => if decide (k = k') then Some v else Map_get m' k
  end.

Fixpoint Map_set {V} (m : Map V) (k : jsstring) (v : V) : Map V :=
  match m with
  | [] => [(k, v)]
  | (k', v') :: m' =>
      if decide (k = k') then (k, v) :: m' else (k', v') :: Map_set m' k v
  end.

Definition Map_values {V} (m : Map V) : list V := snd <$> m.
Definition Map_keys {V} (m : Map V) : list jsstring := fst <$> m.
Definition Map_size {V} (m : Map V) : Z := Z.of_nat (length m).

(** An iterated [Set] of strings: list in insertion order. *)
Definition Set_add (s : list jsstring) (x : jsstring) : list jsstring :=
  if bool_decide (x ∈ s) then s else s ++ [x].

End JS.
Import JS.

#[export] Instance result_bind : MBind result := fun A B k r => JS.bind r k.
#[export] Instance result_ret : MRet result := fun A a => Ok a.

(** ** Record parser *)

Module Parser.

Record KanjiData := {
  kanji : jsstring;
  id5th : option Z;
  id6th : option Z;
  keyword5th : jsstring;
  keyword6th : jsstring;
  components : jsstring;
  onReading : jsstring;
  kunReading : jsstring
}.

Record PrimitiveData := {
  oldPath : jsstring;
  parentFrame : option Z;
  unicode : option jsstring;
  nextFrame : option Z;
  realHeisig : option bool
}.

Definition quote : N := 34.
Definition comma : N := 44.
Definition newline : N := 10.

(** The [while] loop of [parseCSVLine]; [line] is what remains from
    index [i] on. *)
Fixpoint parseCSVLine_loop (line current : jsstring) (inQuotes : bool)
    (result : list jsstring) : list jsstring :=
  match line with
  | [] => result ++ [trim current]
  | char :: rest =>
      if (char =? quote)%N then
        match rest with
        | nextChar :: rest' =>
            if inQuotes && (nextChar =? quote)%N
            then parseCSVLine_loop rest' (current ++ [quote]) inQuotes result
            else parseCSVLine_loop rest current (negb inQuotes) result
        | [] => parseCSVLine_loop rest current (negb inQuotes) result
        end
      else if (char =? comma)%N && negb inQuotes then
        parseCSVLine_loop rest [] inQuotes (result ++ [trim current])
      else parseCSVLine_loop rest (current ++ [char]) inQuotes result
  end.

Definition parseCSVLine (line : jsstring) : list jsstring :=
  parseCSVLine_loop line [] false [].

(** Digits of [parseInt(s, 10)] after the sign: the longest prefix of
    decimal digits, [None] when there is none (NaN).  The value is kept
    exact; the rounding of integers beyond 2^53 is not modelled. *)
Fixpoint parseDigits (s : jsstring) (acc : option Z) : option Z :=
  match s with
  | c :: s' =>
      if isDigit c
      then parseDigits s' (Some (10 * default 0 acc + (Z.of_N c - 48)))
      else acc
  | [] => acc
  end.

Definition parseInt10 (s : jsstring) : option Z :=
  match trimStart s with
  | 45%N :: s' => Z.opp <$> parseDigits s' None
  | 43%N :: s' => parseDigits s' None
  | s' => parseDigits s' None
  end.

Definition parseOptionalNumber (value : jsstring) : option Z :=
  let trimmed := trim value in
  if negb (truthy trimmed)
     || bool_decide (trimmed = lit "NULL")
     || bool_decide (trimmed = lit "null")
  then None
  else parseInt10 trimmed.

Definition validateKanjiData (data : KanjiData) (lineNumber : Z)
    : result unit :=
  if negb (truthy (trim (kanji data))) then
    Throw (RTKParseError
             (lit "Missing kanji character at line "
                ++ Number_toString lineNumber) (Some lineNumber))
  else if negb (truthy (trim (keyword5th data)))
          && negb (truthy (trim (keyword6th data))) then
    Throw (RTKParseError
             (lit "Missing keywords at line "
                ++ Number_toString lineNumber) (Some lineNumber))
  else Ok tt.

(** [while (fields.length < 8) fields.push('')] *)
Definition padFields (fields : list jsstring) : list jsstring :=
  fields ++ replicate (8 - length fields)%nat [].

(** [fields[i]] of an array of strings known to be long enough. *)
Definition field (fields : list jsstring) (i : nat) : jsstring :=
  default [] (fields !! i).

(** The [catch] clause of the row loops. *)
Definition rethrow {A} (lineNumber : Z) (r : result A) : result A :=
  match r with
  | Ok a => Ok a
  | Throw (RTKParseError m l) => Throw (RTKParseError m l)
  | Throw e =>
      Throw (RTKParseError
               (lit "Error parsing line " ++ Number_toString lineNumber
                  ++ lit ": " ++ error_message e) (Some lineNumber))
  end.

(** Body of the [for] loop of [parseKanjiCSV] for the line [line]
    numbered [lineNumber]. *)
Definition parseKanjiRow (line : jsstring) (lineNumber : Z)
    : result KanjiData :=
  rethrow lineNumber
    (let fields := padFields (parseCSVLine line) in
     let kanjiData :=
       {| kanji := trim (field fields 0);
          id5th := parseOptionalNumber (field fields 1);
          id6th := parseOptionalNumber (field fields 2);
          keyword5th := trim (field fields 3);
          keyword6th := trim (field fields 4);
          components := trim (field fields 5);
          onReading := trim (field fields 6);
          kunReading := trim (field fields 7) |} in
     validateKanjiData kanjiData lineNumber ;;
     Ok kanjiData).

(** The [for] loop: [lines] is what remains from index [i] on. *)
Fixpoint parseKanjiRows (lines : list jsstring) (i : Z)
    (result : list KanjiData) : JS.result (list KanjiData) :=
  match lines with
  | [] => Ok result
  | line :: lines' =>
      kanjiData ← parseKanjiRow line (i + 1);
      parseKanjiRows lines' (i + 1) (result ++ [kanjiData])
  end.

(** [csvText.split('\n').map(trim).filter(nonempty)] *)
Definition csvLines (csvText : jsstring) : list jsstring :=
  List.filter truthy (trim <$> split newline csvText).

Section WithToLowerCase.
(** [String.prototype.toLowerCase], the engine's Unicode case
    mapping. *)
Variable toLowerCase : jsstring -> jsstring.

Definition kanjiStartIndex (lines : list jsstring) : nat :=
  match lines with
  | first :: _ =>
      if includes (toLowerCase first) (lit "kanji") then 1%nat else 0%nat
  | [] => 0%nat
  end.

Definition parseKanjiCSV (csvText : jsstring)
    : result (list KanjiData) :=
  let lines := csvLines csvText in
  match lines with
  | [] => Throw (RTKParseError (lit "CSV file is empty") None)
  | _ =>
      let startIndex := kanjiStartIndex lines in
      parseKanjiRows (drop startIndex lines) (Z.of_nat startIndex) []
  end.
End WithToLowerCase.

End Parser.
Import Parser.

(** ** Component resolver *)

Module Resolver.

(** [COMPLEX_KANJI_EXCLUSIONS]: the keys of the object, here U+8098. *)
Definition COMPLEX_KANJI_EXCLUSIONS : list jsstring := [[32920%N]].

Definition PREFER_KANJI_KEYWORDS : list jsstring :=
  lit <$> [ "one"; "two"; "three"; "four"; "five"; "six"; "seven";
            "eight"; "nine"; "ten"; "hundred"; "thousand"; "man";
            "large"; "small"; "up"; "down"; "left"; "right" ]%string.

(** [KEYWORD_TO_CHARACTER_MAPPINGS]: own properties of the object, in
    source order; each value is one code unit. *)
Definition KEYWORD_TO_CHARACTER_MAPPINGS : Map jsstring :=
  [ (lit "elbow", [21430%N]);
    (lit "top hat", [11914%N]);
    (lit "animal legs", [12495%N]);
    (lit "human legs", [20799%N]);
    (lit "drop", [20022%N]);
    (lit "needle", [21313%N]);
    (lit "ice", [20907%N]);
    (lit "cliff", [21378%N]);
    (lit "tent", [11914%N]);
    (lit "crown", [20886%N]);
    (lit "cave", [31348%N]);
    (lit "house", [23424%N]);
    (lit "walking stick", [20008%N]);
    (lit "bound up", [21241%N]);
    (lit "embrace", [21241%N]);
    (lit "horns", [20023%N]);
    (lit "wind", [20960%N]);
    (lit "claw", [29226%N]);
    (lit "vulture", [29226%N]);
    (lit "mouth", [21475%N]);
    (lit "eye", [30446%N]);
    (lit "day", [26085%N]);
    (lit "sun", [26085%N]);
    (lit "month", [26376%N]);
    (lit "moon", [26376%N]);
    (lit "flesh", [26376%N]);
    (lit "part of the body", [26376%N]);
    (lit "person", [20154%N]);
    (lit "water", [27700%N]);
    (lit "water droplets", [27701%N]);
    (lit "water pistol", [27701%N]);
    (lit "fire", [28779%N]);
    (lit "oven-fire", [28780%N]);
    (lit "barbecue", [28780%N]);
    (lit "soil", [22303%N]);
    (lit "dirt", [22303%N]);
    (lit "ground", [22303%N]);
    (lit "tree", [26408%N]);
    (lit "wood", [26408%N]);
    (lit "hand", [25163%N]);
    (lit "finger", [25163%N]);
    (lit "fingers", [25163%N]);
    (lit "heart", [24515%N]);
    (lit "state of mind", [24515%N]);
    (lit "thread", [31992%N]);
    (lit "spiderman", [31992%N]);
    (lit "say", [35328%N]);
    (lit "words", [35328%N]);
    (lit "keitai", [35328%N]);
    (lit "car", [36554%N]);
    (lit "metal", [37329%N]);
    (lit "gold", [37329%N]);
    (lit "horse", [39340%N]);
    (lit "fish", [39770%N]);
    (lit "bird", [40165%N]) ].

(** What [obj[key]] evaluates to on a plain object whose own values
    are strings. *)
Inductive property :=
| Undefined
| Own (value : jsstring)
| Inherited.

Definition resolveComponentKeyword (keyword : jsstring) : property :=
  match Map_get KEYWORD_TO_CHARACTER_MAPPINGS keyword with
  | Some character => Own character
  | None => if inheritedKey keyword then Inherited else Undefined
  end.

(** [kanji in COMPLEX_KANJI_EXCLUSIONS] *)
Definition isComplexKanjiExcluded (kanji : jsstring) : bool :=
  bool_decide (kanji ∈ COMPLEX_KANJI_EXCLUSIONS) || inheritedKey kanji.

Definition shouldPreferKanji (keyword : jsstring) : bool :=
  bool_decide (keyword ∈ PREFER_KANJI_KEYWORDS).

End Resolver.
Import Resolver.

(** ** Graph builder *)

Module GraphBuilder.

Inductive JLPTLevel := N5 | N4 | N3 | N2 | N1.

Inductive NodeType := kanji_node | primitive_node.

Inductive EdgeType := mnemonic_uses | used_in_mnemonic.

#[export] Instance JLPTLevel_eq_dec : EqDecision JLPTLevel.
Proof. solve_decision. Defined.
#[export] Instance NodeType_eq_dec : EqDecision NodeType.
Proof. solve_decision. Defined.
#[export] Instance EdgeType_eq_dec : EqDecision EdgeType.
Proof. solve_decision. Defined.

(** The node objects of the graph; a field the source leaves out of
    one kind of node is [None] there.  [jlptLevel] is one of the five
    level tags when present. *)
Record GraphNode := {
  n_id : jsstring;
  n_type : NodeType;
  n_character : jsstring;
  n_keyword : jsstring;
  n_rtkId : option Z;
  n_onReading : option jsstring;
  n_kunReading : option jsstring;
  n_jlptLevel : option JLPTLevel;
  n_unicode : option jsstring;
  n_svgPath : option jsstring
}.

Record Edge := {
  source : jsstring;
  target : jsstring;
  type : EdgeType
}.

#[export] Instance GraphNode_eq_dec : EqDecision GraphNode.
Proof. solve_decision. Defined.
#[export] Instance Edge_eq_dec : EqDecision Edge.
Proof. solve_decision. Defined.

Record Metadata := {
  totalKanji : Z;
  totalPrimitives : Z;
  totalEdges : Z;
  buildTimestamp : Z
}.

Record Graph := {
  nodes : list GraphNode;
  edges : list Edge;
  metadata : Metadata
}.

Definition typeName (t : NodeType) : jsstring :=
  match t with
  | kanji_node => lit "kanji"
  | primitive_node => lit "primitive"
  end.

(** The class [[a-zA-Z0-9一-龯]]. *)
Definition isIdChar (c : N) : bool :=
  (((97 <=? c) && (c <=? 122)) || ((65 <=? c) && (c <=? 90))
   || ((48 <=? c) && (c <=? 57)) || ((19968 <=? c) && (c <=? 40879)))%N.

Definition sanitize (identifier : jsstring) : jsstring :=
  (fun c => if isIdChar c then c else 95%N) <$> identifier.

Definition generateNodeId (type : NodeType) (identifier : jsstring)
    : jsstring :=
  typeName type ++ lit "_" ++ sanitize identifier.

Definition parseComponents (componentsField : jsstring)
    : list jsstring :=
  if negb (truthy (trim componentsField)) then []
  else List.filter truthy (trim <$> split 59%N componentsField).

Definition createKanjiNode (kanji : KanjiData)
    (jlptMapping : option (jsstring -> option JLPTLevel)) : GraphNode :=
  {| n_id := generateNodeId kanji_node (Parser.kanji kanji);
     n_type := kanji_node;
     n_character := Parser.kanji kanji;
     n_keyword := or_else (keyword6th kanji) (keyword5th kanji);
     n_rtkId := or_num (id6th kanji) (id5th kanji);
     n_onReading := or_undefined (onReading kanji);
     n_kunReading := or_undefined (kunReading kanji);
     n_jlptLevel := jlptMapping ≫= (fun m => m (Parser.kanji kanji));
     n_unicode := None;
     n_svgPath := None |}.

Definition asciiLower (c : N) : N :=
  if ((65 <=? c) && (c <=? 90))%N then (c + 32)%N else c.

Definition endsWith (s suffix : jsstring) : bool :=
  startsWith (reverse s) (reverse suffix).

(** [filename.replace(/\.(svg|png|jpg|jpeg)$/i, '')] *)
Definition stripExtension (filename : jsstring) : jsstring :=
  let lower := asciiLower <$> filename in
  if endsWith lower (lit ".svg") || endsWith lower (lit ".png")
     || endsWith lower (lit ".jpg")
  then take (length filename - 4) filename
  else if endsWith lower (lit ".jpeg")
  then take (length filename - 5) filename
  else filename.

Fixpoint dropDigits (s : jsstring) : jsstring :=
  match s with
  | c :: s' => if isDigit c then dropDigits s' else s
  | [] => []
  end.

(** [name.replace(/^p\d+(\.\d+)?-/, '')] *)
Definition stripPrefix (name : jsstring) : jsstring :=
  match name with
  | 112%N :: c :: rest =>
      if isDigit c then
        match dropDigits rest with
        | 45%N :: after => after
        | 46%N :: d :: rest' =>
            if isDigit d then
              match dropDigits rest' with
              | 45%N :: after => after
              | _ => name
              end
            else name
        | _ => name
        end
      else name
  | _ => name
  end.

(** [a || b] where [a] may be [undefined]. *)
Definition opt_or_else (a : option jsstring) (b : jsstring) : jsstring :=
  match a with
  | Some s => or_else s b
  | None => b
  end.

Definition createPrimitiveNode (primitive : PrimitiveData) : GraphNode :=
  let pathParts := split 47%N (oldPath primitive) in
  let filename := default [] (last pathParts) in
  let name := stripExtension filename in
  let cleanKeyword := stripPrefix name in
  {| n_id := generateNodeId primitive_node name;
     n_type := primitive_node;
     n_character := opt_or_else (unicode primitive) cleanKeyword;
     n_keyword := cleanKeyword;
     n_rtkId := or_num (parentFrame primitive) (nextFrame primitive);
     n_onReading := None;
     n_kunReading := None;
     n_jlptLevel := None;
     n_unicode := unicode primitive;
     n_svgPath := Some (oldPath primitive) |}.

(** [a || b] on optional objects. *)
Definition orElse {A} (a b : option A) : option A :=
  match a with
  | Some _ => a
  | None => b
  end.

(** The message of the engine for calling [replace] on a value that
    has none (V8's wording). *)
Definition notAFunction : error :=
  TypeError (lit "identifier.replace is not a function").

(** Lines 671-680 of [createMnemonicEdges]: the manual mapping. *)
Definition mappedNode (kanjiNodes primitiveNodes : Map GraphNode)
    (keyword : jsstring) : result (option GraphNode) :=
  match resolveComponentKeyword keyword with
  | Undefined => Ok None
  | Inherited => Throw notAFunction
  | Own mappedCharacter =>
      if truthy mappedCharacter then
        Ok (orElse
              (Map_get kanjiNodes (generateNodeId kanji_node mappedCharacter))
              (Map_get primitiveNodes
                 (generateNodeId primitive_node mappedCharacter)))
      else Ok None
  end.

Definition kanjiHasKeyword (keyword : jsstring) (kanjiNode : GraphNode)
    : bool :=
  bool_decide (n_keyword kanjiNode = keyword)
  && negb (isComplexKanjiExcluded (or_else (n_character kanjiNode) [])).

Definition primitiveHasKeyword (keyword : jsstring)
    (primitive : GraphNode) : bool :=
  bool_decide (n_keyword primitive = keyword).

(** Lines 684-719: the two scans, in the order the keyword asks for. *)
Definition searchByKeyword (kanjiNodes primitiveNodes : Map GraphNode)
    (keyword : jsstring) : option GraphNode :=
  let inKanji := List.find (kanjiHasKeyword keyword) (Map_values kanjiNodes) in
  let inPrimitives :=
    List.find (primitiveHasKeyword keyword) (Map_values primitiveNodes) in
  if shouldPreferKanji keyword then orElse inKanji inPrimitives
  else orElse inPrimitives inKanji.

(** Lines 721-731: the keyword read as a character. *)
Definition exactCharacterMatch (kanjiNodes primitiveNodes : Map GraphNode)
    (keyword : jsstring) : option GraphNode :=
  match Map_get kanjiNodes (generateNodeId kanji_node keyword) with
  | Some potentialKanji =>
      if negb (isComplexKanjiExcluded keyword) then Some potentialKanji
      else Map_get primitiveNodes (generateNodeId primitive_node keyword)
  | None => Map_get primitiveNodes (generateNodeId primitive_node keyword)
  end.

(** Lines 669-732: the value of [referencedNode] for one keyword. *)
Definition referencedNode (kanjiNodes primitiveNodes : Map GraphNode)
    (keyword : jsstring) : result (option GraphNode) :=
  mapped ← mappedNode kanjiNodes primitiveNodes keyword;
  match mapped with
  | Some node => Ok (Some node)
  | None =>
      Ok (orElse (searchByKeyword kanjiNodes primitiveNodes keyword)
            (exactCharacterMatch kanjiNodes primitiveNodes keyword))
  end.

Definition edgePair (kanjiId targetId : jsstring) : list Edge :=
  [ {| source := kanjiId; target := targetId; type := mnemonic_uses |};
    {| source := targetId; target := kanjiId; type := used_in_mnemonic |} ].

(** State of the loops of [createMnemonicEdges]. *)
Record EdgeAcc := {
  acc_edges : list Edge;
  acc_missing : list jsstring
}.

(** The loop over the keywords of one kanji record. *)
Fixpoint keywordLoop (kanjiNodes primitiveNodes : Map GraphNode)
    (kanjiId : jsstring) (mnemonicKeywords : list jsstring)
    (createdTargets : gset (list N)) (acc : EdgeAcc) : result EdgeAcc :=
  match mnemonicKeywords with
  | [] => Ok acc
  | keyword :: rest =>
      referenced ← referencedNode kanjiNodes primitiveNodes keyword;
      match referenced with
      | Some node =>
          if bool_decide (n_id node ∈ createdTargets) then
            keywordLoop kanjiNodes primitiveNodes kanjiId rest
              createdTargets acc
          else
            keywordLoop kanjiNodes primitiveNodes kanjiId rest
              ({[n_id node]} ∪ createdTargets)
              {| acc_edges := acc_edges acc ++ edgePair kanjiId (n_id node);
                 acc_missing := acc_missing acc |}
      | None =>
          keywordLoop kanjiNodes primitiveNodes kanjiId rest createdTargets
            {| acc_edges := acc_edges acc;
               acc_missing := Set_add (acc_missing acc) keyword |}
      end
  end.

(** The loop over the kanji records. *)
Fixpoint kanjiLoop (kanjiNodes primitiveNodes : Map GraphNode)
    (kanjiData : list KanjiData) (acc : EdgeAcc) : result EdgeAcc :=
  match kanjiData with
  | [] => Ok acc
  | kanji :: rest =>
      let kanjiId := generateNodeId kanji_node (Parser.kanji kanji) in
      match Map_get kanjiNodes kanjiId with
      | None => kanjiLoop kanjiNodes primitiveNodes rest acc
      | Some _ =>
          acc' ← keywordLoop kanjiNodes primitiveNodes kanjiId
                   (parseComponents (components kanji)) ∅ acc;
          kanjiLoop kanjiNodes primitiveNodes rest acc'
      end
  end.

Definition createMnemonicEdges (kanjiNodes primitiveNodes : Map GraphNode)
    (kanjiData : list KanjiData) : result EdgeAcc :=
  kanjiLoop kanjiNodes primitiveNodes kanjiData
    {| acc_edges := []; acc_missing := [] |}.

Definition kanjiNodesOf (kanjiData : list KanjiData)
    (jlptMapping : option (jsstring -> option JLPTLevel)) : Map GraphNode :=
  foldl (fun m kanji =>
           let node := createKanjiNode kanji jlptMapping in
           Map_set m (n_id node) node) [] kanjiData.

Definition primitiveNodesOf (primitivesData : list PrimitiveData)
    : Map GraphNode :=
  foldl (fun m primitive =>
           let node := createPrimitiveNode primitive in
           Map_set m (n_id node) node) [] primitivesData.

Definition lengthOrZero {A} (data : option (list A)) : Z :=
  match data with
  | Some l => Z.of_nat (length l)
  | None => 0
  end.

Definition missingWarning (missingMnemonics : list jsstring) : jsstring :=
  lit "Missing mnemonic references found: "
    ++ join (lit ", ") missingMnemonics.

(** [buildGraph]; [now] is the value of [new Date()], the first
    component of the result is what was written with [console.warn]. *)
Definition buildGraph (kanjiData : option (list KanjiData))
    (primitivesData : option (list PrimitiveData))
    (jlptMapping : option (jsstring -> option JLPTLevel)) (now : Z)
    : list jsstring * result Graph :=
  let failed (e : error) : result Graph :=
    Throw (RTKDataError (lit "Failed to build graph: " ++ error_message e)
             (lengthOrZero kanjiData) (lengthOrZero primitivesData)) in
  match kanjiData, primitivesData with
  | Some kanjiRecords, Some primitiveRecords =>
      let kanjiNodes := kanjiNodesOf kanjiRecords jlptMapping in
      let primitiveNodes := primitiveNodesOf primitiveRecords in
      match createMnemonicEdges kanjiNodes primitiveNodes kanjiRecords with
      | Throw e => ([], failed e)
      | Ok acc =>
          let warnings :=
            if 0 <? Z.of_nat (length (acc_missing acc))
            then [missingWarning (acc_missing acc)] else [] in
          (warnings,
           Ok {| nodes := Map_values kanjiNodes ++ Map_values primitiveNodes;
                 edges := acc_edges acc;
                 metadata :=
                   {| totalKanji := Map_size kanjiNodes;
                      totalPrimitives := Map_size primitiveNodes;
                      totalEdges := Z.of_nat (length (acc_edges acc));
                      buildTimestamp := now |} |})
      end
  | _, _ =>
      ([], failed (Error (lit "Input data cannot be null or undefined")))
  end.

Record Validation := {
  missingComponents : list jsstring;
  duplicateNodes : list jsstring
}.

(** [{...graph, validation}] *)
Record ValidatedGraph := {
  graph : Graph;
  validation : Validation
}.

(** The duplicate scan of [buildValidatedGraph]. *)
Fixpoint duplicateScan (nodes : list GraphNode) (nodeIds : gset (list N))
    (duplicateNodes : list jsstring) : list jsstring :=
  match nodes with
  | [] => duplicateNodes
  | node :: rest =>
      if bool_decide (n_id node ∈ nodeIds)
      then duplicateScan rest nodeIds (duplicateNodes ++ [n_id node])
      else duplicateScan rest ({[n_id node]} ∪ nodeIds) duplicateNodes
  end.

Definition availableName (n : GraphNode) : jsstring :=
  or_else (n_character n) (or_else (n_keyword n) []).

Definition buildValidatedGraph (kanjiData : option (list KanjiData))
    (primitivesData : option (list PrimitiveData))
    (jlptMapping : option (jsstring -> option JLPTLevel)) (now : Z)
    : list jsstring * result ValidatedGraph :=
  let (warnings, built) :=
    buildGraph kanjiData primitivesData jlptMapping now in
  (warnings,
   graph ← built;
   let duplicateNodes := duplicateScan (nodes graph) ∅ [] in
   let availableNodes : gset (list N) :=
     list_to_set (availableName <$> nodes graph) in
   let allComponentNames :=
     foldl (fun names kanji =>
              foldl Set_add names (parseComponents (components kanji)))
       [] (default [] kanjiData) in
   let missingComponents :=
     List.filter (fun comp => negb (bool_decide (comp ∈ availableNodes)))
       allComponentNames in
   Ok {| graph := graph;
         validation := {| missingComponents := missingComponents;
                          duplicateNodes := duplicateNodes |} |}).

End GraphBuilder.
Import GraphBuilder.

(** ** Tree transformer *)

Module Tree.

Definition JLPT_ORDER (level : JLPTLevel) : Z :=
  match level with
  | N5 => 1
  | N4 => 2
  | N3 => 3
  | N2 => 4
  | N1 => 5
  end.

Record MoreNodeMeta := {
  parentNodeId : jsstring;
  totalReferers : Z;
  currentIndex : Z
}.

(** A tree node.  [t_parent] stands for the reference to the parent
    object and holds its id; [t_referers] and [t_moreNodeMeta] are
    [None] on the objects the source creates without these fields. *)
#[warnings="-register-all"] Inductive TreeNode := {
  t_id : jsstring;
  t_data : GraphNode;
  t_depth : Z;
  t_expanded : bool;
  t_referersExpanded : bool;
  t_parent : option jsstring;
  t_children : list TreeNode;
  t_referers : option (list TreeNode);
  t_moreNodeMeta : option MoreNodeMeta
}.

Definition moreMarker : jsstring := lit "_more_referers".

Definition isMoreNode (node : TreeNode) : bool :=
  includes (t_id node) moreMarker.

Definition sortKey (node : TreeNode) : jsstring :=
  or_else (n_character (t_data node)) (or_else (n_keyword (t_data node)) []).

(** [Array.prototype.sort(comparator)]: the sort is stable, an element
    moves in front of another only when the comparator is positive the
    other way round.  For a consistent comparator the result is the
    one sorted stable arrangement, whatever the engine's algorithm. *)
Fixpoint sortedInsert {A} (comparator : A -> A -> Z) (x : A)
    (sorted : list A) : list A :=
  match sorted with
  | [] => [x]
  | y :: rest =>
      if 0 <? comparator x y then y :: sortedInsert comparator x rest
      else x :: sorted
  end.

Definition Array_sort {A} (comparator : A -> A -> Z) (l : list A)
    : list A :=
  foldr (sortedInsert comparator) [] l.

Section WithLocaleCompare.
(** [String.prototype.localeCompare], the collation of the host. *)
Variable localeCompare : jsstring -> jsstring -> Z.

(** The comparator of [sortNodesByJLPTLevel]. *)
Definition compareJLPT (a b : TreeNode) : Z :=
  match n_jlptLevel (t_data a), n_jlptLevel (t_data b) with
  | Some aLevel, Some bLevel => JLPT_ORDER aLevel - JLPT_ORDER bLevel
  | Some _, None => -1
  | None, Some _ => 1
  | None, None => localeCompare (sortKey a) (sortKey b)
  end.

Definition sortNodesByJLPTLevel (nodes : list TreeNode)
    : list TreeNode :=
  let moreNodes := List.filter isMoreNode nodes in
  let regularNodes := List.filter (fun node => negb (isMoreNode node)) nodes in
  let sortedRegular := Array_sort compareJLPT regularNodes in
  sortedRegular ++ moreNodes.
End WithLocaleCompare.

(** [TreeDataTransformer]: the graph and the two lookup maps its
    constructor builds. *)
Record TreeDataTransformer := {
  tr_graph : Graph;
  nodeMap : gmap (list N) GraphNode;
  edgeMap : gmap (list N) (list Edge)
}.

Definition new_TreeDataTransformer (graph : Graph) : TreeDataTransformer :=
  {| tr_graph := graph;
     nodeMap := foldl (fun m node => <[n_id node := node]> m) ∅ (nodes graph);
     edgeMap :=
       foldl (fun m edge =>
                <[source edge := default [] (m !! source edge) ++ [edge]]> m)
         ∅ (edges graph) |}.

(** The bound [maxDepth] as the test [depth > maxDepth] sees it: an
    integer (a fractional bound acts as its floor), or [Infinity] (for
    which, as for NaN, the test is always false). *)
Inductive DepthLimit :=
| Finite (maxDepth : Z)
| Infinity.

Definition exceeds (depth : Z) (maxDepth : DepthLimit) : bool :=
  match maxDepth with
  | Finite bound => bound <? depth
  | Infinity => false
  end.

(** The three variables [buildTreeNode] closes over. *)
Record BuildState := {
  visitedNodes : gset (list N);
  circularReferences : list jsstring;
  allTreeNodes : list TreeNode
}.

Section Build.
Variable localeCompare : jsstring -> jsstring -> Z.
Variable this : TreeDataTransformer.
Variable maxDepth : DepthLimit.

(** The [for] loop over [componentEdges]; [call] is the recursive
    call [buildTreeNode(edge.target, depth + 1, treeNode)]. *)
Fixpoint childrenLoop
    (call : jsstring -> BuildState -> option (option TreeNode * BuildState))
    (componentEdges : list Edge) (children : list TreeNode)
    (st : BuildState) : option (list TreeNode * BuildState) :=
  match componentEdges with
  | [] => Some (children, st)
  | edge :: rest =>
      if decide (type edge = mnemonic_uses) then
        match call (target edge) st with
        | None => None
        | Some (Some childNode, st') =>
            childrenLoop call rest (children ++ [childNode]) st'
        | Some (None, st') => childrenLoop call rest children st'
        end
      else childrenLoop call rest children st
  end.

(** [buildTreeNode]; the outer [None] is an exhausted [fuel], the
    inner one the value [null].  The object pushed on [allTreeNodes]
    is the one whose [children] are assigned later, hence the update
    of its slot. *)
Fixpoint buildTreeNode (fuel : nat) (nodeId : jsstring) (depth : Z)
    (parent : option jsstring) (st : BuildState)
    : option (option TreeNode * BuildState) :=
  match fuel with
  | O => None
  | S fuel' =>
      if exceeds depth maxDepth then Some (None, st)
      else if bool_decide (nodeId ∈ visitedNodes st) then
        Some (None,
              {| visitedNodes := visitedNodes st;
                 circularReferences := circularReferences st ++ [nodeId];
                 allTreeNodes := allTreeNodes st |})
      else
        match nodeMap this !! nodeId with
        | None => Some (None, st)
        | Some graphNode =>
            let treeNode children :=
              {| t_id := nodeId;
                 t_data := graphNode;
                 t_depth := depth;
                 t_expanded := depth <? 2;
                 t_referersExpanded := false;
                 t_parent := parent;
                 t_children := children;
                 t_referers := None;
                 t_moreNodeMeta := None |} in
            let slot := length (allTreeNodes st) in
            let st1 :=
              {| visitedNodes := {[nodeId]} ∪ visitedNodes st;
                 circularReferences := circularReferences st;
                 allTreeNodes := allTreeNodes st ++ [treeNode []] |} in
            let componentEdges := default [] (edgeMap this !! nodeId) in
            match childrenLoop
                    (fun target =>
                       buildTreeNode fuel' target (depth + 1) (Some nodeId))
                    componentEdges [] st1 with
            | None => None
            | Some (children, st2) =>
                let final :=
                  treeNode (sortNodesByJLPTLevel localeCompare children) in
                Some (Some final,
                      {| visitedNodes := visitedNodes st2 ∖ {[nodeId]};
                         circularReferences := circularReferences st2;
                         allTreeNodes := <[slot := final]> (allTreeNodes st2) |})
            end
        end
  end.

(** [Math.max(...values)]; [None] is [-Infinity]. *)
Definition Math_max (values : list Z) : option Z :=
  foldr (fun v acc => Some (from_option (Z.max v) v acc)) None values.

Record TreeMetadata := {
  totalNodes : Z;
  maxTreeDepth : option Z;
  circularReferenceIds : list jsstring
}.

Record TreeResult := {
  root : TreeNode;
  allNodes : list TreeNode;
  sourceGraph : list GraphNode * list Edge;
  treeMetadata : TreeMetadata
}.

(** Nesting of the calls of [buildTreeNode] is bounded by the number
    of known node ids, whatever [maxDepth]. *)
Definition enoughFuel : nat := S (size (nodeMap this)).

Definition buildKanjiComponentTree (kanjiId : jsstring)
    : option (result TreeResult) :=
  match nodeMap this !! kanjiId with
  | None => Some (Throw (Error (lit "Kanji node not found: " ++ kanjiId)))
  | Some rootNode =>
      if decide (n_type rootNode = kanji_node) then
        match buildTreeNode enoughFuel kanjiId 0 None
                {| visitedNodes := ∅; circularReferences := [];
                   allTreeNodes := [] |} with
        | None => None
        | Some (None, _) =>
            Some (Throw (Error (lit "Failed to build tree for kanji: "
                                  ++ kanjiId)))
        | Some (Some rootTree, st) =>
            Some (Ok {| root := rootTree;
                        allNodes := allTreeNodes st;
                        sourceGraph := (nodes (tr_graph this),
                                        edges (tr_graph this));
                        treeMetadata :=
                          {| totalNodes := Z.of_nat (length (allTreeNodes st));
                             maxTreeDepth := Math_max (t_depth <$> allTreeNodes st);
                             circularReferenceIds := circularReferences st |} |})
        end
      else
        Some (Throw (Error (lit "Node " ++ kanjiId
                              ++ lit " is not a kanji node")))
  end.

Definition findNodeReferers (nodeId : jsstring) : list GraphNode :=
  omap (fun edge =>
          if bool_decide (type edge = mnemonic_uses)
             && bool_decide (target edge = nodeId)
          then nodeMap this !! source edge else None)
    (edges (tr_graph this)).

Definition refererTreeNode (refererGraphNode : GraphNode) : TreeNode :=
  {| t_id := n_id refererGraphNode;
     t_data := refererGraphNode;
     t_depth := -1;
     t_expanded := false;
     t_referersExpanded := false;
     t_parent := None;
     t_children := [];
     t_referers := Some [];
     t_moreNodeMeta := None |}.

Definition placeholderId (nodeId : jsstring) (startIndex endIndex : Z)
    : jsstring :=
  if startIndex =? 0 then nodeId ++ moreMarker
  else nodeId ++ moreMarker ++ lit "_" ++ Number_toString endIndex.

Definition summaryNode (nodeId : jsstring) (startIndex endIndex total : Z)
    : TreeNode :=
  let remainingCount := total - endIndex in
  let placeholder := placeholderId nodeId startIndex endIndex in
  {| t_id := placeholder;
     t_data :=
       {| n_id := placeholder;
          n_type := primitive_node;
          n_character := [8230%N];
          n_keyword := lit "+" ++ Number_toString remainingCount
                         ++ lit " more";
          n_rtkId := None; n_onReading := None; n_kunReading := None;
          n_jlptLevel := None; n_unicode := None; n_svgPath := None |};
     t_depth := -1;
     t_expanded := false;
     t_referersExpanded := false;
     t_parent := None;
     t_children := [];
     t_referers := Some [];
     t_moreNodeMeta :=
       Some {| parentNodeId := nodeId;
               totalReferers := total;
               currentIndex := endIndex |} |}.

Definition buildReferersTree (nodeId : jsstring)
    (maxReferers startIndex : Z) : list TreeNode :=
  let refererGraphNodes := findNodeReferers nodeId in
  let endIndex := startIndex + maxReferers in
  let limitedReferers := Array_slice refererGraphNodes startIndex endIndex in
  let refererTreeNodes := refererTreeNode <$> limitedReferers in
  let total := Z.of_nat (length refererGraphNodes) in
  let refererTreeNodes :=
    if endIndex <? total
    then refererTreeNodes ++ [summaryNode nodeId startIndex endIndex total]
    else refererTreeNodes in
  sortNodesByJLPTLevel localeCompare refererTreeNodes.
End Build.

End Tree.
Import Tree.

(** ** Vocabulary of the statements *)

(** *** Kanji rows *)

Module ParserSpec.


(** The eight fields of a row after padding. *)
Definition rowFields (line : jsstring) : list jsstring :=
  padFields (parseCSVLine line).

(** The record a row stands for. *)
Definition rowRecord (line : jsstring) : KanjiData :=
  let fields := rowFields line in
  {| kanji := trim (field fields 0);
     id5th := parseOptionalNumber (field fields 1);
     id6th := parseOptionalNumber (field fields 2);
     keyword5th := trim (field fields 3);
     keyword6th := trim (field fields 4);
     components := trim (field fields 5);
     onReading := trim (field fields 6);
     kunReading := trim (field fields 7) |}.

(** A row lacks its required data: no character, or neither keyword. *)
Definition rowRejected (line : jsstring) : Prop :=
  trim (field (rowFields line) 0) = []
  ∨ (trim (field (rowFields line) 3) = []
     ∧ trim (field (rowFields line) 4) = []).

#[export] Instance rowRejected_dec line : Decision (rowRejected line).
Proof. unfold rowRejected. apply _. Defined.

Definition rejectionMessage (line : jsstring) (lineNumber : Z) : jsstring :=
  (if decide (trim (field (rowFields line) 0) = [])
   then lit "Missing kanji character at line "
   else lit "Missing keywords at line ") ++ Number_toString lineNumber.

(** [trim] leaves a trimmed string alone. *)
Definition headKept (s : jsstring) : Prop :=
  match s with
  | [] => True
  | c :: _ => isWhiteSpace c = false
  end.

End ParserSpec.
Import ParserSpec.

(** *** Nodes and edges of the built graph *)

Module GraphSpec.

(** The node id of a kanji record. *)
Definition recordId (r : KanjiData) : jsstring :=
  generateNodeId kanji_node (kanji r).

Definition usesEdge (a b : jsstring) : Edge :=
  {| source := a; target := b; type := mnemonic_uses |}.

Definition usedEdge (a b : jsstring) : Edge :=
  {| source := a; target := b; type := used_in_mnemonic |}.

Definition isUses (e : Edge) : bool := bool_decide (type e = mnemonic_uses).

(** At most one [mnemonic_uses] edge per (source, target) pair. *)
Definition unique_mnemonic_uses (es : list Edge) : Prop :=
  NoDup (List.filter isUses es).

(** The edge list that links each source of [pairs] to its target,
    every link being the forward edge followed by its mirror. *)
Definition pairedEdges (pairs : list (list N * list N)) : list Edge :=
  pairs ≫= (fun p => edgePair p.1 p.2).

(** Record [r] names, in its mnemonic field, a keyword that resolves
    to the node with id [t]. *)
Definition linked (kanjiNodes primitiveNodes : Map GraphNode)
    (r : KanjiData) (t : jsstring) : Prop :=
  ∃ keyword node,
    keyword ∈ parseComponents (components r)
    ∧ referencedNode kanjiNodes primitiveNodes keyword = Ok (Some node)
    ∧ n_id node = t.

(** Some record names the keyword and it matches no node. *)
Definition unresolved (kanjiNodes primitiveNodes : Map GraphNode)
    (kanjiData : list KanjiData) (keyword : jsstring) : Prop :=
  ∃ r, r ∈ kanjiData
       ∧ keyword ∈ parseComponents (components r)
       ∧ referencedNode kanjiNodes primitiveNodes keyword = Ok None.

(** Every entry of a node map is filed under the id of its node. *)
Definition keyed (m : Map GraphNode) : Prop :=
  Forall (fun entry => entry.1 = n_id entry.2) m.

(** What [console.warn] receives for a set of missing keywords. *)
Definition warningsFor (missing : list jsstring) : list jsstring :=
  match missing with
  | [] => []
  | _ => [missingWarning missing]
  end.

End GraphSpec.
Import GraphSpec.

(** *** Links of the records *)

Module EdgeSpec.

(** The (source, target) pairs of the records [kd] when record number
    [i] links to the targets [targetss !! i], in record order. *)
Definition recordPairs (kd : list KanjiData)
    (targetss : list (list (list N))) : list (list N * list N) :=
  mjoin (zip_with (fun r targets => (recordId r ,.) <$> targets)
           kd targetss).

(** No keyword of any record names a property that the mapping object
    inherits. *)
Definition plainKeywords (kd : list KanjiData) : Prop :=
  ∀ r keyword,
    r ∈ kd → keyword ∈ parseComponents (components r) →
    inheritedKey keyword = false.

End EdgeSpec.
Import EdgeSpec.

(** *** Sample records *)

Module Samples.

Definition kanjiRecord (character keyword mnemonic : jsstring)
    : KanjiData :=
  {| kanji := character; id5th := None; id6th := None;
     keyword5th := keyword; keyword6th := keyword;
     components := mnemonic; onReading := []; kunReading := [] |}.

Definition primitiveRecord (path : jsstring) (codepoint : option jsstring)
    : PrimitiveData :=
  {| oldPath := path; parentFrame := None; unicode := codepoint;
     nextFrame := None; realHeisig := None |}.

(** U+660E "bright", whose story names "sun" twice and "moon". *)
Definition bright : KanjiData :=
  kanjiRecord [26126%N] (lit "bright") (lit "sun; moon; sun").
(** U+65E5 "day" and U+6708 "month". *)
Definition day : KanjiData := kanjiRecord [26085%N] (lit "day") [].
Definition month : KanjiData := kanjiRecord [26376%N] (lit "month") [].

(** U+8155 "arm", whose story names "elbow". *)
Definition arm : KanjiData :=
  kanjiRecord [33109%N] (lit "arm") (lit "elbow").
(** U+80B1, a kanji filed under the keyword "elbow". *)
Definition elbowKanji : KanjiData :=
  kanjiRecord [32945%N] (lit "elbow") [].
(** U+8098, the kanji "elbow" itself, which the exclusion table
    lists. *)
Definition elbowExcluded : KanjiData :=
  kanjiRecord [32920%N] (lit "elbow") [].
(** The primitive U+53B6, drawn in a file named after another
    keyword. *)
Definition elbowPrimitive : PrimitiveData :=
  primitiveRecord (lit "primitives/p80-private.svg") (Some [21430%N]).

(** U+3005 and U+3006, two characters outside the class that
    [generateNodeId] keeps. *)
Definition iteration : KanjiData :=
  kanjiRecord [12293%N] (lit "repetition") [].
Definition closing : KanjiData :=
  kanjiRecord [12294%N] (lit "closing") [].

(** Lower-casing of the ASCII letters, for examples. *)
Definition asciiLowerCase (s : jsstring) : jsstring := asciiLower <$> s.

(** A kanji file: a header, a row of four fields, a row without a
    character. *)
Definition sampleCSV : jsstring :=
  lit "kanji,id_5th_ed,id_6th_ed,keyword_5th_ed,keyword_6th_ed"
    ++ [10%N] ++ [26085%N] ++ lit ",12,12,day"
    ++ [10%N] ++ lit ",13,13,month,month".

(** A record whose story names a keyword that no node carries. *)
Definition withUnknown (keyword : jsstring) : KanjiData :=
  kanjiRecord [26126%N] (lit "bright") keyword.

End Samples.
Import Samples.

(** *** Sibling order *)

Module SortSpec.

(** A consistent comparator in the sense of ECMAScript
    (Array.prototype.sort): the classes of elements that compare equal
    are totally ordered. *)
Record consistent {A} (comparator : A → A → Z) : Prop := {
  compare_refl : ∀ a, comparator a a = 0;
  compare_sym : ∀ a b, comparator a b = 0 → comparator b a = 0;
  compare_trans_eq :
    ∀ a b c, comparator a b = 0 → comparator b c = 0 → comparator a c = 0;
  compare_trans_lt :
    ∀ a b c, comparator a b < 0 → comparator b c < 0 → comparator a c < 0;
  compare_trans_gt :
    ∀ a b c, 0 < comparator a b → 0 < comparator b c → 0 < comparator a c
}.

Definition level (node : TreeNode) : option JLPTLevel :=
  n_jlptLevel (t_data node).

Section Order.
Variable localeCompare : jsstring → jsstring → Z.

(** [a] may stand before [b]: by difficulty rank when both have a
    level, a node with a level before one without, by collation of
    character or keyword when neither has one. *)
Definition mayPrecede (a b : TreeNode) : Prop :=
  match level a, level b with
  | Some la, Some lb => JLPT_ORDER la ≤ JLPT_ORDER lb
  | Some _, None => True
  | None, Some _ => False
  | None, None => localeCompare (sortKey a) (sortKey b) ≤ 0
  end.

(** [a] and [b] tie: the same level, or no level and keys that
    collate equal. *)
Definition tied (a b : TreeNode) : Prop :=
  match level a, level b with
  | Some la, Some lb => la = lb
  | None, None => localeCompare (sortKey a) (sortKey b) = 0
  | _, _ => False
  end.

#[export] Instance tied_dec a b : Decision (tied a b).
Proof. unfold tied. destruct (level a), (level b); apply _. Defined.
End Order.

(** A collation for examples: code units compared one by one. *)
Fixpoint codeUnitCompare (a b : jsstring) : Z :=
  match a, b with
  | [], [] => 0
  | [], _ :: _ => -1
  | _ :: _, [] => 1
  | x :: a', y :: b' =>
      if (x <? y)%N then -1
      else if (y <? x)%N then 1
      else codeUnitCompare a' b'
  end.

(** A leaf node for examples. *)
Definition leaf (name : jsstring) (lv : option JLPTLevel) : TreeNode :=
  refererTreeNode
    {| n_id := generateNodeId kanji_node name; n_type := kanji_node;
       n_character := name; n_keyword := name; n_rtkId := None;
       n_onReading := None; n_kunReading := None; n_jlptLevel := lv;
       n_unicode := None; n_svgPath := None |}.

End SortSpec.
Import SortSpec.

(** *** Referer pages *)

Module RefererSpec.

(** A real referer node, as opposed to the summary placeholder. *)
Definition refererLeaf (node : TreeNode) : Prop :=
  t_depth node = -1 ∧ t_children node = [] ∧ t_referers node = Some []
  ∧ t_moreNodeMeta node = None ∧ t_id node = n_id (t_data node).

(** A graph in which [count] kanji refer to the node "hub". *)
Definition hubId : jsstring := lit "primitive_hub".

Definition spokeNode (i : nat) : GraphNode :=
  {| n_id := lit "kanji_" ++ Number_toString (Z.of_nat i);
     n_type := kanji_node;
     n_character := Number_toString (Z.of_nat i);
     n_keyword := Number_toString (Z.of_nat i);
     n_rtkId := None; n_onReading := None; n_kunReading := None;
     n_jlptLevel := None; n_unicode := None; n_svgPath := None |}.

Definition hubGraph (count : nat) : Graph :=
  {| nodes := spokeNode <$> seq 0 count;
     edges := seq 0 count ≫=
                (fun i => edgePair (n_id (spokeNode i)) hubId);
     metadata := {| totalKanji := Z.of_nat count; totalPrimitives := 0;
                    totalEdges := 2 * Z.of_nat count;
                    buildTimestamp := 0 |} |}.

End RefererSpec.
Import RefererSpec.

(** *** Component trees *)

Module TreeSpec.

(** The nodes of a tree: the node, then the nodes of its children. *)
Fixpoint subtree (n : TreeNode) : list TreeNode :=
  n :: (fix each (l : list TreeNode) : list TreeNode :=
          match l with
          | [] => []
          | child :: rest => subtree child ++ each rest
          end) (t_children n).

Section Shape.
Variable this : TreeDataTransformer.
Variable maxDepth : DepthLimit.

(** Targets of the [mnemonic_uses] edges that leave a node, in edge
    order. *)
Definition usesTargets (nodeId : jsstring) : list jsstring :=
  target <$> List.filter isUses (default [] (edgeMap this !! nodeId)).

(** A node is created for [nodeId] at [depth] below the descent path
    [path]: the depth is within the bound, the id is not on the path
    and the id is known. *)
Definition expandable (path : gset (list N)) (depth : Z)
    (nodeId : jsstring) : Prop :=
  exceeds depth maxDepth = false
  ∧ (nodeId ∉ path)
  ∧ is_Some (nodeMap this !! nodeId).

#[export] Instance expandable_dec path depth nodeId :
  Decision (expandable path depth nodeId).
Proof. unfold expandable. apply _. Defined.

(** The tree below [path] at [depth]: its root is off the path and
    within the bound, and its children are, up to sibling order, one
    fresh node for every edge target that is expandable under the
    path extended by the root, whatever other branches hold. *)
Fixpoint shaped (path : gset (list N)) (depth : Z)
    (parent : option jsstring) (n : TreeNode) : Prop :=
  (t_id n ∉ path)
  ∧ t_depth n = depth
  ∧ exceeds depth maxDepth = false
  ∧ t_parent n = parent
  ∧ nodeMap this !! t_id n = Some (t_data n)
  ∧ (t_id <$> t_children n)
    ≡ₚ filter (expandable ({[t_id n]} ∪ path) (depth + 1))
         (usesTargets (t_id n))
  ∧ (fix each (l : list TreeNode) : Prop :=
       match l with
       | [] => True
       | child :: rest =>
           shaped ({[t_id n]} ∪ path) (depth + 1) (Some (t_id n)) child
           ∧ each rest
       end) (t_children n).

(** Somewhere in the tree below [path], within the bound, an edge
    leads to [c] while [c] is on the descent path. *)
Fixpoint revisits (path : gset (list N)) (n : TreeNode)
    (c : jsstring) : Prop :=
  (c ∈ {[t_id n]} ∪ path
   ∧ exceeds (t_depth n + 1) maxDepth = false
   ∧ c ∈ usesTargets (t_id n))
  ∨ (fix any (l : list TreeNode) : Prop :=
       match l with
       | [] => False
       | child :: rest =>
           revisits ({[t_id n]} ∪ path) child c ∨ any rest
       end) (t_children n).

(** The depth of a node lies between [depth] and the bound. *)
Definition depthWithin (depth : Z) (n : TreeNode) : Prop :=
  depth ≤ t_depth n ∧ exceeds (t_depth n) maxDepth = false.

(** From [st] to [st'] the visited set is restored and the two
    lists have grown by [newNodes] and [newCirc]. *)
Definition grows (st st' : BuildState) (newNodes : list TreeNode)
    (newCirc : list jsstring) : Prop :=
  visitedNodes st' = visitedNodes st
  ∧ allTreeNodes st' = allTreeNodes st ++ newNodes
  ∧ circularReferences st' = circularReferences st ++ newCirc.

(** What one call of [buildTreeNode] at [depth] under [parent]
    does, whatever the state it starts from. *)
Definition callSpec
    (call : jsstring → BuildState → option (option TreeNode * BuildState))
    (depth : Z) (parent : option jsstring) : Prop :=
  ∀ nodeId st res st',
    call nodeId st = Some (res, st') →
    ∃ newNodes newCirc,
      grows st st' newNodes newCirc
      ∧ match res with
        | None =>
            newNodes = []
            ∧ ¬ expandable (visitedNodes st) depth nodeId
            ∧ ∀ c, c ∈ newCirc ↔
                   c = nodeId ∧ nodeId ∈ visitedNodes st
                   ∧ exceeds depth maxDepth = false
        | Some n =>
            t_id n = nodeId
            ∧ expandable (visitedNodes st) depth nodeId
            ∧ shaped (visitedNodes st) depth parent n
            ∧ newNodes ≡ₚ subtree n
            ∧ Forall (depthWithin depth) newNodes
            ∧ ∀ c, c ∈ newCirc ↔ revisits (visitedNodes st) n c
        end.
End Shape.

(** Sample graphs: a kanji that names itself, and a diamond in which
    two branches lead to the same node. *)
Definition sampleNode (name : jsstring) : GraphNode :=
  {| n_id := name; n_type := kanji_node; n_character := name;
     n_keyword := name; n_rtkId := None; n_onReading := None;
     n_kunReading := None; n_jlptLevel := None; n_unicode := None;
     n_svgPath := None |}.

Definition sampleGraph (names : list jsstring)
    (links : list (list N * list N)) : Graph :=
  {| nodes := sampleNode <$> names;
     edges := pairedEdges links;
     metadata := {| totalKanji := Z.of_nat (length names);
                    totalPrimitives := 0;
                    totalEdges := 2 * Z.of_nat (length links);
                    buildTimestamp := 0 |} |}.

Definition selfLoop : Graph :=
  sampleGraph [lit "A"] [(lit "A", lit "A")].

Definition diamond : Graph :=
  sampleGraph [lit "A"; lit "B"; lit "C"; lit "D"]
    [(lit "A", lit "B"); (lit "A", lit "C");
     (lit "B", lit "D"); (lit "C", lit "D")].

End TreeSpec.
Import TreeSpec.

(** ** The rest of the parser *)

Module ParserMore.

Section WithToLowerCase.
Variable toLowerCase : jsstring -> jsstring.

Definition parseBoolean (value : jsstring) : bool :=
  let trimmed := toLowerCase (trim value) in
  bool_decide (trimmed = lit "true")
  || bool_decide (trimmed = lit "1")
  || bool_decide (trimmed = lit "yes").

Definition validatePrimitiveData (data : PrimitiveData) (lineNumber : Z)
    : result unit :=
  if negb (truthy (trim (oldPath data))) then
    Throw (RTKParseError
             (lit "Missing oldPath at line " ++ Number_toString lineNumber)
             (Some lineNumber))
  else Ok tt.

(** [fields.length > i ? f(fields[i]) : undefined] *)
Definition fieldBeyond {A} (fields : list jsstring) (i : nat)
    (f : jsstring -> option A) : option A :=
  fields !! i ≫= f.

(** Body of the [for] loop of [parsePrimitivesCSV]. *)
Definition parsePrimitiveRow (line : jsstring) (lineNumber : Z)
    : result PrimitiveData :=
  rethrow lineNumber
    (let fields := parseCSVLine line in
     if (length fields <? 1)%nat then
       Throw (RTKParseError
                (lit "Insufficient fields at line "
                   ++ Number_toString lineNumber) (Some lineNumber))
     else
       let primitiveData :=
         {| oldPath := trim (field fields 0);
            parentFrame := fieldBeyond fields 1 parseOptionalNumber;
            unicode := fieldBeyond fields 2 (fun f => or_undefined (trim f));
            nextFrame := fieldBeyond fields 3 parseOptionalNumber;
            realHeisig :=
              fieldBeyond fields 4
                (fun f => if truthy (trim f) then Some (parseBoolean f)
                          else None) |} in
       validatePrimitiveData primitiveData lineNumber ;;
       Ok primitiveData).

Fixpoint parsePrimitiveRows (lines : list jsstring) (i : Z)
    (result : list PrimitiveData) : JS.result (list PrimitiveData) :=
  match lines with
  | [] => Ok result
  | line :: lines' =>
      primitiveData ← parsePrimitiveRow line (i + 1);
      parsePrimitiveRows lines' (i + 1) (result ++ [primitiveData])
  end.

Definition primitivesStartIndex (lines : list jsstring) : nat :=
  match lines with
  | first :: _ =>
      if includes (toLowerCase first) (lit "old_path") then 1%nat else 0%nat
  | [] => 0%nat
  end.

Definition parsePrimitivesCSV (csvText : jsstring)
    : result (list PrimitiveData) :=
  let lines := csvLines csvText in
  match lines with
  | [] => Throw (RTKParseError (lit "CSV file is empty") None)
  | _ =>
      let startIndex := primitivesStartIndex lines in
      parsePrimitiveRows (drop startIndex lines) (Z.of_nat startIndex) []
  end.

(** The [catch] clause of [parseAllCSV]. *)
Definition rethrowAll {A} (r : result A) : result A :=
  match r with
  | Ok a => Ok a
  | Throw (RTKParseError m l) => Throw (RTKParseError m l)
  | Throw e =>
      Throw (RTKParseError
               (lit "Failed to parse CSV data: " ++ error_message e) None)
  end.

Definition parseAllCSV (kanjiCSV primitivesCSV : jsstring)
    : result (list KanjiData * list PrimitiveData) :=
  rethrowAll
    (kanji ← parseKanjiCSV toLowerCase kanjiCSV;
     primitives ← parsePrimitivesCSV primitivesCSV;
     Ok (kanji, primitives)).

(** [buildRTKGraphFromCSV]: the promise it returns is fulfilled with
    the graph or rejected with what was thrown. *)
Definition buildRTKGraphFromCSV (kanjiCSV primitivesCSV : jsstring)
    (now : Z) : list jsstring * result Graph :=
  match parseAllCSV kanjiCSV primitivesCSV with
  | Throw e => ([], Throw e)
  | Ok (kanji, primitives) =>
      buildGraph (Some kanji) (Some primitives) None now
  end.
End WithToLowerCase.

End ParserMore.
Import ParserMore.

(** ** The rest of the tree utilities *)

Module TreeMore.

Section Transformer.
Variable this : TreeDataTransformer.

Definition findKanjiUsingPrimitive (primitiveId : jsstring)
    : list GraphNode :=
  omap (fun edge =>
          if bool_decide (type edge = mnemonic_uses)
             && bool_decide (target edge = primitiveId)
          then match nodeMap this !! source edge with
               | Some kanjiNode =>
                   if bool_decide (n_type kanjiNode = kanji_node)
                   then Some kanjiNode else None
               | None => None
               end
          else None)
    (edges (tr_graph this)).

Definition getKanjiComponents (kanjiId : jsstring) : list GraphNode :=
  omap (fun edge =>
          if bool_decide (type edge = mnemonic_uses)
          then nodeMap this !! target edge else None)
    (default [] (edgeMap this !! kanjiId)).
End Transformer.

Record TreeStatistics := {
  stat_totalNodes : Z;
  stat_kanji : Z;
  stat_primitive : Z;
  stat_nodesByDepth : gmap Z Z;
  stat_maxDepth : option Z;
  stat_circularReferences : Z
}.

(** [getTreeStatistics]; the object [nodesByDepth] is the map from a
    depth to its count. *)
Definition getTreeStatistics (treeResult : TreeResult) : TreeStatistics :=
  {| stat_totalNodes := Z.of_nat (length (allNodes treeResult));
     stat_kanji :=
       Z.of_nat (length (List.filter
                           (fun n => bool_decide (n_type (t_data n) = kanji_node))
                           (allNodes treeResult)));
     stat_primitive :=
       Z.of_nat (length (List.filter
                           (fun n => bool_decide
                                       (n_type (t_data n) = primitive_node))
                           (allNodes treeResult)));
     stat_nodesByDepth :=
       foldl (fun m node =>
                <[t_depth node := default 0 (m !! t_depth node) + 1]> m)
         ∅ (allNodes treeResult);
     stat_maxDepth := maxTreeDepth (treeMetadata treeResult);
     stat_circularReferences :=
       Z.of_nat (length (circularReferenceIds (treeMetadata treeResult))) |}.

Definition buildKanjiTree (localeCompare : jsstring -> jsstring -> Z)
    (graph : Graph) (kanjiCharacter : jsstring) (maxDepth : DepthLimit)
    : option (result TreeResult) :=
  let transformer := new_TreeDataTransformer graph in
  match List.find
          (fun node => bool_decide (n_type node = kanji_node)
                       && bool_decide (n_character node = kanjiCharacter))
          (nodes graph) with
  | None =>
      Some (Throw (Error (lit "Kanji character not found: "
                            ++ kanjiCharacter)))
  | Some kanjiNode =>
      buildKanjiComponentTree localeCompare transformer maxDepth
        (n_id kanjiNode)
  end.

(** [searchPath] of [findKanjiPath]. *)
Fixpoint searchPath (targetId : jsstring) (node : TreeNode)
    (path : list TreeNode) : option (list TreeNode) :=
  let currentPath := path ++ [node] in
  if bool_decide (t_id node = targetId) then Some currentPath
  else (fix each (children : list TreeNode) : option (list TreeNode) :=
          match children with
          | [] => None
          | child :: rest =>
              match searchPath targetId child currentPath with
              | Some result => Some result
              | None => each rest
              end
          end) (t_children node).

Definition findKanjiPath (root : TreeNode) (targetId : jsstring)
    : option (list TreeNode) :=
  searchPath targetId root [].


End TreeMore.
Import TreeMore.
(** *** Writing a CSV row *)

Module CsvSpec.

(** A field between double quotes, its own quotes doubled. *)
Definition csvQuote (s : jsstring) : jsstring :=
  [quote] ++ (s ≫= fun c => if (c =? quote)%N then [quote; quote] else [c])
    ++ [quote].

(** A field as a CSV writer puts it: quoted when it holds a quote or a
    comma. *)
Definition csvField (s : jsstring) : jsstring :=
  if bool_decide (quote ∈ s ∨ comma ∈ s) then csvQuote s else s.

Definition csvRow (fields : list jsstring) : jsstring :=
  join [comma] (csvField <$> fields).

(** The record a row of the primitives file stands for. *)
Definition primitiveRowRecord (toLowerCase : jsstring -> jsstring)
    (line : jsstring) : PrimitiveData :=
  let fields := parseCSVLine line in
  {| oldPath := default [] (head fields);
     parentFrame := fields !! 1%nat ≫= parseOptionalNumber;
     unicode := fields !! 2%nat ≫= or_undefined;
     nextFrame := fields !! 3%nat ≫= parseOptionalNumber;
     realHeisig :=
       fields !! 4%nat ≫=
         (fun f => if truthy f then Some (parseBoolean toLowerCase f)
                   else None) |}.

(** A row of the primitives file with no path. *)
Definition pathMissing (line : jsstring) : Prop :=
  head (parseCSVLine line) = Some [].

#[export] Instance pathMissing_dec line : Decision (pathMissing line).
Proof. unfold pathMissing. apply _. Defined.

End CsvSpec.
Import CsvSpec.

Module MoreSamples.

(** A kanji file with a header and two complete rows. *)
Definition completeCSV : jsstring :=
  lit "kanji,id_5th_ed,id_6th_ed,keyword_5th_ed,keyword_6th_ed,components"
    ++ [10%N] ++ [26085%N] ++ lit ",12,12,day,day,"
    ++ [10%N] ++ [26126%N] ++ lit ",20,20,bright,bright,sun; moon".

(** A primitives file with a header and two rows. *)
Definition primitivesCSV : jsstring :=
  lit "old_path,parent_frame,unicode"
    ++ [10%N] ++ lit "primitives/p1-walking stick.svg,1,"
    ++ [10%N] ++ lit "primitives/p80-private.svg,80," ++ [21430%N].

End MoreSamples.
Import MoreSamples.

(** *** Decimal numerals *)

Module NumberSpec.

(** The code units of a decimal numeral. *)
Definition digits (d : Decimal.uint) : jsstring :=
  lit (NilEmpty.string_of_uint d).

End NumberSpec.
Import NumberSpec.

(** *** Paths in a tree *)

Module PathSpec.

(** [descends n p]: the list [p] starts at [n] and goes from each node
    to one of its children. *)
Inductive descends : TreeNode → list TreeNode → Prop :=
| descends_here n : descends n [n]
| descends_child n child p :
    child ∈ t_children n → descends child p → descends n (n :: p).

(** The number of nodes of a list at a depth. *)
Definition countAtDepth (depth : Z) (l : list TreeNode) : Z :=
  Z.of_nat (length (filter (fun n => t_depth n = depth) l)).

End PathSpec.
Import PathSpec.

(** *** Keywords of a mnemonic field *)

Module FieldSpec.

(** A keyword as a mnemonic field holds it: trimmed, not empty and
    without semicolon. *)
Definition keywordLike (k : jsstring) : Prop :=
  trim k = k ∧ k ≠ [] ∧ 59%N ∉ k.

(** The extensions that [createPrimitiveNode] removes. *)
Definition imageExtensions : list jsstring :=
  lit <$> [".svg"; ".png"; ".jpg"; ".jpeg"]%string.

End FieldSpec.
Import FieldSpec.

(** * Properties *)

(** ** Record parser: padding and rejection of kanji rows *)

Module ParserFacts.

Lemma truthy_false (s : jsstring) : truthy s = false ↔ s = [].
Proof. destruct s; simpl; split; congruence. Qed.

Lemma padFields_length fields : (8 ≤ length (padFields fields))%nat.
Proof. unfold padFields. rewrite length_app, length_replicate. lia. Qed.

Lemma padFields_lookup fields i :
  (i < 8)%nat →
  field (padFields fields) i = default [] (fields !! i).
Proof.
  intros Hi. unfold field, padFields.
  destruct (decide (i < length fields)%nat) as [Hlt|Hge].
  - by rewrite lookup_app_l.
  - rewrite lookup_app_r by lia.
    rewrite (lookup_ge_None_2 fields) by lia.
    rewrite lookup_replicate_2 by lia. done.
Qed.

Lemma trimStart_headKept s : headKept (trimStart s).
Proof.
  induction s as [|c s IH]; simpl; [done|].
  destruct (isWhiteSpace c) eqn:E; [done | exact E].
Qed.

Lemma trimStart_fixed s : headKept s → trimStart s = s.
Proof. destruct s as [|c s]; simpl; [done|]. by intros ->. Qed.

Lemma trimStart_snoc l c :
  isWhiteSpace c = false → ∃ l', trimStart (l ++ [c]) = l' ++ [c].
Proof.
  intros Hc. induction l as [|x l IH]; simpl.
  - exists []. by rewrite Hc.
  - destruct (isWhiteSpace x); [done|]. by exists (x :: l).
Qed.

Lemma trimEnd_headKept s : headKept s → headKept (trimEnd s).
Proof.
  destruct s as [|c s]; [done|]. simpl. intros Hc. unfold trimEnd.
  rewrite reverse_cons.
  destruct (trimStart_snoc (reverse s) c Hc) as [l' ->].
  by rewrite reverse_app.
Qed.

Lemma trim_idemp s : trim (trim s) = trim s.
Proof.
  unfold trim at 1.
  rewrite (trimStart_fixed (trim s))
    by (apply trimEnd_headKept, trimStart_headKept).
  unfold trim, trimEnd. rewrite reverse_involutive.
  by rewrite (trimStart_fixed (trimStart _)) by apply trimStart_headKept.
Qed.

Lemma parseKanjiRow_spec line lineNumber :
  parseKanjiRow line lineNumber =
    if decide (rowRejected line)
    then Throw (RTKParseError (rejectionMessage line lineNumber)
                  (Some lineNumber))
    else Ok (rowRecord line).
Proof.
  destruct (decide (rowRejected line)) as [Hr|Hr]; revert Hr;
    unfold parseKanjiRow, validateKanjiData, rejectionMessage, rowRejected,
      rowRecord; fold (rowFields line); cbn [kanji keyword5th keyword6th];
    rewrite !trim_idemp;
    generalize (trim (field (rowFields line) 0))
      (trim (field (rowFields line) 3)) (trim (field (rowFields line) 4));
    intros a0 a3 a4 Hr;
    destruct a0, a3, a4; simpl; repeat case_decide;
      first [done | exfalso; intuition congruence].
Qed.

Lemma parseKanjiRows_spec rows i acc :
  parseKanjiRows rows i acc =
    match list_find rowRejected rows with
    | Some (k, line) =>
        Throw (RTKParseError (rejectionMessage line (i + Z.of_nat k + 1))
                 (Some (i + Z.of_nat k + 1)))
    | None => Ok (acc ++ (rowRecord <$> rows))
    end.
Proof.
  revert i acc. induction rows as [|line rows IH]; intros i acc; simpl.
  - by rewrite app_nil_r.
  - rewrite parseKanjiRow_spec.
    destruct (decide (rowRejected line)) as [Hrej|Hrej]; simpl.
    + by replace (i + Z.of_nat 0 + 1) with (i + 1) by lia.
    + change (parseKanjiRows rows (i + 1) ([] ++ acc ++ [rowRecord line]))
        with (parseKanjiRows rows (i + 1) (acc ++ [rowRecord line])).
      rewrite IH. destruct (list_find rowRejected rows) as [[k l]|]; simpl.
      * by replace (i + 1 + Z.of_nat k + 1) with (i + Z.of_nat (S k) + 1)
          by lia.
      * by rewrite <- app_assoc.
Qed.

End ParserFacts.
Import ParserFacts.

(** C8. [parseKanjiCSV] pads a short row with empty fields up to eight
    columns instead of rejecting it, and rejects a row, with a parse
    error that carries the row's line number, exactly when after padding
    and trimming its character field is empty or its two keyword fields
    are both empty: a row parses to an error precisely in that case and
    to its record otherwise, and the whole text parses to the error of
    its first such row, or to the records of all its rows when there is
    none. *)
Theorem parseKanjiCSV_pads_and_rejects
    (toLowerCase : jsstring → jsstring) (csvText : jsstring) :
  let lines := csvLines csvText in
  let startIndex := kanjiStartIndex toLowerCase lines in
  let rows := drop startIndex lines in
  (∀ line, (8 ≤ length (rowFields line))%nat
           ∧ ∀ i, (i < 8)%nat →
                  field (rowFields line) i
                  = default [] (parseCSVLine line !! i))
  ∧ (∀ line lineNumber,
       (rowRejected line →
        parseKanjiRow line lineNumber
        = Throw (RTKParseError (rejectionMessage line lineNumber)
                   (Some lineNumber)))
       ∧ (¬ rowRejected line →
          parseKanjiRow line lineNumber = Ok (rowRecord line)))
  ∧ parseKanjiCSV toLowerCase csvText =
      match lines with
      | [] => Throw (RTKParseError (lit "CSV file is empty") None)
      | _ =>
          match list_find rowRejected rows with
          | Some (k, line) =>
              let lineNumber := Z.of_nat (startIndex + k) + 1 in
              Throw (RTKParseError (rejectionMessage line lineNumber)
                       (Some lineNumber))
          | None => Ok (rowRecord <$> rows)
          end
      end.
Proof.
  intros lines startIndex rows. split; [|split].
  - intros line. split; [apply padFields_length|].
    intros i Hi. by apply padFields_lookup.
  - intros line lineNumber. rewrite parseKanjiRow_spec.
    split; intros H; [by rewrite decide_True | by rewrite decide_False].
  - unfold parseKanjiCSV. fold lines. destruct lines as [|l ls] eqn:E; [done|].
    fold startIndex. fold rows. rewrite parseKanjiRows_spec.
    destruct (list_find rowRejected rows) as [[k line]|]; simpl; [|done].
    by replace (Z.of_nat startIndex + Z.of_nat k + 1)
      with (Z.of_nat (startIndex + k) + 1) by lia.
Qed.

Lemma parseKanjiCSV_witness :
  parseKanjiRow ([26085%N] ++ lit ",12,12,day") 2
  = Ok (rowRecord ([26085%N] ++ lit ",12,12,day"))
  ∧ length (parseCSVLine ([26085%N] ++ lit ",12,12,day")) = 4%nat
  ∧ parseKanjiCSV asciiLowerCase sampleCSV
    = Throw (RTKParseError (lit "Missing kanji character at line 3") (Some 3)).
Proof.
  destruct (parseKanjiCSV_pads_and_rejects asciiLowerCase sampleCSV)
    as (_ & Hrow & Hfile).
  split; [|split; [by vm_compute|]].
  - apply Hrow. intros Hrej. apply (bool_decide_pack _) in Hrej.
    vm_compute in Hrej. exact Hrej.
  - rewrite Hfile. by vm_compute.
Defined.

(** ** Graph builder: the node maps *)

Module MapFacts.

Section Maps.
Context {V : Type}.
Implicit Types (m : Map V) (k : jsstring) (v : V).

Lemma Map_get_set m k v k' :
  Map_get (Map_set m k v) k' =
    if decide (k' = k) then Some v else Map_get m k'.
Proof.
  induction m as [|[k0 v0] m IH]; simpl.
  - by destruct (decide (k' = k)).
  - destruct (decide (k = k0)) as [->|Hne]; simpl.
    + by destruct (decide (k' = k0)).
    + destruct (decide (k' = k0)) as [->|Hne'].
      * by rewrite decide_False by done.
      * exact IH.
Qed.

Lemma Map_keys_set m k v :
  Map_keys (Map_set m k v) =
    if decide (k ∈ Map_keys m) then Map_keys m else Map_keys m ++ [k].
Proof.
  unfold Map_keys. induction m as [|[k0 v0] m IH].
  - cbn [Map_set fmap list_fmap fst].
    destruct (decide (k ∈ [])) as [H|H]; [by apply elem_of_nil in H|done].
  - cbn [Map_set]. destruct (decide (k = k0)) as [->|Hne].
    + cbn [fmap list_fmap fst].
      destruct (decide (k0 ∈ k0 :: (fst <$> m))) as [H|H]; [done|].
      exfalso. apply H. left.
    + cbn [fmap list_fmap fst]. fold (fst <$> Map_set m k v).
      fold (fst <$> m). rewrite IH.
      destruct (decide (k ∈ fst <$> m)) as [Hin|Hnin];
        destruct (decide (k ∈ k0 :: (fst <$> m))) as [Hin'|Hnin'];
        try done.
      * exfalso. apply Hnin'. by right.
      * apply elem_of_cons in Hin' as [?|?]; done.
Qed.

Lemma Map_keys_set_NoDup m k v :
  NoDup (Map_keys m) → NoDup (Map_keys (Map_set m k v)).
Proof.
  intros Hnd. rewrite Map_keys_set. case_decide; [done|].
  apply NoDup_app. split; [done|]. split.
  - intros x Hx Hx'. apply list_elem_of_singleton in Hx'. by subst.
  - apply NoDup_singleton.
Qed.

Lemma Map_get_None m k : Map_get m k = None ↔ k ∉ Map_keys m.
Proof.
  unfold Map_keys. induction m as [|[k0 v0] m IH]; simpl.
  - split; [intros _; apply not_elem_of_nil | done].
  - destruct (decide (k = k0)) as [->|Hne].
    + split; [done|]. intros H. exfalso. apply H. left.
    + rewrite IH. rewrite not_elem_of_cons. tauto.
Qed.

Lemma Map_get_elem m k v : Map_get m k = Some v → (k, v) ∈ m.
Proof.
  induction m as [|[k0 v0] m IH]; simpl; [done|].
  destruct (decide (k = k0)) as [->|Hne].
  - intros [= ->]. left.
  - intros H. right. by apply IH.
Qed.

Lemma Map_values_set_elem m k v n :
  n ∈ Map_values (Map_set m k v) → n = v ∨ n ∈ Map_values m.
Proof.
  unfold Map_values. induction m as [|[k0 v0] m IH]; cbn [Map_set].
  - rewrite fmap_cons. intros H. apply elem_of_cons in H as [H|H]; auto.
  - destruct (decide (k = k0)) as [->|Hne]; rewrite !fmap_cons;
      intros H; apply elem_of_cons in H as [H|H]; auto.
    + right. by right.
    + right. subst n. left.
    + destruct (IH H) as [?|?]; auto. right. by right.
Qed.
End Maps.

Lemma keyed_set m (node : GraphNode) :
  keyed m → keyed (Map_set m (n_id node) node).
Proof.
  unfold keyed. induction m as [|[k0 v0] m IH]; simpl; intros Hm.
  - by repeat constructor.
  - apply Forall_cons in Hm as [H0 Hm].
    destruct (decide (n_id node = k0)); constructor; auto.
Qed.

Lemma keyed_values m :
  keyed m → n_id <$> Map_values m = Map_keys m.
Proof.
  unfold keyed, Map_values, Map_keys.
  induction 1 as [|[k v] m Hk _ IH]; [done|].
  rewrite !fmap_cons, IH. simpl in Hk. by rewrite Hk.
Qed.

(** The map a loop of [set] calls builds from the nodes [f r]. *)
Lemma nodesOf_snoc {R} (f : R → GraphNode) (rs : list R) (r : R) :
  foldl (fun m x => Map_set m (n_id (f x)) (f x)) [] (rs ++ [r])
  = Map_set (foldl (fun m x => Map_set m (n_id (f x)) (f x)) [] rs)
      (n_id (f r)) (f r).
Proof. by rewrite foldl_app. Qed.

Lemma nodesOf_invariant {R} (f : R → GraphNode) (rs : list R) :
  let m := foldl (fun m x => Map_set m (n_id (f x)) (f x)) [] rs in
  keyed m ∧ NoDup (Map_keys m)
  ∧ (∀ i, Map_get m i
          = f <$> last (filter (fun r => n_id (f r) = i) rs))
  ∧ (∀ n, n ∈ Map_values m → ∃ r, r ∈ rs ∧ n = f r).
Proof.
  induction rs as [|r rs IH] using rev_ind.
  - simpl. repeat split; try constructor.
    intros n Hn. by apply elem_of_nil in Hn.
  - rewrite nodesOf_snoc. simpl in *.
    destruct IH as (Hk & Hnd & Hget & Hval).
    set (m := foldl _ [] rs) in *.
    split; [by apply keyed_set|].
    split; [by apply Map_keys_set_NoDup|]. split.
    + intros i. rewrite Map_get_set, filter_app, Hget.
      rewrite filter_cons, filter_nil.
      destruct (decide (i = n_id (f r))) as [->|Hne].
      * rewrite decide_True by done. by rewrite last_snoc.
      * rewrite decide_False by done. by rewrite app_nil_r.
    + intros n Hn. apply Map_values_set_elem in Hn as [->|Hn].
      * exists r. split; [apply elem_of_app; right; left | done].
      * destruct (Hval n Hn) as (r' & Hr' & ->).
        exists r'. split; [apply elem_of_app; by left | done].
Qed.

End MapFacts.
Import MapFacts.

(** ** Graph builder: node ids and the duplicate scan *)

Module NodeFacts.

Lemma kanjiNodesOf_facts kd jlpt :
  let m := kanjiNodesOf kd jlpt in
  keyed m ∧ NoDup (Map_keys m)
  ∧ (∀ i, Map_get m i
          = (fun r => createKanjiNode r jlpt)
              <$> last (filter (fun r => recordId r = i) kd))
  ∧ (∀ n, n ∈ Map_values m → ∃ r, r ∈ kd ∧ n = createKanjiNode r jlpt).
Proof.
  exact (nodesOf_invariant (fun r => createKanjiNode r jlpt) kd).
Qed.

Lemma primitiveNodesOf_facts pd :
  let m := primitiveNodesOf pd in
  keyed m ∧ NoDup (Map_keys m)
  ∧ (∀ i, Map_get m i
          = createPrimitiveNode
              <$> last (filter (fun p => n_id (createPrimitiveNode p) = i) pd))
  ∧ (∀ n, n ∈ Map_values m → ∃ p, p ∈ pd ∧ n = createPrimitiveNode p).
Proof. exact (nodesOf_invariant createPrimitiveNode pd). Qed.

(** Ids of the two kinds differ in their first code unit. *)
Lemma generateNodeId_kinds a b :
  generateNodeId kanji_node a ≠ generateNodeId primitive_node b.
Proof. unfold generateNodeId. cbv [typeName]. by vm_compute. Qed.

Lemma kanji_in_map kd jlpt r :
  r ∈ kd → is_Some (Map_get (kanjiNodesOf kd jlpt) (recordId r)).
Proof.
  intros Hr. destruct (kanjiNodesOf_facts kd jlpt) as (_ & _ & Hget & _).
  rewrite Hget.
  destruct (last (filter (fun r0 => recordId r0 = recordId r) kd)) eqn:E;
    [by eexists|].
  apply last_None in E.
  assert (r ∈ filter (fun r0 => recordId r0 = recordId r) kd) as Hin
    by (by apply list_elem_of_filter).
  rewrite E in Hin. by apply elem_of_nil in Hin.
Qed.

Lemma built_nodes_NoDup kd pd jlpt :
  NoDup (n_id <$> (Map_values (kanjiNodesOf kd jlpt)
                     ++ Map_values (primitiveNodesOf pd))).
Proof.
  destruct (kanjiNodesOf_facts kd jlpt) as (Hk & Hnd & _ & Hval).
  destruct (primitiveNodesOf_facts pd) as (Hk' & Hnd' & _ & Hval').
  rewrite fmap_app. apply NoDup_app. split; [|split].
  - by rewrite keyed_values.
  - intros i Hi Hi'.
    apply list_elem_of_fmap in Hi as (n & -> & Hn).
    apply list_elem_of_fmap in Hi' as (n' & Heq & Hn').
    destruct (Hval n Hn) as (r & _ & ->).
    destruct (Hval' n' Hn') as (p & _ & ->).
    exact (generateNodeId_kinds _ _ Heq).
  - by rewrite keyed_values.
Qed.

Lemma duplicateScan_NoDup (ns : list GraphNode) (seen : gset (list N))
    (dups : list (list N)) :
  NoDup (n_id <$> ns) →
  (∀ n, n ∈ ns → n_id n ∉ seen) →
  duplicateScan ns seen dups = dups.
Proof.
  revert seen. induction ns as [|n ns IH]; intros seen Hnd Hseen; [done|].
  rewrite fmap_cons in Hnd. apply NoDup_cons in Hnd as [Hn Hnd].
  cbn [duplicateScan].
  rewrite bool_decide_eq_false_2 by (apply Hseen; left).
  apply IH; [done|]. intros n' Hn' Hin.
  apply elem_of_union in Hin as [Hin|Hin].
  - apply elem_of_singleton in Hin. apply Hn. rewrite <- Hin.
    apply list_elem_of_fmap. by exists n'.
  - apply (Hseen n'); [by right | done].
Qed.

(** A scan that reports nothing saw no id twice. *)
Lemma duplicateScan_reports (ns : list GraphNode) (seen : gset (list N))
    (dups : list (list N)) (i : list N) :
  i ∈ duplicateScan ns seen dups ↔
  i ∈ dups
  ∨ ∃ k n, ns !! k = Some n ∧ n_id n = i
           ∧ (i ∈ seen ∨ ∃ j n', (j < k)%nat ∧ ns !! j = Some n' ∧ n_id n' = i).
Proof.
  revert seen dups. induction ns as [|n ns IH]; intros seen dups.
  - simpl. split; [auto|]. intros [H|(k & n & H & _)]; [done|].
    by rewrite lookup_nil in H.
  - cbn [duplicateScan]. case_bool_decide as Hin; rewrite IH; clear IH.
    + split.
      * intros [H|(k & n' & Hk & Hid & Hearlier)].
        -- apply elem_of_app in H as [H|H]; [by left|].
           apply list_elem_of_singleton in H as ->. right.
           exists 0%nat, n. auto.
        -- right. exists (S k), n'. split; [done|]. split; [done|].
           destruct Hearlier as [?|(j & n'' & Hj & Hn'' & Hid')]; [auto|].
           right. exists (S j), n''. split; [lia|]. auto.
      * intros [H|(k & n' & Hk & Hid & Hearlier)].
        -- left. apply elem_of_app. auto.
        -- destruct k as [|k].
           ++ simpl in Hk. injection Hk as ->. left. apply elem_of_app.
              right. rewrite Hid. apply list_elem_of_singleton. done.
           ++ simpl in Hk.
              destruct Hearlier as [Hs|(j & n'' & Hj & Hn'' & Hid')].
              ** right. exists k, n'. auto.
              ** destruct j as [|j].
                 --- simpl in Hn''. injection Hn'' as ->.
                     right. exists k, n'. split; [done|]. split; [done|].
                     left. by rewrite <- Hid'.
                 --- right. exists k, n'. split; [done|]. split; [done|].
                     right. exists j, n''. split; [lia|]. auto.
    + split.
      * intros [H|(k & n' & Hk & Hid & Hearlier)]; [by left|].
        right. exists (S k), n'. split; [done|]. split; [done|].
        destruct Hearlier as [Hs|(j & n'' & Hj & Hn'' & Hid')].
        -- apply elem_of_union in Hs as [Hs|Hs]; [|by left].
           apply elem_of_singleton in Hs. right. exists 0%nat, n.
           split; [lia|]. auto.
        -- right. exists (S j), n''. split; [lia|]. auto.
      * intros [H|(k & n' & Hk & Hid & Hearlier)]; [by left|].
        destruct k as [|k].
        -- simpl in Hk. injection Hk as ->.
           destruct Hearlier as [Hs|(j & n'' & Hj & _)]; [|lia].
           rewrite Hid in Hin. done.
        -- simpl in Hk. right. exists k, n'. split; [done|]. split; [done|].
           destruct Hearlier as [Hs|(j & n'' & Hj & Hn'' & Hid')].
           ++ left. apply elem_of_union. by right.
           ++ destruct j as [|j].
              ** simpl in Hn''. injection Hn'' as ->. left.
                 apply elem_of_union. left. apply elem_of_singleton. done.
              ** right. exists j, n''. split; [lia|]. auto.
Qed.

End NodeFacts.
Import NodeFacts.

(** ** Graph builder: the edges and the missing keywords *)

Module EdgeFacts.

Lemma referencedNode_total kn pn keyword :
  inheritedKey keyword = false →
  ∃ r, referencedNode kn pn keyword = Ok r.
Proof.
  intros Hplain. unfold referencedNode, mappedNode, resolveComponentKeyword.
  rewrite Hplain.
  destruct (Map_get KEYWORD_TO_CHARACTER_MAPPINGS keyword) as [c|];
    [destruct (truthy c)|]; cbn [mbind result_bind JS.bind];
    repeat match goal with
           | |- context [match ?x with _ => _ end] => destruct x
           end; by eexists.
Qed.

Lemma Set_add_elem (s : list (list N)) x y :
  y ∈ Set_add s x ↔ y ∈ s ∨ y = x.
Proof.
  unfold Set_add. case_bool_decide as Hin.
  - split; [auto|]. intros [?| ->]; done.
  - rewrite elem_of_app, list_elem_of_singleton. done.
Qed.

Lemma Set_add_NoDup (s : list (list N)) x : NoDup s → NoDup (Set_add s x).
Proof.
  intros Hnd. unfold Set_add. case_bool_decide as Hin; [done|].
  apply NoDup_app. split; [done|]. split; [|apply NoDup_singleton].
  intros y Hy Hy'. apply list_elem_of_singleton in Hy'. by subst.
Qed.

Lemma pairedEdges_app p q :
  pairedEdges (p ++ q) = pairedEdges p ++ pairedEdges q.
Proof. unfold pairedEdges. apply bind_app. Qed.

Lemma keywordLoop_spec (kn pn : Map GraphNode) (kid : list N)
    (kws : list (list N)) (created : gset (list N)) (acc acc' : EdgeAcc) :
  keywordLoop kn pn kid kws created acc = Ok acc' →
  ∃ targets : list (list N),
    acc_edges acc' = acc_edges acc ++ pairedEdges ((kid ,.) <$> targets)
    ∧ NoDup targets
    ∧ (∀ t, t ∈ targets → t ∉ created)
    ∧ (∀ t, t ∈ targets →
            ∃ kw n, kw ∈ kws ∧ referencedNode kn pn kw = Ok (Some n)
                    ∧ n_id n = t)
    ∧ (∀ kw, kw ∈ acc_missing acc' ↔
             kw ∈ acc_missing acc
             ∨ (kw ∈ kws ∧ referencedNode kn pn kw = Ok None))
    ∧ (NoDup (acc_missing acc) → NoDup (acc_missing acc')).
Proof.
  revert created acc.
  induction kws as [|kw kws IH]; intros created acc; cbn [keywordLoop].
  - intros [= <-]. exists []. cbn. rewrite app_nil_r.
    repeat split; try constructor; auto; try by intros ? ?%elem_of_nil.
    intros [?|[?%elem_of_nil _]]; done.
  - destruct (referencedNode kn pn kw) as [[node|]|e] eqn:Href;
      cbn [mbind result_bind JS.bind]; [| |done].
    + case_bool_decide as Hseen.
      * intros H. destruct (IH _ _ H) as (ts & He & Hnd & Hfresh & Hsrc & Hmiss & Hmnd).
        exists ts. repeat split; auto.
        -- intros t Ht. destruct (Hsrc t Ht) as (kw' & n & ? & ? & ?).
           exists kw', n. split; [by right | auto].
        -- intros Hkw. apply Hmiss in Hkw as [?|[? ?]]; [by left|].
           right. split; [by right | done].
        -- intros [?|[Hin Hnone]]; apply Hmiss; [by left|].
           apply elem_of_cons in Hin as [-> |Hin]; [congruence|]. by right.
      * intros H. destruct (IH _ _ H) as (ts & He & Hnd & Hfresh & Hsrc & Hmiss & Hmnd).
        cbn [acc_edges acc_missing] in *.
        exists (n_id node :: ts). split; [|split; [|split; [|split; [|split]]]].
        -- rewrite He, fmap_cons. unfold pairedEdges at 2.
           rewrite bind_cons. by rewrite <- app_assoc.
        -- apply NoDup_cons. split; [|done]. intros Hin.
           apply (Hfresh _ Hin). apply elem_of_union. left.
           by apply elem_of_singleton.
        -- intros t Ht. apply elem_of_cons in Ht as [-> |Ht]; [done|].
           intros Hc. apply (Hfresh _ Ht). apply elem_of_union. by right.
        -- intros t Ht. apply elem_of_cons in Ht as [-> |Ht].
           ++ exists kw, node. split; [left | done].
           ++ destruct (Hsrc t Ht) as (kw' & n & ? & ? & ?).
              exists kw', n. split; [by right | auto].
        -- intros kw'. rewrite Hmiss. split.
           ++ intros [?|[? ?]]; [by left|]. right. split; [by right|done].
           ++ intros [?|[Hin Hnone]]; [by left|].
              apply elem_of_cons in Hin as [-> |Hin]; [congruence|].
              right. auto.
        -- done.
    + intros H. destruct (IH _ _ H) as (ts & He & Hnd & Hfresh & Hsrc & Hmiss & Hmnd).
      cbn [acc_edges acc_missing] in *.
      exists ts. repeat split; auto.
      * intros t Ht. destruct (Hsrc t Ht) as (kw' & n & ? & ? & ?).
        exists kw', n. split; [by right | auto].
      * intros Hkw. apply Hmiss in Hkw as [Hkw|[? ?]].
        -- apply Set_add_elem in Hkw as [?| ->]; [by left|].
           right. split; [left | done].
        -- right. split; [by right | done].
      * intros [?|[Hin Hnone]]; apply Hmiss.
        -- left. apply Set_add_elem. by left.
        -- apply elem_of_cons in Hin as [-> |Hin].
           ++ left. apply Set_add_elem. by right.
           ++ right. auto.
      * intros Hn. apply Hmnd. by apply Set_add_NoDup.
Qed.

Lemma keywordLoop_total (kn pn : Map GraphNode) (kid : list N)
    (kws : list (list N)) (created : gset (list N)) (acc : EdgeAcc) :
  (∀ kw, kw ∈ kws → inheritedKey kw = false) →
  ∃ acc', keywordLoop kn pn kid kws created acc = Ok acc'.
Proof.
  revert created acc.
  induction kws as [|kw kws IH]; intros created acc Hplain;
    cbn [keywordLoop]; [by eexists|].
  destruct (referencedNode_total kn pn kw) as [r ->]; [apply Hplain; left|].
  cbn [mbind result_bind JS.bind].
  destruct r as [node|]; [case_bool_decide|];
    apply IH; intros; apply Hplain; by right.
Qed.

Lemma kanjiLoop_spec kn pn kd acc acc' :
  kanjiLoop kn pn kd acc = Ok acc' →
  ∃ targetss : list (list (list N)),
    Forall2 (fun r targets =>
               NoDup targets ∧ ∀ t, t ∈ targets → linked kn pn r t)
      kd targetss
    ∧ acc_edges acc' = acc_edges acc ++ pairedEdges (recordPairs kd targetss)
    ∧ (∀ kw, kw ∈ acc_missing acc' ↔
             kw ∈ acc_missing acc
             ∨ ∃ r, r ∈ kd ∧ is_Some (Map_get kn (recordId r))
                    ∧ kw ∈ parseComponents (components r)
                    ∧ referencedNode kn pn kw = Ok None)
    ∧ (NoDup (acc_missing acc) → NoDup (acc_missing acc')).
Proof.
  revert acc. induction kd as [|r kd IH]; intros acc; cbn [kanjiLoop].
  - intros [= <-]. exists []. split; [constructor|].
    split; [by rewrite app_nil_r|]. split; [|done].
    intros kw. split; [auto|]. intros [?|(r & Hr%elem_of_nil & _)]; done.
  - fold (recordId r).
    destruct (Map_get kn (recordId r)) as [node|] eqn:Hget.
    + destruct (keywordLoop kn pn (recordId r)
                  (parseComponents (components r)) ∅ acc) as [acc1|e] eqn:Hk;
        cbn [mbind result_bind JS.bind]; [|done].
      intros H.
      destruct (keywordLoop_spec _ _ _ _ _ _ _ Hk)
        as (ts & He & Hnd & _ & Hsrc & Hmiss & Hmnd).
      destruct (IH _ H) as (tss & HF & He' & Hmiss' & Hmnd').
      exists (ts :: tss). split; [|split; [|split]].
      * constructor; [|done]. split; [done|].
        intros t Ht. destruct (Hsrc t Ht) as (kw & n & ? & ? & ?).
        by exists kw, n.
      * rewrite He', He. unfold recordPairs. cbn [zip_with mjoin list_join].
        by rewrite pairedEdges_app, app_assoc.
      * intros kw. rewrite Hmiss', Hmiss. split.
        -- intros [[?|[? ?]]|(r' & ? & ? & ? & ?)]; [by left| |].
           ++ right. exists r. split; [left|]. rewrite Hget. eauto.
           ++ right. exists r'. split; [by right|]. eauto.
        -- intros [?|(r' & Hr' & ? & ? & ?)]; [by left; left|].
           apply elem_of_cons in Hr' as [-> |Hr'].
           ++ left. right. done.
           ++ right. exists r'. eauto.
      * auto.
    + intros H. destruct (IH _ H) as (tss & HF & He' & Hmiss' & Hmnd').
      exists ([] :: tss). split; [|split; [|split]].
      * constructor; [|done]. split; [constructor|].
        by intros t ?%elem_of_nil.
      * rewrite He'. unfold recordPairs. by cbn [zip_with mjoin list_join fmap list_fmap app].
      * intros kw. rewrite Hmiss'. split.
        -- intros [?|(r' & ? & ? & ? & ?)]; [by left|].
           right. exists r'. split; [by right|]. eauto.
        -- intros [?|(r' & Hr' & Hs & ? & ?)]; [by left|].
           apply elem_of_cons in Hr' as [-> |Hr'].
           ++ rewrite Hget in Hs. by destruct Hs.
           ++ right. exists r'. eauto.
      * auto.
Qed.

Lemma kanjiLoop_total kn pn kd acc :
  plainKeywords kd → ∃ acc', kanjiLoop kn pn kd acc = Ok acc'.
Proof.
  revert acc. induction kd as [|r kd IH]; intros acc Hplain;
    cbn [kanjiLoop]; [by eexists|].
  assert (plainKeywords kd) as Hplain'
    by (intros r' kw ? ?; apply (Hplain r' kw); [by right | done]).
  destruct (Map_get kn _); [|by apply IH].
  destruct (keywordLoop_total kn pn (generateNodeId kanji_node (kanji r))
              (parseComponents (components r)) ∅ acc) as [acc1 ->].
  { intros kw Hkw. apply (Hplain r kw); [left | done]. }
  cbn [mbind result_bind JS.bind]. by apply IH.
Qed.

End EdgeFacts.
Import EdgeFacts.

(** ** Graph builder: the built graph *)

Module GraphFacts.

Lemma elem_of_pairedEdges ps e :
  e ∈ pairedEdges ps ↔
  ∃ p, p ∈ ps ∧ (e = usesEdge p.1 p.2 ∨ e = usedEdge p.2 p.1).
Proof.
  unfold pairedEdges. rewrite list_elem_of_bind.
  split; intros (p & H1 & H2); exists p.
  - split; [done|]. unfold edgePair in H1.
    apply elem_of_cons in H1 as [->|H1]; [by left|].
    apply list_elem_of_singleton in H1 as ->. by right.
  - split; [|done]. unfold edgePair.
    destruct H2 as [->| ->]; [left | right; left].
Qed.

Lemma filter_isUses_pairedEdges ps :
  List.filter isUses (pairedEdges ps)
  = (fun p => usesEdge p.1 p.2) <$> ps.
Proof.
  induction ps as [|p ps IH]; [done|].
  unfold pairedEdges in *. rewrite bind_cons, fmap_cons.
  cbn [edgePair app List.filter]. unfold isUses at 1 2.
  cbn [type]. rewrite bool_decide_eq_true_2 by done.
  rewrite bool_decide_eq_false_2 by done. by rewrite IH.
Qed.

Lemma elem_of_recordPairs {P : KanjiData → list (list N) → Prop} kd tss p :
  Forall2 P kd tss → p ∈ recordPairs kd tss →
  ∃ r ts t, r ∈ kd ∧ P r ts ∧ t ∈ ts ∧ p = (recordId r, t).
Proof.
  unfold recordPairs. induction 1 as [|r ts kd tss HP HF IH];
    cbn [zip_with mjoin list_join].
  - by intros ?%elem_of_nil.
  - intros [Hin|Hin]%elem_of_app.
    + apply list_elem_of_fmap in Hin as (t & -> & Ht).
      exists r, ts, t. split; [left | auto].
    + destruct (IH Hin) as (r' & ts' & t & ? & ? & ? & ?).
      exists r', ts', t. split; [by right | auto].
Qed.

Lemma recordPairs_NoDup kd tss :
  Forall2 (fun _ ts => NoDup ts) kd tss →
  NoDup (recordId <$> kd) → NoDup (recordPairs kd tss).
Proof.
  unfold recordPairs. induction 1 as [|r ts kd tss Hts HF IH];
    cbn [zip_with mjoin list_join]; [constructor|].
  rewrite fmap_cons. intros [Hr Hnd]%NoDup_cons.
  apply NoDup_app. split; [|split; [|by apply IH]].
  - assert (Inj (=) (=) (pair (B := list N) (recordId r)))
      by (by intros ? ? [= ->]).
    by apply NoDup_fmap_2.
  - intros p Hp Hp'. apply list_elem_of_fmap in Hp as (t & -> & _).
    destruct (elem_of_recordPairs kd tss _ HF Hp')
      as (r' & _ & t' & Hr' & _ & _ & Hpeq).
    apply Hr. rewrite (f_equal fst Hpeq : recordId r = recordId r').
    apply list_elem_of_fmap. by exists r'.
Qed.

(** What [buildGraph] returns on two arrays, in terms of the loops. *)
Lemma buildGraph_Ok kd pd jlpt now warnings g :
  buildGraph (Some kd) (Some pd) jlpt now = (warnings, Ok g) →
  ∃ acc,
    createMnemonicEdges (kanjiNodesOf kd jlpt) (primitiveNodesOf pd) kd
    = Ok acc
    ∧ warnings = warningsFor (acc_missing acc)
    ∧ g = {| nodes := Map_values (kanjiNodesOf kd jlpt)
                      ++ Map_values (primitiveNodesOf pd);
             edges := acc_edges acc;
             metadata :=
               {| totalKanji := Map_size (kanjiNodesOf kd jlpt);
                  totalPrimitives := Map_size (primitiveNodesOf pd);
                  totalEdges := Z.of_nat (length (acc_edges acc));
                  buildTimestamp := now |} |}.
Proof.
  unfold buildGraph.
  destruct (createMnemonicEdges _ _ kd) as [acc|e]; [|done].
  intros [= <- <-]. exists acc. split; [done|]. split; [|done].
  by destruct (acc_missing acc).
Qed.

End GraphFacts.
Import GraphFacts.

(** C1.  In the graph [buildGraph] returns for two record
    arrays the edge list consists of pairs, each a [mnemonic_uses] edge
    (a,b) immediately followed by its [used_in_mnemonic] mirror (b,a), so
    that an edge of one kind is present exactly when its mirror is; each
    kanji record contributes at most one pair per resolved target, however
    often a keyword is repeated in its mnemonic text; and when the records
    have pairwise distinct node ids no [mnemonic_uses] pair occurs
    twice. *)
Theorem mnemonic_edges_paired
    (kd : list KanjiData) (pd : list PrimitiveData)
    (jlpt : option (jsstring → option JLPTLevel)) (now : Z)
    (warnings : list jsstring) (g : Graph) :
  buildGraph (Some kd) (Some pd) jlpt now = (warnings, Ok g) →
  (∃ targetss : list (list (list N)),
     Forall2 (fun r targets =>
                NoDup targets
                ∧ ∀ t, t ∈ targets →
                       linked (kanjiNodesOf kd jlpt) (primitiveNodesOf pd) r t)
       kd targetss
     ∧ edges g = pairedEdges (recordPairs kd targetss))
  ∧ (∀ a b, usesEdge a b ∈ edges g ↔ usedEdge b a ∈ edges g)
  ∧ (NoDup (recordId <$> kd) → unique_mnemonic_uses (edges g)).
Proof.
  intros Hbuild.
  destruct (buildGraph_Ok _ _ _ _ _ _ Hbuild) as (acc & Hloop & _ & ->).
  cbn [edges]. unfold createMnemonicEdges in Hloop.
  destruct (kanjiLoop_spec _ _ _ _ _ Hloop) as (tss & HF & He & _).
  cbn [acc_edges app] in He. rewrite He. split; [|split].
  - by exists tss.
  - intros a b. rewrite !elem_of_pairedEdges.
    split; intros ([x y] & Hp & [Heq|Heq]); try discriminate Heq;
      injection Heq as -> ->; exists (x, y); auto.
  - intros Hnd. unfold unique_mnemonic_uses.
    rewrite filter_isUses_pairedEdges.
    assert (Inj (=) (=) (fun p : list N * list N => usesEdge p.1 p.2))
      by (by intros [? ?] [? ?] [= -> ->]).
    apply NoDup_fmap_2; [done|].
    apply recordPairs_NoDup; [|done].
    eapply Forall2_impl; [exact HF|]. by intros ? ? [? _].
Qed.

Lemma mnemonic_edges_paired_witness :
  ∃ warnings g,
    buildGraph (Some [bright; day; month]) (Some []) None 0 = (warnings, Ok g)
    ∧ NoDup (recordId <$> [bright; day; month])
    ∧ unique_mnemonic_uses (edges g)
    ∧ length (edges g) = 4%nat.
Proof.
  eexists _, _. split; [vm_compute; reflexivity|].
  assert (NoDup (recordId <$> [bright; day; month])) as Hnd
    by (apply (bool_decide_unpack _); vm_compute; exact I).
  split; [exact Hnd|]. split; [|reflexivity].
  refine (proj2 (proj2 (mnemonic_edges_paired
                          [bright; day; month] [] None 0 _ _ _)) Hnd).
  vm_compute. reflexivity.
Defined.

(** The same kanji listed twice: each record adds its own pair, so the
    [mnemonic_uses] edge from the kanji to "day" occurs twice. *)
Lemma twice_listed_kanji_repeats_edge :
  ∃ warnings g,
    buildGraph (Some [bright; bright; day]) (Some []) None 0
    = (warnings, Ok g)
    ∧ ¬ unique_mnemonic_uses (edges g).
Proof.
  eexists _, _. split; [vm_compute; reflexivity|].
  unfold unique_mnemonic_uses. intros Hnd.
  apply (bool_decide_pack _) in Hnd. vm_compute in Hnd. exact Hnd.
Qed.

(** C6.  On two record arrays none of whose keywords names
    a property inherited by the mapping object, [buildGraph] returns a
    graph and throws nothing.  The keywords that match no node are
    exactly the members of the missing-mnemonics set; that set reaches
    the caller only through the [console.warn] message written when it is
    not empty, the metadata of the returned graph holding nothing but the
    three totals and the timestamp; and every edge of the graph comes
    from a keyword that did resolve, so that an unresolved keyword
    creates none. *)
Theorem unresolved_keywords_warned
    (kd : list KanjiData) (pd : list PrimitiveData)
    (jlpt : option (jsstring → option JLPTLevel)) (now : Z) :
  plainKeywords kd →
  let kanjiNodes := kanjiNodesOf kd jlpt in
  let primitiveNodes := primitiveNodesOf pd in
  ∃ (g : Graph) (missing : list jsstring),
    buildGraph (Some kd) (Some pd) jlpt now = (warningsFor missing, Ok g)
    ∧ NoDup missing
    ∧ (∀ keyword,
         keyword ∈ missing ↔ unresolved kanjiNodes primitiveNodes kd keyword)
    ∧ (∀ e, e ∈ edges g →
            ∃ r t, r ∈ kd ∧ linked kanjiNodes primitiveNodes r t
                   ∧ (e = usesEdge (recordId r) t
                      ∨ e = usedEdge t (recordId r)))
    ∧ metadata g = {| totalKanji := Map_size kanjiNodes;
                      totalPrimitives := Map_size primitiveNodes;
                      totalEdges := Z.of_nat (length (edges g));
                      buildTimestamp := now |}.
Proof.
  intros Hplain kn pn.
  destruct (kanjiLoop_total kn pn kd {| acc_edges := []; acc_missing := [] |}
              Hplain) as [acc Hloop].
  destruct (kanjiLoop_spec _ _ _ _ _ Hloop) as (tss & HF & He & Hmiss & Hnd).
  cbn [acc_edges acc_missing app] in *.
  eexists _, (acc_missing acc). split; [|split; [|split; [|split]]].
  - unfold buildGraph. fold kn pn. unfold createMnemonicEdges.
    rewrite Hloop. f_equal. by destruct (acc_missing acc).
  - apply Hnd. constructor.
  - intros kw. rewrite Hmiss. unfold unresolved. split.
    + intros [?%elem_of_nil|(r & ? & _ & ? & ?)]; [done|]. by exists r.
    + intros (r & Hr & ? & ?). right. exists r.
      split; [done|]. split; [by apply kanji_in_map | done].
  - cbn [edges]. rewrite He. intros e (p & Hp & Hedge)%elem_of_pairedEdges.
    destruct (elem_of_recordPairs kd tss p HF Hp)
      as (r & ts & t & Hr & [_ Hlinked] & Ht & ->).
    exists r, t. split; [done|]. split; [by apply Hlinked | done].
  - reflexivity.
Qed.

Lemma unresolved_keywords_warned_witness :
  plainKeywords [withUnknown (lit "zebra"); day]
  ∧ ∃ g, buildGraph (Some [withUnknown (lit "zebra"); day]) (Some []) None 7
         = ([missingWarning [lit "zebra"]], Ok g)
         ∧ edges g = [].
Proof.
  assert (plainKeywords [withUnknown (lit "zebra"); day]) as Hplain.
  { intros r kw Hr Hkw.
    apply elem_of_cons in Hr as [-> |Hr];
      [|apply list_elem_of_singleton in Hr as ->];
      vm_compute in Hkw.
    - apply list_elem_of_singleton in Hkw as ->. by vm_compute.
    - by apply elem_of_nil in Hkw. }
  split; [exact Hplain|].
  destruct (unresolved_keywords_warned
              [withUnknown (lit "zebra"); day] [] None 7 Hplain)
    as (g & missing & Hbuild & _).
  exists g. vm_compute in Hbuild. injection Hbuild as _ Hg.
  split; [|by subst].
  vm_compute. by rewrite Hg.
Defined.

(** Two inputs that differ only in the keyword that matches nothing
    yield the same returned graph, metadata included: the unresolved
    keyword is written to the console and is nowhere in the output.  And
    a keyword that names an inherited property makes [buildGraph]
    throw. *)
Lemma missing_keywords_not_in_output :
  (buildGraph (Some [withUnknown (lit "zebra")]) (Some []) None 0).2
  = (buildGraph (Some [withUnknown (lit "okapi")]) (Some []) None 0).2
  ∧ (buildGraph (Some [withUnknown (lit "zebra")]) (Some []) None 0).1
    = [missingWarning [lit "zebra"]]
  ∧ (buildGraph (Some [withUnknown (lit "okapi")]) (Some []) None 0).1
    = [missingWarning [lit "okapi"]]
  ∧ (∃ g, (buildGraph (Some [withUnknown (lit "zebra")]) (Some []) None 0).2
          = Ok g)
  ∧ (buildGraph (Some [withUnknown (lit "constructor")]) (Some []) None 0).2
    = Throw (RTKDataError
               (lit "Failed to build graph: identifier.replace is not a function")
               1 0).
Proof.
  split; [by vm_compute|]. split; [by vm_compute|]. split; [by vm_compute|].
  split; [eexists; by vm_compute | by vm_compute].
Qed.

(** C9.  Whenever [buildValidatedGraph] returns, its [duplicateNodes]
    list is empty: the node list is the values of the kanji map followed
    by those of the primitive map, each map holds under an id the node of
    the last record with that id (a later record overwrites an earlier
    one of the same kind), kanji ids never equal primitive ids, and so no
    id occurs twice in the list the duplicate scan reads. *)
Theorem duplicateNodes_always_empty
    (kanjiData : option (list KanjiData))
    (primitivesData : option (list PrimitiveData))
    (jlpt : option (jsstring → option JLPTLevel)) (now : Z)
    (warnings : list jsstring) (vg : ValidatedGraph) :
  buildValidatedGraph kanjiData primitivesData jlpt now = (warnings, Ok vg) →
  duplicateNodes (validation vg) = []
  ∧ NoDup (n_id <$> nodes (graph vg))
  ∧ ∃ kd pd,
      kanjiData = Some kd ∧ primitivesData = Some pd
      ∧ nodes (graph vg)
        = Map_values (kanjiNodesOf kd jlpt)
            ++ Map_values (primitiveNodesOf pd)
      ∧ (∀ i, Map_get (kanjiNodesOf kd jlpt) i
              = (fun r => createKanjiNode r jlpt)
                  <$> last (filter (fun r => recordId r = i) kd))
      ∧ (∀ i, Map_get (primitiveNodesOf pd) i
              = createPrimitiveNode
                  <$> last (filter
                              (fun p => n_id (createPrimitiveNode p) = i) pd))
      ∧ (∀ a b, generateNodeId kanji_node a ≠ generateNodeId primitive_node b).
Proof.
  unfold buildValidatedGraph.
  destruct (buildGraph kanjiData primitivesData jlpt now) as [w built] eqn:Hb.
  destruct built as [g|e]; cbn [mbind result_bind JS.bind]; [|done].
  intros [= -> <-]. cbn [validation duplicateNodes graph].
  destruct kanjiData as [kd|], primitivesData as [pd|];
    try (unfold buildGraph in Hb; discriminate Hb).
  destruct (buildGraph_Ok _ _ _ _ _ _ Hb) as (acc & _ & _ & ->).
  cbn [nodes]. split; [|split].
  - apply duplicateScan_NoDup; [apply built_nodes_NoDup|].
    intros n _. apply not_elem_of_empty.
  - apply built_nodes_NoDup.
  - exists kd, pd. split; [done|]. split; [done|]. split; [done|].
    destruct (kanjiNodesOf_facts kd jlpt) as (_ & _ & Hget & _).
    destruct (primitiveNodesOf_facts pd) as (_ & _ & Hget' & _).
    split; [exact Hget|]. split; [exact Hget'|].
    apply generateNodeId_kinds.
Qed.

Lemma duplicateNodes_always_empty_witness :
  ∃ warnings vg,
    buildValidatedGraph (Some [iteration; closing; day]) (Some []) None 0
    = (warnings, Ok vg)
    ∧ duplicateNodes (validation vg) = []
    ∧ length (nodes (graph vg)) = 2%nat.
Proof.
  eexists _, _. split; [vm_compute; reflexivity|].
  split; [|reflexivity].
  refine (proj1 (duplicateNodes_always_empty
                   (Some [iteration; closing; day]) (Some []) None 0 _ _ _)).
  vm_compute. reflexivity.
Defined.

(** C5.  The records of U+3005 and U+3006 are
    distinct and get the same node id; the validated build neither keeps
    both nor reports the collision: one node remains, that of the later
    record, and [duplicateNodes] is empty. *)
Theorem colliding_ids_merged_unreported :
  kanji iteration ≠ kanji closing
  ∧ recordId iteration = recordId closing
  ∧ ∃ warnings vg,
      buildValidatedGraph (Some [iteration; closing]) (Some []) None 0
      = (warnings, Ok vg)
      ∧ nodes (graph vg) = [createKanjiNode closing None]
      ∧ duplicateNodes (validation vg) = [].
Proof.
  split; [by vm_compute|]. split; [by vm_compute|].
  eexists _, _. split; [vm_compute; reflexivity|]. split; by vm_compute.
Qed.

(** C7.  The graph holds the primitive U+53B6 and
    a kanji filed under "elbow"; the keyword "elbow" of a third record is
    mapped to U+53B6, but the lookup asks for the id made from that
    character while the primitive is filed under the id made from its
    file name, so the mapping finds nothing and the keyword search links
    the record to the kanji.  When the kanji filed under "elbow" is the
    excluded U+8098, the keyword resolves to nothing at all. *)
Theorem elbow_override_misses_primitive :
  let kd := [arm; elbowKanji] in
  let pd := [elbowPrimitive] in
  let kanjiNodes := kanjiNodesOf kd None in
  let primitiveNodes := primitiveNodesOf pd in
  resolveComponentKeyword (lit "elbow") = Own [21430%N]
  ∧ n_character (createPrimitiveNode elbowPrimitive) = [21430%N]
  ∧ createPrimitiveNode elbowPrimitive ∈ Map_values primitiveNodes
  ∧ mappedNode kanjiNodes primitiveNodes (lit "elbow") = Ok None
  ∧ referencedNode kanjiNodes primitiveNodes (lit "elbow")
    = Ok (Some (createKanjiNode elbowKanji None))
  ∧ (∃ warnings g,
       buildGraph (Some kd) (Some pd) None 0 = (warnings, Ok g)
       ∧ edges g = edgePair (recordId arm) (recordId elbowKanji))
  ∧ (∃ g,
       buildGraph (Some [arm; elbowExcluded]) (Some pd) None 0
       = ([missingWarning [lit "elbow"]], Ok g)
       ∧ edges g = []).
Proof.
  cbv zeta. split; [by vm_compute|]. split; [by vm_compute|].
  split; [vm_compute; left|]. split; [by vm_compute|].
  split; [by vm_compute|]. split.
  - eexists _, _. split; [vm_compute; reflexivity | by vm_compute].
  - eexists. split; [vm_compute; reflexivity | by vm_compute].
Qed.

(** ** Sorting *)

Module SortFacts.

Section Comparator.
Context {A : Type} (cmp : A → A → Z).

Lemma sortedInsert_perm x l : sortedInsert cmp x l ≡ₚ x :: l.
Proof.
  induction l as [|y l IH]; cbn [sortedInsert]; [done|].
  destruct (0 <? cmp x y); [|done].
  rewrite IH. apply Permutation_swap.
Qed.

Lemma Array_sort_perm l : Array_sort cmp l ≡ₚ l.
Proof.
  induction l as [|x l IH]; [done|].
  cbn [Array_sort foldr]. fold (Array_sort cmp l).
  by rewrite sortedInsert_perm, IH.
Qed.

Hypothesis Hcmp : consistent cmp.

Lemma compare_flip a b : 0 < cmp a b → cmp b a < 0.
Proof.
  intros Hab. destruct (Z.lt_trichotomy (cmp b a) 0) as [?|[Heq|Hgt]];
    [done| |].
  - apply (compare_sym _ Hcmp) in Heq. lia.
  - pose proof (compare_trans_gt _ Hcmp a b a Hab Hgt).
    rewrite (compare_refl _ Hcmp) in *. lia.
Qed.

Lemma compare_flip' a b : cmp a b < 0 → 0 < cmp b a.
Proof.
  intros Hab. destruct (Z.lt_trichotomy (cmp b a) 0) as [Hlt|[Heq|?]];
    [| |done].
  - pose proof (compare_trans_lt _ Hcmp a b a Hab Hlt).
    rewrite (compare_refl _ Hcmp) in *. lia.
  - apply (compare_sym _ Hcmp) in Heq. lia.
Qed.

Lemma compare_le_trans a b c :
  cmp a b ≤ 0 → cmp b c ≤ 0 → cmp a c ≤ 0.
Proof.
  intros Hab Hbc.
  destruct (Z.lt_trichotomy (cmp a c) 0) as [?|[?|Hgt]]; [lia|lia|].
  exfalso. apply compare_flip in Hgt.
  destruct (Z.eq_dec (cmp a b) 0) as [Eab|Nab];
    destruct (Z.eq_dec (cmp b c) 0) as [Ebc|Nbc].
  - pose proof (compare_trans_eq _ Hcmp _ _ _ Eab Ebc).
    apply (compare_sym _ Hcmp) in H. lia.
  - assert (cmp b c < 0) as Hlt by lia.
    pose proof (compare_trans_lt _ Hcmp _ _ _ Hlt Hgt).
    apply (compare_sym _ Hcmp) in Eab. lia.
  - assert (cmp a b < 0) as Hlt by lia.
    pose proof (compare_trans_lt _ Hcmp _ _ _ Hgt Hlt).
    apply (compare_sym _ Hcmp) in Ebc. lia.
  - assert (cmp a c < 0)
      by (apply (compare_trans_lt _ Hcmp a b c); lia).
    apply compare_flip' in H. lia.
Qed.

Lemma sortedInsert_sorted x l :
  StronglySorted (fun a b => cmp a b ≤ 0) l →
  StronglySorted (fun a b => cmp a b ≤ 0) (sortedInsert cmp x l).
Proof.
  induction 1 as [|y l Hl IH Hy]; cbn [sortedInsert].
  - repeat constructor.
  - destruct (0 <? cmp x y) eqn:E.
    + apply Z.ltb_lt in E. constructor; [done|].
      rewrite sortedInsert_perm. constructor; [|done].
      apply compare_flip in E. lia.
    + apply Z.ltb_ge in E. constructor; [by constructor|].
      constructor; [done|].
      eapply Forall_impl; [exact Hy|]. intros z Hz.
      by apply (compare_le_trans x y z).
Qed.

Lemma Array_sort_sorted l :
  StronglySorted (fun a b => cmp a b ≤ 0) (Array_sort cmp l).
Proof.
  induction l as [|x l IH]; [constructor|].
  cbn [Array_sort foldr]. by apply sortedInsert_sorted.
Qed.

(** Stability: elements that compare equal keep their order. *)
Lemma sortedInsert_stable a x l :
  filter (fun b => cmp a b = 0) (sortedInsert cmp x l)
  = filter (fun b => cmp a b = 0) (x :: l).
Proof.
  induction l as [|y l IH]; cbn [sortedInsert]; [done|].
  destruct (0 <? cmp x y) eqn:E; [|done].
  apply Z.ltb_lt in E.
  rewrite (filter_cons _ y), IH, !filter_cons.
  destruct (decide (cmp a y = 0)) as [Hy|Hy];
    destruct (decide (cmp a x = 0)) as [Hx|Hx]; try done.
  exfalso. apply (compare_sym _ Hcmp) in Hx.
  pose proof (compare_trans_eq _ Hcmp _ _ _ Hx Hy). lia.
Qed.

Lemma Array_sort_stable a l :
  filter (fun b => cmp a b = 0) (Array_sort cmp l)
  = filter (fun b => cmp a b = 0) l.
Proof.
  induction l as [|x l IH]; [done|].
  cbn [Array_sort foldr]. fold (Array_sort cmp l).
  by rewrite sortedInsert_stable, !filter_cons, IH.
Qed.

(** The sorted stable arrangement is unique: whatever algorithm the
    engine runs, it returns the list [Array_sort] computes. *)
Lemma stable_sorted_unique l1 l2 :
  l1 ≡ₚ l2 →
  StronglySorted (fun a b => cmp a b ≤ 0) l1 →
  StronglySorted (fun a b => cmp a b ≤ 0) l2 →
  (∀ a, filter (fun b => cmp a b = 0) l1
        = filter (fun b => cmp a b = 0) l2) →
  l1 = l2.
Proof.
  revert l2. induction l1 as [|x l1 IH]; intros l2 Hperm Hs1 Hs2 Hst.
  - by apply Permutation_nil_l in Hperm.
  - destruct l2 as [|y l2];
      [by apply Permutation_nil_r in Hperm|].
    apply StronglySorted_inv in Hs1 as [Hs1 Hx].
    apply StronglySorted_inv in Hs2 as [Hs2 Hy].
    (* the two heads compare equal *)
    assert (cmp x y = 0) as Hxy.
    { assert (cmp x y ≤ 0).
      { assert (y ∈ x :: l1) as Hin by (rewrite Hperm; left).
        apply elem_of_cons in Hin as [->|Hin].
        - rewrite (compare_refl _ Hcmp). lia.
        - rewrite Forall_forall in Hx. by apply Hx. }
      assert (cmp y x ≤ 0).
      { assert (x ∈ y :: l2) as Hin by (rewrite <- Hperm; left).
        apply elem_of_cons in Hin as [->|Hin].
        - rewrite (compare_refl _ Hcmp). lia.
        - rewrite Forall_forall in Hy. by apply Hy. }
      destruct (Z.eq_dec (cmp x y) 0) as [|Hne]; [done|].
      assert (cmp x y < 0) as Hlt by lia.
      apply compare_flip' in Hlt. lia. }
    (* hence they are the same element *)
    assert (x = y) as <-.
    { specialize (Hst x). rewrite !filter_cons in Hst.
      rewrite decide_True in Hst by apply (compare_refl _ Hcmp).
      rewrite decide_True in Hst by done. by injection Hst. }
    f_equal. apply IH; [by apply (inj (cons x)) | done | done |].
    intros a. specialize (Hst a). rewrite !filter_cons in Hst.
    destruct (decide (cmp a x = 0)); [by injection Hst | done].
Qed.
End Comparator.

(** The sample collation is consistent. *)
Lemma codeUnitCompare_eq a b : codeUnitCompare a b = 0 ↔ a = b.
Proof.
  revert b. induction a as [|x a IH]; intros [|y b]; simpl; try done.
  destruct (x <? y)%N eqn:E1;
    [split; [done|intros [= -> _]; by rewrite N.ltb_irrefl in E1]|].
  destruct (y <? x)%N eqn:E2;
    [split; [done|intros [= -> _]; by rewrite N.ltb_irrefl in E2]|].
  apply N.ltb_ge in E1, E2. rewrite IH.
  assert (x = y) by lia. split; [by intros ->; subst | by intros [= _ ->]].
Qed.

Lemma codeUnitCompare_lt_trans a b c :
  codeUnitCompare a b < 0 → codeUnitCompare b c < 0 →
  codeUnitCompare a c < 0.
Proof.
  revert b c. induction a as [|x a IH]; intros [|y b] [|z c]; simpl;
    try lia.
  destruct (x <? y)%N eqn:E1, (y <? z)%N eqn:E2, (x <? z)%N eqn:E3;
    try lia;
    destruct (y <? x)%N eqn:E4, (z <? y)%N eqn:E5, (z <? x)%N eqn:E6;
    try lia;
    rewrite ?N.ltb_lt, ?N.ltb_ge in *; try lia.
  apply IH.
Qed.

Lemma codeUnitCompare_flip a b :
  codeUnitCompare b a = - codeUnitCompare a b.
Proof.
  revert b. induction a as [|x a IH]; intros [|y b]; simpl; try done.
  destruct (x <? y)%N eqn:E1, (y <? x)%N eqn:E2; try done.
  apply N.ltb_lt in E1, E2. lia.
Qed.

Lemma codeUnitCompare_consistent : consistent codeUnitCompare.
Proof.
  split.
  - intros a. by apply codeUnitCompare_eq.
  - intros a b ->%codeUnitCompare_eq. by apply codeUnitCompare_eq.
  - intros a b c ->%codeUnitCompare_eq. done.
  - apply codeUnitCompare_lt_trans.
  - intros a b c Hab Hbc.
    rewrite (codeUnitCompare_flip c a).
    rewrite (codeUnitCompare_flip b a) in Hab.
    rewrite (codeUnitCompare_flip c b) in Hbc.
    pose proof (codeUnitCompare_lt_trans c b a). lia.
Qed.

Section Siblings.
Variable localeCompare : jsstring → jsstring → Z.
Hypothesis Hlc : consistent localeCompare.

Lemma compareJLPT_consistent : consistent (compareJLPT localeCompare).
Proof.
  split; unfold compareJLPT.
  - intros a. destruct (n_jlptLevel (t_data a)); [lia|].
    apply (compare_refl _ Hlc).
  - intros a b. destruct (n_jlptLevel (t_data a)),
      (n_jlptLevel (t_data b)); try lia. apply (compare_sym _ Hlc).
  - intros a b c. destruct (n_jlptLevel (t_data a)),
      (n_jlptLevel (t_data b)), (n_jlptLevel (t_data c)); try lia.
    apply (compare_trans_eq _ Hlc).
  - intros a b c. destruct (n_jlptLevel (t_data a)),
      (n_jlptLevel (t_data b)), (n_jlptLevel (t_data c)); try lia.
    apply (compare_trans_lt _ Hlc).
  - intros a b c. destruct (n_jlptLevel (t_data a)),
      (n_jlptLevel (t_data b)), (n_jlptLevel (t_data c)); try lia.
    apply (compare_trans_gt _ Hlc).
Qed.

Lemma JLPT_ORDER_inj la lb : JLPT_ORDER la = JLPT_ORDER lb → la = lb.
Proof. by destruct la, lb. Qed.

Lemma compareJLPT_le a b :
  compareJLPT localeCompare a b ≤ 0 ↔ mayPrecede localeCompare a b.
Proof.
  unfold compareJLPT, mayPrecede, level.
  destruct (n_jlptLevel (t_data a)), (n_jlptLevel (t_data b));
    try done; lia.
Qed.

Lemma compareJLPT_eq a b :
  compareJLPT localeCompare a b = 0 ↔ tied localeCompare a b.
Proof.
  unfold compareJLPT, tied, level.
  destruct (n_jlptLevel (t_data a)) as [la|],
    (n_jlptLevel (t_data b)) as [lb|]; try done; try lia.
  split; [intros H; apply JLPT_ORDER_inj; lia | intros ->; lia].
Qed.
End Siblings.

End SortFacts.
Import SortFacts.

(** ** Tree transformer: sibling order and referer pages *)

Module SiblingFacts.

Lemma StronglySorted_iff {A} (R1 R2 : A → A → Prop) l :
  (∀ a b, R1 a b ↔ R2 a b) → StronglySorted R1 l → StronglySorted R2 l.
Proof.
  intros HR. induction 1 as [|x l _ IH Hx]; constructor; [done|].
  eapply Forall_impl; [exact Hx|]. intros y. apply HR.
Qed.

Lemma startsWith_app p s : startsWith (p ++ s) p = true.
Proof.
  induction p as [|c p IH]; [by destruct s|]. simpl. by rewrite N.eqb_refl.
Qed.

Lemma includes_app a s p :
  startsWith s p = true → includes (a ++ s) p = true.
Proof.
  intros H. induction a as [|c a IH].
  - cbn [app]. destruct s; cbn [includes]; by rewrite H.
  - cbn [app includes]. rewrite IH. apply orb_true_r.
Qed.

Lemma isMoreNode_summaryNode nodeId startIndex endIndex total :
  isMoreNode (summaryNode nodeId startIndex endIndex total) = true.
Proof.
  unfold isMoreNode, summaryNode, placeholderId. cbn [t_id].
  destruct (startIndex =? 0); apply includes_app.
  - rewrite <- (app_nil_r moreMarker) at 1. apply startsWith_app.
  - apply startsWith_app.
Qed.

Lemma filter_partition_perm {A} (f : A → bool) l :
  List.filter (fun x => negb (f x)) l ++ List.filter f l ≡ₚ l.
Proof.
  induction l as [|x l IH]; [done|]. simpl.
  destruct (f x); simpl; [|by rewrite IH].
  rewrite <- Permutation_middle. by rewrite IH.
Qed.

Lemma sortNodesByJLPTLevel_snoc lc nodes s :
  isMoreNode s = true →
  sortNodesByJLPTLevel lc (nodes ++ [s])
  = sortNodesByJLPTLevel lc nodes ++ [s].
Proof.
  intros Hs. unfold sortNodesByJLPTLevel.
  rewrite !List.filter_app. cbn [List.filter]. rewrite Hs.
  cbn [negb]. by rewrite app_nil_r, app_assoc.
Qed.

Lemma sortNodesByJLPTLevel_perm lc nodes :
  sortNodesByJLPTLevel lc nodes ≡ₚ nodes.
Proof.
  unfold sortNodesByJLPTLevel. rewrite Array_sort_perm.
  apply filter_partition_perm.
Qed.

End SiblingFacts.
Import SiblingFacts.

(** C3.  [sortNodesByJLPTLevel] returns the regular nodes
    in sorted order followed by the "more" placeholder nodes (those whose
    id contains the reserved marker) in their input order.  The regular
    part is a stable sort of the regular nodes: a permutation of them,
    ordered by JLPT rank ascending (N5 = 1 up to N1 = 5), every node
    with a level before every node without, nodes without a level ordered
    among themselves by the collation of character or keyword, and nodes
    that tie (same level, or no level and equal collation) left in input
    order; this arrangement is the only one with these properties.  For
    input nodes with levels [N3, N5, absent, N1] the result has levels
    [N5, N3, N1, absent]. *)
Theorem sibling_order
    (localeCompare : jsstring → jsstring → Z) (nodes : list TreeNode) :
  consistent localeCompare →
  let regular := List.filter (fun node => negb (isMoreNode node)) nodes in
  let more := List.filter isMoreNode nodes in
  ∃ sortedRegular,
    sortNodesByJLPTLevel localeCompare nodes = sortedRegular ++ more
    ∧ sortedRegular ≡ₚ regular
    ∧ StronglySorted (mayPrecede localeCompare) sortedRegular
    ∧ (∀ a, filter (tied localeCompare a) sortedRegular
            = filter (tied localeCompare a) regular)
    ∧ (∀ other,
         other ≡ₚ regular →
         StronglySorted (mayPrecede localeCompare) other →
         (∀ a, filter (tied localeCompare a) other
               = filter (tied localeCompare a) regular) →
         other = sortedRegular)
    ∧ (∀ a b c d,
         nodes = [a; b; c; d] → more = [] →
         level a = Some N3 → level b = Some N5 →
         level c = None → level d = Some N1 →
         sortNodesByJLPTLevel localeCompare nodes = [b; a; d; c])
    ∧ JLPT_ORDER N5 < JLPT_ORDER N4 < JLPT_ORDER N3
    ∧ JLPT_ORDER N3 < JLPT_ORDER N2 < JLPT_ORDER N1.
Proof.
  intros Hlc regular more.
  pose proof (compareJLPT_consistent localeCompare Hlc) as Hcmp.
  assert (∀ a (l : list TreeNode), filter (tied localeCompare a) l
                 = filter (fun b => compareJLPT localeCompare a b = 0) l)
    as Htied.
  { intros a l. apply list_filter_iff. intros b.
    symmetry. apply compareJLPT_eq. }
  exists (Array_sort (compareJLPT localeCompare) regular).
  split; [done|]. split; [apply Array_sort_perm|]. split; [|split; [|split]].
  - eapply StronglySorted_iff; [|by apply Array_sort_sorted].
    intros a b. apply compareJLPT_le.
  - intros a. rewrite !Htied. by apply Array_sort_stable.
  - intros other Hperm Hsorted Hstable.
    apply (stable_sorted_unique (compareJLPT localeCompare) Hcmp).
    + by rewrite Array_sort_perm.
    + eapply StronglySorted_iff; [|exact Hsorted].
      intros a b. symmetry. apply compareJLPT_le.
    + by apply Array_sort_sorted.
    + intros a. rewrite <- !Htied, Hstable, !Htied.
      symmetry. by apply Array_sort_stable.
  - split; [|by vm_compute].
    intros a b c d Hnodes Hmore Ha Hb Hc Hd.
    assert (regular = nodes) as Hreg.
    { pose proof (filter_partition_perm isMoreNode nodes) as Hp.
      fold regular more in Hp. rewrite Hmore, app_nil_r in Hp.
      subst regular. clear -Hp.
      induction nodes as [|x l IH]; [done|]. cbn [List.filter] in *.
      destruct (negb (isMoreNode x)).
      - f_equal. apply IH. by apply (inj (cons x)).
      - apply Permutation_length in Hp. cbn [length] in Hp.
        pose proof (List.filter_length_le
                      (fun node => negb (isMoreNode node)) l). lia. }
    unfold sortNodesByJLPTLevel. fold regular more.
    rewrite Hmore, Hreg, Hnodes, app_nil_r.
    unfold level in *. unfold Array_sort. cbn [foldr].
    repeat (cbn [sortedInsert]; unfold compareJLPT;
            rewrite ?Ha, ?Hb, ?Hc, ?Hd; simpl).
    reflexivity.
Qed.

Lemma sibling_order_witness :
  consistent codeUnitCompare
  ∧ sortNodesByJLPTLevel codeUnitCompare
      [leaf (lit "a") (Some N3); leaf (lit "b") (Some N5);
       leaf (lit "c") None; leaf (lit "d") (Some N1)]
    = [leaf (lit "b") (Some N5); leaf (lit "a") (Some N3);
       leaf (lit "d") (Some N1); leaf (lit "c") None].
Proof.
  split; [exact codeUnitCompare_consistent|].
  destruct (sibling_order codeUnitCompare
              [leaf (lit "a") (Some N3); leaf (lit "b") (Some N5);
               leaf (lit "c") None; leaf (lit "d") (Some N1)]
              codeUnitCompare_consistent)
    as (sorted & _ & _ & _ & _ & _ & Hexample & _).
  apply Hexample; reflexivity.
Defined.

(** On levels [N3, N5, absent, N1] the result is [N5, N3, N1, absent],
    not [N5, N1, N3, absent]; and two nodes of the same level keep their
    input order although their keys collate the other way round. *)
Lemma sibling_order_of_sample_levels :
  level <$> sortNodesByJLPTLevel codeUnitCompare
              [leaf (lit "a") (Some N3); leaf (lit "b") (Some N5);
               leaf (lit "c") None; leaf (lit "d") (Some N1)]
  ≠ [Some N5; Some N1; Some N3; None]
  ∧ sortNodesByJLPTLevel codeUnitCompare
      [leaf (lit "b") (Some N4); leaf (lit "a") (Some N4)]
    = [leaf (lit "b") (Some N4); leaf (lit "a") (Some N4)]
  ∧ codeUnitCompare (sortKey (leaf (lit "a") (Some N4)))
      (sortKey (leaf (lit "b") (Some N4))) < 0.
Proof.
  split; [by vm_compute|]. split; by vm_compute.
Qed.

Module RefererFacts.

Lemma Array_slice_page {A} (l : list A) (start count : Z) :
  0 ≤ start → 0 ≤ count →
  Array_slice l start (start + count)
  = take (Z.to_nat count) (drop (Z.to_nat start) l).
Proof.
  intros Hs Hc. unfold Array_slice, relativeIndex. cbv zeta.
  rewrite (proj2 (Z.ltb_ge start 0)) by lia.
  rewrite (proj2 (Z.ltb_ge (start + count) 0)) by lia.
  destruct (decide (Z.of_nat (length l) ≤ start)) as [Hge|Hlt].
  - rewrite (Z.min_r start) by lia.
    rewrite (drop_ge l (Z.to_nat start)) by lia.
    rewrite (drop_ge l (Z.to_nat _)) by lia. by rewrite !take_nil.
  - rewrite (Z.min_l start) by lia.
    destruct (decide (start + count ≤ Z.of_nat (length l))) as [Hin|Hout].
    + rewrite Z.min_l by lia. f_equal. lia.
    + rewrite Z.min_r by lia.
      rewrite !take_ge; [done| |]; rewrite length_drop; lia.
Qed.

Lemma Array_slice_past {A} (l : list A) (start finish : Z) :
  Z.of_nat (length l) ≤ start → Array_slice l start finish = [].
Proof.
  intros Hs. unfold Array_slice, relativeIndex. cbv zeta.
  rewrite (proj2 (Z.ltb_ge start 0)) by lia.
  rewrite (Z.min_r start) by lia.
  rewrite (drop_ge l) by lia. apply take_nil.
Qed.

Lemma refererTreeNode_leaf n : refererLeaf (refererTreeNode n).
Proof. by repeat split. Qed.

Section Pages.
Variable localeCompare : jsstring → jsstring → Z.
Variable this : TreeDataTransformer.

(** The page before sorting and the summary node, separated. *)
Lemma buildReferersTree_split nodeId maxReferers startIndex :
  let referers := findNodeReferers this nodeId in
  let total := Z.of_nat (length referers) in
  let endIndex := startIndex + maxReferers in
  buildReferersTree localeCompare this nodeId maxReferers startIndex
  = sortNodesByJLPTLevel localeCompare
      (refererTreeNode <$> Array_slice referers startIndex endIndex)
    ++ (if bool_decide (endIndex < total)
        then [summaryNode nodeId startIndex endIndex total] else []).
Proof.
  intros referers total endIndex. unfold buildReferersTree.
  fold referers. fold endIndex. fold total.
  case_bool_decide as Hmore.
  - rewrite (proj2 (Z.ltb_lt _ _)) by done.
    apply sortNodesByJLPTLevel_snoc, isMoreNode_summaryNode.
  - rewrite (proj2 (Z.ltb_ge _ _)) by lia. by rewrite app_nil_r.
Qed.
End Pages.

End RefererFacts.
Import RefererFacts.

(** C4.  For offsets and page sizes that are counts (not negative),
    [buildReferersTree] returns the referers of the node at positions
    [offset, offset+pageSize), each as a leaf of depth -1 that carries
    the referer as its data and the referer's id as its id, collapsed
    and without parent, children or referers of its own, arranged in
    sibling order, followed, exactly when referers remain beyond the
    slice, by one summary node.  The summary node records the owning node
    id, the total number of referers and the next offset
    offset+pageSize, and its id is the node id followed by
    [_more_referers] on the first page and by [_more_referers_] and the
    next offset on the later ones.  With 15 referers, page size 10 at
    offset 0 gives 10 referers and the summary node with next offset 10
    and total 15; page size 5 at offset 10 gives the remaining 5 and no
    summary node. *)
Theorem referers_page
    (localeCompare : jsstring → jsstring → Z) (this : TreeDataTransformer)
    (nodeId : jsstring) (maxReferers startIndex : Z) :
  0 ≤ startIndex → 0 ≤ maxReferers →
  let referers := findNodeReferers this nodeId in
  let total := Z.of_nat (length referers) in
  let endIndex := startIndex + maxReferers in
  let page := take (Z.to_nat maxReferers) (drop (Z.to_nat startIndex) referers) in
  let summary := summaryNode nodeId startIndex endIndex total in
  (∃ body,
     buildReferersTree localeCompare this nodeId maxReferers startIndex
     = body ++ (if bool_decide (endIndex < total) then [summary] else [])
     ∧ body ≡ₚ refererTreeNode <$> page
     ∧ body = sortNodesByJLPTLevel localeCompare (refererTreeNode <$> page)
     ∧ t_data <$> body ≡ₚ page
     ∧ Forall refererLeaf body
     ∧ Forall (fun n => t_expanded n = false ∧ t_referersExpanded n = false
                        ∧ t_parent n = None) body
     ∧ (total = 15 → startIndex = 0 → maxReferers = 10 →
        length body = 10%nat
        ∧ t_data <$> body ≡ₚ take 10 referers
        ∧ buildReferersTree localeCompare this nodeId maxReferers startIndex
          = body ++ [summary])
     ∧ (total = 15 → startIndex = 10 → maxReferers = 5 →
        body ≡ₚ refererTreeNode <$> drop 10 referers
        ∧ t_data <$> body ≡ₚ drop 10 referers
        ∧ length body = 5%nat
        ∧ buildReferersTree localeCompare this nodeId maxReferers startIndex
          = body))
  ∧ t_moreNodeMeta summary
    = Some {| parentNodeId := nodeId; totalReferers := total;
              currentIndex := endIndex |}
  ∧ t_id summary
    = (if decide (startIndex = 0) then nodeId ++ lit "_more_referers"
       else nodeId ++ lit "_more_referers_" ++ Number_toString endIndex)
  ∧ t_depth summary = -1
  ∧ (∀ n, n ∈ referers ↔
          ∃ e, e ∈ edges (tr_graph this) ∧ type e = mnemonic_uses
               ∧ target e = nodeId ∧ nodeMap this !! source e = Some n).
Proof.
  intros Hs Hc referers total endIndex page summary.
  split; [|split; [|split; [|split]]].
  - exists (sortNodesByJLPTLevel localeCompare (refererTreeNode <$> page)).
    assert (Hbuild := buildReferersTree_split localeCompare this nodeId
                        maxReferers startIndex).
    cbv zeta in Hbuild. rewrite Array_slice_page in Hbuild by done.
    fold referers in Hbuild. fold total endIndex page in Hbuild.
    fold summary in Hbuild.
    assert (t_data <$> sortNodesByJLPTLevel localeCompare
                         (refererTreeNode <$> page) ≡ₚ page) as Hdata.
    { rewrite sortNodesByJLPTLevel_perm, <- list_fmap_compose.
      by rewrite list_fmap_id. }
    split; [exact Hbuild|].
    split; [apply sortNodesByJLPTLevel_perm|].
    split; [reflexivity|].
    split; [exact Hdata|]. split; [|split; [|split]].
    + rewrite sortNodesByJLPTLevel_perm. apply Forall_fmap, Forall_true.
      intros n. apply refererTreeNode_leaf.
    + rewrite sortNodesByJLPTLevel_perm. apply Forall_fmap, Forall_true.
      done.
    + intros Ht -> ->.
      assert (length referers = 15%nat) as Hlen by lia.
      split; [|split].
      * rewrite sortNodesByJLPTLevel_perm, length_fmap. unfold page.
        rewrite length_take, length_drop. lia.
      * exact Hdata.
      * rewrite Hbuild. by rewrite bool_decide_eq_true_2 by lia.
    + intros Ht -> ->.
      assert (length referers = 15%nat) as Hlen by lia.
      assert (page = drop 10 referers) as Hpage.
      { unfold page. replace (Z.to_nat 10) with 10%nat by lia.
        apply take_ge. rewrite length_drop. lia. }
      split; [by rewrite sortNodesByJLPTLevel_perm, Hpage|].
      split; [by rewrite <- Hpage|]. split.
      * rewrite sortNodesByJLPTLevel_perm, length_fmap, Hpage, length_drop.
        lia.
      * rewrite Hbuild. rewrite bool_decide_eq_false_2 by lia.
        by rewrite app_nil_r.
  - reflexivity.
  - unfold summary, summaryNode, placeholderId. cbn [t_id].
    destruct (decide (startIndex = 0)) as [->|Hne]; [done|].
    rewrite (proj2 (Z.eqb_neq _ _)) by done.
    reflexivity.
  - reflexivity.
  - intros n. unfold referers, findNodeReferers. rewrite list_elem_of_omap.
    split.
    + intros (e & He & Hn). exists e.
      destruct (bool_decide (type e = mnemonic_uses)) eqn:E1;
        [|done]. destruct (bool_decide (target e = nodeId)) eqn:E2; [|done].
      apply bool_decide_eq_true in E1, E2. auto.
    + intros (e & He & Ht & Htg & Hn). exists e. split; [done|].
      by rewrite !bool_decide_eq_true_2.
Qed.

Lemma referers_page_witness :
  0 ≤ 0 ∧ 0 ≤ 10
  ∧ ∃ body,
      buildReferersTree codeUnitCompare (new_TreeDataTransformer (hubGraph 15))
        hubId 10 0
      = body ++ [summaryNode hubId 0 10 15]
      ∧ length body = 10%nat
      ∧ t_data <$> body
        ≡ₚ take 10 (findNodeReferers
                      (new_TreeDataTransformer (hubGraph 15)) hubId).
Proof.
  split; [lia|]. split; [lia|].
  destruct (referers_page codeUnitCompare
              (new_TreeDataTransformer (hubGraph 15)) hubId 10 0)
    as [(body & _ & _ & _ & _ & _ & _ & Hfirst & _) _]; [lia|lia|].
  exists body.
  assert (Z.of_nat (length (findNodeReferers
                             (new_TreeDataTransformer (hubGraph 15)) hubId))
          = 15) as Htotal by (by vm_compute).
  destruct (Hfirst Htotal eq_refl eq_refl) as (Hlen & Hdata & Hbuild).
  split; [|split; [exact Hlen | exact Hdata]].
  rewrite Hbuild. f_equal; by vm_compute.
Defined.

(** C10.  For a page size that is a count (not negative), an offset at
    or beyond the number of referers yields the empty array: no referer
    node, no summary node, and no failure (the function is total).  For
    any page size, an offset at or beyond the number of referers yields
    no referer node, and the result is the summary placeholder alone
    when the number of referers exceeds offset plus page size, which a
    negative page size allows, and the empty array otherwise.  In
    general, for any offset and page size, the result holds a summary
    placeholder exactly when the number of referers strictly exceeds
    offset plus page size. *)
Theorem referers_past_the_end
    (localeCompare : jsstring → jsstring → Z) (this : TreeDataTransformer)
    (nodeId : jsstring) (maxReferers startIndex : Z) :
  let total := Z.of_nat (length (findNodeReferers this nodeId)) in
  let result :=
    buildReferersTree localeCompare this nodeId maxReferers startIndex in
  (0 ≤ maxReferers → total ≤ startIndex → result = [])
  ∧ ((∃ n, n ∈ result ∧ t_moreNodeMeta n ≠ None)
     ↔ startIndex + maxReferers < total)
  ∧ (startIndex + maxReferers < total →
     ∃ body, result
             = body ++ [summaryNode nodeId startIndex
                          (startIndex + maxReferers) total]
             ∧ Forall (fun n => t_moreNodeMeta n = None) body)
  ∧ (total ≤ startIndex →
     result
     = if bool_decide (startIndex + maxReferers < total)
       then [summaryNode nodeId startIndex (startIndex + maxReferers) total]
       else []).
Proof.
  intros total result.
  assert (Hsplit := buildReferersTree_split localeCompare this nodeId
                      maxReferers startIndex).
  cbv zeta in Hsplit. fold total result in Hsplit.
  set (leaves := refererTreeNode <$> Array_slice _ _ _) in Hsplit.
  assert (Forall (fun n => t_moreNodeMeta n = None)
            (sortNodesByJLPTLevel localeCompare leaves)) as Hleaves.
  { rewrite sortNodesByJLPTLevel_perm. unfold leaves.
    apply Forall_fmap, Forall_true. done. }
  split; [|split; [|split]]; cycle 3.
  - intros Hge. rewrite Hsplit. unfold leaves.
    rewrite Array_slice_past by (fold total; lia). reflexivity.
  - intros Hc Hge. rewrite Hsplit.
    rewrite bool_decide_eq_false_2 by lia. rewrite app_nil_r.
    unfold leaves. rewrite Array_slice_page by lia.
    rewrite drop_ge by (fold total; lia). rewrite take_nil.
    reflexivity.
  - rewrite Hsplit. split.
    + intros (n & Hn & Hmeta). apply elem_of_app in Hn as [Hn|Hn].
      * rewrite Forall_forall in Hleaves. by specialize (Hleaves n Hn).
      * case_bool_decide; [done|]. by apply elem_of_nil in Hn.
    + intros Hlt. rewrite bool_decide_eq_true_2 by done.
      eexists. split; [apply elem_of_app; right; left|]. done.
  - intros Hlt. rewrite Hsplit, bool_decide_eq_true_2 by done.
    by eexists.
Qed.

Lemma referers_past_the_end_witness :
  0 ≤ 5
  ∧ Z.of_nat (length (findNodeReferers
                        (new_TreeDataTransformer (hubGraph 15)) hubId)) ≤ 15
  ∧ buildReferersTree codeUnitCompare (new_TreeDataTransformer (hubGraph 15))
      hubId 5 15 = [].
Proof.
  split; [lia|]. split; [by vm_compute|].
  apply (proj1 (referers_past_the_end codeUnitCompare
                  (new_TreeDataTransformer (hubGraph 15)) hubId 5 15));
    [lia | by vm_compute].
Defined.

(** With 15 referers, offset 15 and page size -5: the offset is not
    below the number of referers, yet the end index 10 is, and the
    result is the summary placeholder alone. *)
Lemma negative_page_size_keeps_summary :
  let this := new_TreeDataTransformer (hubGraph 15) in
  Z.of_nat (length (findNodeReferers this hubId)) ≤ 15
  ∧ buildReferersTree codeUnitCompare this hubId (-5) 15
    = [summaryNode hubId 15 10 15]
  ∧ buildReferersTree codeUnitCompare this hubId (-5) 15 ≠ [].
Proof.
  intros this.
  assert (buildReferersTree codeUnitCompare this hubId (-5) 15
          = [summaryNode hubId 15 10 15]) as Hrun by (by vm_compute).
  split; [by vm_compute|]. split; [exact Hrun|]. by rewrite Hrun.
Qed.

(** ** Tree transformer: the component tree *)

Module TreeFacts.

Lemma subtree_unfold n : subtree n = n :: (t_children n ≫= subtree).
Proof.
  by destruct n.
Qed.

Section Shape.
Variable this : TreeDataTransformer.
Variable maxDepth : DepthLimit.

Lemma shaped_unfold path depth parent n :
  shaped this maxDepth path depth parent n ↔
  (t_id n ∉ path)
  ∧ t_depth n = depth
  ∧ exceeds depth maxDepth = false
  ∧ t_parent n = parent
  ∧ nodeMap this !! t_id n = Some (t_data n)
  ∧ (t_id <$> t_children n)
    ≡ₚ filter (expandable this maxDepth ({[t_id n]} ∪ path) (depth + 1))
         (usesTargets this (t_id n))
  ∧ Forall (shaped this maxDepth ({[t_id n]} ∪ path) (depth + 1)
              (Some (t_id n))) (t_children n).
Proof.
  destruct n as [i d dp ex rex p children r m].
  cbn [shaped t_id t_depth t_parent t_data t_children].
  assert ((fix each (l : list TreeNode) : Prop :=
             match l with
             | [] => True
             | child :: rest =>
                 shaped this maxDepth ({[i]} ∪ path) (depth + 1) (Some i)
                   child ∧ each rest
             end) children
          ↔ Forall (shaped this maxDepth ({[i]} ∪ path) (depth + 1)
                      (Some i)) children) as ->; [|done].
  induction children as [|c l IH]; [split; intros _; constructor|].
  rewrite Forall_cons, IH. done.
Qed.

Lemma revisits_unfold path n c :
  revisits this maxDepth path n c ↔
  (c ∈ {[t_id n]} ∪ path
   ∧ exceeds (t_depth n + 1) maxDepth = false
   ∧ c ∈ usesTargets this (t_id n))
  ∨ Exists (fun child => revisits this maxDepth ({[t_id n]} ∪ path) child c)
      (t_children n).
Proof.
  destruct n as [i d dp ex rex p children r m].
  cbn [revisits t_id t_depth t_children].
  assert ((fix any (l : list TreeNode) : Prop :=
             match l with
             | [] => False
             | child :: rest =>
                 revisits this maxDepth ({[i]} ∪ path) child c ∨ any rest
             end) children
          ↔ Exists (fun child =>
                      revisits this maxDepth ({[i]} ∪ path) child c)
              children) as ->; [|done].
  induction children as [|x l IH]; [by rewrite Exists_nil|].
  by rewrite Exists_cons, IH.
Qed.
End Shape.

Lemma insert_slot {A} (l rest : list A) (p x : A) :
  <[length l := x]> ((l ++ [p]) ++ rest) = l ++ [x] ++ rest.
Proof.
  rewrite <- app_assoc. induction l as [|y l IH]; [done|].
  simpl. by f_equal.
Qed.

End TreeFacts.
Import TreeFacts.

Module BuildFacts.

Section Run.
Variable localeCompare : jsstring → jsstring → Z.
Variable this : TreeDataTransformer.
Variable maxDepth : DepthLimit.

Lemma filter_isUses_cons e (es : list Edge) :
  target <$> List.filter isUses (e :: es)
  = (if decide (type e = mnemonic_uses) then [target e] else [])
      ++ (target <$> List.filter isUses es).
Proof.
  cbn [List.filter]. unfold isUses at 1.
  destruct (decide (type e = mnemonic_uses)) as [He|He].
  - by rewrite bool_decide_eq_true_2.
  - by rewrite bool_decide_eq_false_2.
Qed.

Lemma childrenLoop_spec call depth parent edges children st children' st' :
  callSpec this maxDepth call depth parent →
  childrenLoop call edges children st = Some (children', st') →
  ∃ newKids newNodes newCirc,
    children' = children ++ newKids
    ∧ grows st st' newNodes newCirc
    ∧ Forall (shaped this maxDepth (visitedNodes st) depth parent) newKids
    ∧ t_id <$> newKids
      = filter (expandable this maxDepth (visitedNodes st) depth)
          (target <$> List.filter isUses edges)
    ∧ newNodes ≡ₚ newKids ≫= subtree
    ∧ Forall (depthWithin maxDepth depth) newNodes
    ∧ ∀ c, c ∈ newCirc ↔
           (c ∈ target <$> List.filter isUses edges
            ∧ c ∈ visitedNodes st
            ∧ exceeds depth maxDepth = false)
           ∨ Exists (fun k => revisits this maxDepth (visitedNodes st) k c)
               newKids.
Proof.
  intros Hcall. revert children st.
  induction edges as [|e edges IH]; intros children st; cbn [childrenLoop].
  - intros [= <- <-]. exists [], [], []. rewrite app_nil_r.
    split; [done|]. split; [by unfold grows; rewrite !app_nil_r|].
    split; [constructor|]. split; [done|]. split; [done|].
    split; [constructor|].
    intros c. split; [by intros ?%elem_of_nil|].
    intros [(H & _)|H];
      [by apply elem_of_nil in H | by apply Exists_nil in H].
  - rewrite filter_isUses_cons.
    destruct (decide (type e = mnemonic_uses)) as [He|He].
    + destruct (call (target e) st) as [[res st1]|] eqn:Hc; [|done].
      destruct (Hcall _ _ _ _ Hc) as (n1 & c1 & (Hv1 & Ha1 & Hc1) & Hres).
      destruct res as [n|].
      * destruct Hres as (Hid & Hexp & Hshape & Hperm & Hdepth & Hcirc).
        intros Hloop.
        destruct (IH _ _ Hloop)
          as (kids & n2 & c2 & -> & (Hv2 & Ha2 & Hc2) & HF & Hids & Hp2
              & Hd2 & Hcirc2).
        rewrite Hv1 in *.
        exists (n :: kids), (n1 ++ n2), (c1 ++ c2).
        split; [by rewrite <- app_assoc|]. split; [|split; [|split; [|split; [|split]]]].
        -- split; [done|]. rewrite Ha2, Ha1, Hc2, Hc1.
           by rewrite !app_assoc.
        -- by constructor.
        -- cbn [app]. rewrite fmap_cons, filter_cons, Hids, Hid.
           by rewrite decide_True.
        -- by rewrite bind_cons, Hperm, Hp2.
        -- by apply Forall_app.
        -- intros c. rewrite elem_of_app, Hcirc, Hcirc2, Exists_cons.
           cbn [app]. rewrite elem_of_cons. split.
           ++ intros [?|[(? & ? & ?)|?]]; auto.
           ++ intros [([->|?] & ? & ?)|[?|?]]; auto.
              exfalso. by destruct Hexp as (_ & ? & _).
      * destruct Hres as (-> & Hnexp & Hcirc).
        intros Hloop.
        destruct (IH _ _ Hloop)
          as (kids & n2 & c2 & -> & (Hv2 & Ha2 & Hc2) & HF & Hids & Hp2
              & Hd2 & Hcirc2).
        rewrite Hv1 in *.
        exists kids, n2, (c1 ++ c2).
        split; [done|]. split; [|split; [|split; [|split; [|split]]]].
        -- split; [done|]. rewrite Ha2, Ha1, Hc2, Hc1.
           by rewrite !app_assoc, app_nil_r.
        -- done.
        -- cbn [app]. rewrite filter_cons, Hids.
           by rewrite decide_False.
        -- done.
        -- done.
        -- intros c. rewrite elem_of_app, Hcirc, Hcirc2.
           cbn [app]. rewrite elem_of_cons. split.
           ++ intros [(-> & ? & ?)|[(? & ? & ?)|?]]; auto.
           ++ intros [([->|?] & ? & ?)|?]; auto.
    + cbn [app]. apply IH.
Qed.

Lemma buildTreeNode_spec fuel depth parent :
  callSpec this maxDepth
    (fun nodeId st =>
       buildTreeNode localeCompare this maxDepth fuel nodeId depth parent st)
    depth parent.
Proof.
  revert depth parent. induction fuel as [|fuel IH];
    intros depth parent nodeId st res st'; cbn [buildTreeNode]; [done|].
  destruct (exceeds depth maxDepth) eqn:Hex.
  { intros [= <- <-]. exists [], []. split.
    - by unfold grows; rewrite !app_nil_r.
    - split; [done|]. split.
      + intros (? & _). congruence.
      + intros c. split; [by intros ?%elem_of_nil|].
        intros (_ & _ & ?). congruence. }
  case_bool_decide as Hvis.
  { intros [= <- <-]. exists [], [nodeId]. split.
    - by unfold grows; cbn; rewrite !app_nil_r.
    - split; [done|]. split.
      + by intros (_ & ? & _).
      + intros c. rewrite list_elem_of_singleton. naive_solver. }
  destruct (nodeMap this !! nodeId) as [graphNode|] eqn:Hnode.
  2:{ intros [= <- <-]. exists [], []. split.
      - by unfold grows; rewrite !app_nil_r.
      - split; [done|]. split.
        + intros (_ & _ & [? ?]). congruence.
        + intros c. split; [by intros ?%elem_of_nil|].
          intros (_ & ? & _). done. }
  match goal with
  | |- context [childrenLoop ?call ?edges [] ?st1] =>
      destruct (childrenLoop call edges [] st1)
        as [[children st2]|] eqn:Hloop; [|done]
  end.
  intros [= <- <-].
  apply (childrenLoop_spec _ (depth + 1) (Some nodeId)) in Hloop;
    [|apply IH].
  destruct Hloop as (kids & n2 & c2 & -> & (Hv2 & Ha2 & Hc2) & HF & Hids
                     & Hp2 & Hd2 & Hcirc2).
  cbn [visitedNodes allTreeNodes circularReferences app] in *.
  eexists (_ :: n2), c2. split; [|split; [|split; [|split; [|split; [|split]]]]].
  - split; [|split]; cbn [visitedNodes allTreeNodes circularReferences].
    + rewrite Hv2. set_solver.
    + rewrite Ha2. apply insert_slot.
    + done.
  - done.
  - by repeat split.
  - apply shaped_unfold.
    cbn [t_id t_depth t_parent t_data t_children].
    repeat split; try done.
    + rewrite sortNodesByJLPTLevel_perm, Hids. done.
    + by rewrite sortNodesByJLPTLevel_perm.
  - rewrite subtree_unfold. cbn [t_children]. apply Permutation_skip.
    by rewrite sortNodesByJLPTLevel_perm, Hp2.
  - constructor.
    + split; cbn [t_depth]; [lia | done].
    + eapply Forall_impl; [exact Hd2|].
      intros n [? ?]. split; [lia | done].
  - intros c. rewrite Hcirc2, revisits_unfold.
    cbn [t_id t_depth t_children].
    rewrite sortNodesByJLPTLevel_perm. unfold usesTargets.
    naive_solver.
Qed.

(** The visited set is the descent path: a call leaves it as it
    found it. *)
Lemma buildTreeNode_visited fuel nodeId depth parent st res st' :
  buildTreeNode localeCompare this maxDepth fuel nodeId depth parent st
  = Some (res, st') →
  visitedNodes st' = visitedNodes st.
Proof.
  intros H. destruct (buildTreeNode_spec _ _ _ _ _ _ _ H)
    as (? & ? & (? & _) & _). done.
Qed.

Lemma childrenLoop_total call edges children st :
  (∀ nodeId st1 res st2,
     call nodeId st1 = Some (res, st2) →
     visitedNodes st2 = visitedNodes st1) →
  (∀ nodeId st1,
     visitedNodes st1 = visitedNodes st → is_Some (call nodeId st1)) →
  is_Some (childrenLoop call edges children st).
Proof.
  intros Hkeep Htotal.
  assert (∀ st1, visitedNodes st1 = visitedNodes st →
                 is_Some (childrenLoop call edges children st1)) as H;
    [|by apply H].
  revert children. induction edges as [|e edges IH];
    intros children st1 Hst1; cbn [childrenLoop]; [by eexists|].
  destruct (decide (type e = mnemonic_uses)); [|by apply IH].
  destruct (Htotal (target e) st1 Hst1) as [[res st2] Hc]. rewrite Hc.
  apply Hkeep in Hc. destruct res; apply IH; congruence.
Qed.

(** Fuel beyond the number of known ids off the path is never used
    up. *)
Lemma buildTreeNode_total fuel nodeId depth parent st :
  (size (dom (nodeMap this) ∖ visitedNodes st) < fuel)%nat →
  is_Some (buildTreeNode localeCompare this maxDepth fuel nodeId depth
             parent st).
Proof.
  revert nodeId depth parent st. induction fuel as [|fuel IH];
    intros nodeId depth parent st Hfuel; [lia|].
  cbn [buildTreeNode].
  destruct (exceeds depth maxDepth); [by eexists|].
  case_bool_decide as Hvis; [by eexists|].
  destruct (nodeMap this !! nodeId) as [graphNode|] eqn:Hnode;
    [|by eexists].
  match goal with
  | |- context [childrenLoop ?call ?edges [] ?st1] =>
      destruct (childrenLoop_total call edges [] st1)
        as [[children st2] ->]; [| |by eexists]
  end.
  - intros ? ? ? ?. apply buildTreeNode_visited.
  - intros target st1 Hst1. apply IH. rewrite Hst1.
    cbn [visitedNodes].
    assert (dom (nodeMap this) ∖ ({[nodeId]} ∪ visitedNodes st)
            ⊂ dom (nodeMap this) ∖ visitedNodes st) as Hsub.
    { assert (nodeId ∈ dom (nodeMap this)) as Hdom
        by (apply elem_of_dom; by eexists).
      split; [set_solver|]. intros Hsub.
      assert (nodeId ∈ dom (nodeMap this) ∖ visitedNodes st) as Hin
        by (by apply elem_of_difference).
      apply Hsub in Hin. set_solver. }
    apply subset_size in Hsub. lia.
Qed.
End Run.

End BuildFacts.
Import BuildFacts.

(** C2.  For every graph, root id and [maxDepth] (a
    number or Infinity), [buildKanjiComponentTree] terminates: the fuel
    it is given, one more than the number of known ids, is never used
    up, so it returns a tree or throws.  In the tree it returns no node
    lies deeper than [maxDepth] and no id occurs twice on a path from the
    root.  A call of [buildTreeNode] on an id that is on the current
    descent path, at a depth within [maxDepth], appends the id to
    [circularReferences], returns null and creates no node (at depth
    [maxDepth + 1] the depth test returns first and nothing is recorded).
    A call on a known id that is off the path, at a depth within
    [maxDepth], creates a fresh node whatever other branches have
    created, and leaves the visited set as it found it; accordingly every
    node has one child for each edge target that is off its own path, and
    [circularReferences] holds exactly the ids an edge leads back to on
    its own descent path. *)
Theorem component_tree_terminates_cycle_safe
    (localeCompare : jsstring → jsstring → Z) (this : TreeDataTransformer)
    (maxDepth : DepthLimit) (kanjiId : jsstring) :
  (∃ outcome,
     buildKanjiComponentTree localeCompare this maxDepth kanjiId
     = Some outcome
     ∧ ∀ r, outcome = Ok r →
            t_id (root r) = kanjiId
            ∧ shaped this maxDepth ∅ 0 None (root r)
            ∧ allNodes r ≡ₚ subtree (root r)
            ∧ Forall (depthWithin maxDepth 0) (allNodes r)
            ∧ ∀ c, c ∈ circularReferenceIds (treeMetadata r)
                   ↔ revisits this maxDepth ∅ (root r) c)
  ∧ (∀ fuel nodeId depth parent st,
       nodeId ∈ visitedNodes st → exceeds depth maxDepth = false →
       buildTreeNode localeCompare this maxDepth (S fuel) nodeId depth parent st
       = Some (None,
               {| visitedNodes := visitedNodes st;
                  circularReferences := circularReferences st ++ [nodeId];
                  allTreeNodes := allTreeNodes st |}))
  ∧ (∀ fuel depth parent,
       callSpec this maxDepth
         (fun nodeId st =>
            buildTreeNode localeCompare this maxDepth fuel nodeId depth parent st)
         depth parent)
  ∧ (∀ fuel nodeId depth parent st,
       (size (dom (nodeMap this) ∖ visitedNodes st) < fuel)%nat →
       is_Some (buildTreeNode localeCompare this maxDepth fuel nodeId depth
                  parent st)).
Proof.
  split; [|split; [|split]].
  - unfold buildKanjiComponentTree.
    destruct (nodeMap this !! kanjiId) as [rootNode|]; [|by eexists].
    destruct (decide (n_type rootNode = kanji_node)); [|by eexists].
    destruct (buildTreeNode_total localeCompare this maxDepth
                (enoughFuel this) kanjiId 0 None
                {| visitedNodes := ∅; circularReferences := [];
                   allTreeNodes := [] |}) as [[res st] Hrun].
    { cbn [visitedNodes]. unfold enoughFuel.
      rewrite difference_empty_L, size_dom. lia. }
    rewrite Hrun.
    destruct (buildTreeNode_spec _ _ _ _ _ _ _ _ _ _ Hrun)
      as (newNodes & newCirc & (_ & Hall & Hcirc) & Hres).
    cbn [visitedNodes allTreeNodes circularReferences app] in *.
    destruct res as [rootTree|]; [|by eexists].
    eexists. split; [done|]. intros r [= <-].
    cbn [root allNodes treeMetadata circularReferenceIds].
    destruct Hres as (? & _ & ? & ? & ? & ?). rewrite Hall, Hcirc. done.
  - intros fuel nodeId depth parent st Hvis Hex. cbn [buildTreeNode].
    by rewrite Hex, bool_decide_eq_true_2.
  - intros fuel depth parent. apply buildTreeNode_spec.
  - intros. by apply buildTreeNode_total.
Qed.

Lemma component_tree_witness :
  (∃ r, buildKanjiComponentTree codeUnitCompare
          (new_TreeDataTransformer diamond) (Finite 5) (lit "A")
        = Some (Ok r)
        ∧ circularReferenceIds (treeMetadata r) = []
        ∧ t_id <$> allNodes r
          = [lit "A"; lit "B"; lit "D"; lit "C"; lit "D"]
        ∧ shaped (new_TreeDataTransformer diamond) (Finite 5) ∅ 0 None
            (root r))
  ∧ (∃ r, buildKanjiComponentTree codeUnitCompare
            (new_TreeDataTransformer selfLoop) (Finite 5) (lit "A")
          = Some (Ok r)
          ∧ circularReferenceIds (treeMetadata r) = [lit "A"]
          ∧ t_id <$> allNodes r = [lit "A"]
          ∧ ∀ c, c ∈ circularReferenceIds (treeMetadata r)
                 ↔ revisits (new_TreeDataTransformer selfLoop) (Finite 5) ∅
                     (root r) c).
Proof.
  split.
  - eexists. split; [vm_compute; reflexivity|].
    split; [by vm_compute|]. split; [by vm_compute|].
    destruct (component_tree_terminates_cycle_safe codeUnitCompare
                (new_TreeDataTransformer diamond) (Finite 5) (lit "A"))
      as [(outcome & Hrun & Hprops) _].
    vm_compute in Hrun. injection Hrun as <-.
    by apply Hprops.
  - eexists. split; [vm_compute; reflexivity|].
    split; [by vm_compute|]. split; [by vm_compute|].
    destruct (component_tree_terminates_cycle_safe codeUnitCompare
                (new_TreeDataTransformer selfLoop) (Finite 5) (lit "A"))
      as [(outcome & Hrun & Hprops) _].
    vm_compute in Hrun. injection Hrun as <-.
    by apply Hprops.
Defined.

(** A kanji whose story names itself, built with [maxDepth] 0: the edge
    leads back to the id on the descent path, yet the call on it is made
    at depth 1, the depth test returns first and the id is not
    recorded. *)
Lemma revisit_beyond_maxDepth_unrecorded :
  let this := new_TreeDataTransformer selfLoop in
  let onPath :=
    {| visitedNodes := {[lit "A"]}; circularReferences := [];
       allTreeNodes := [] |} in
  lit "A" ∈ usesTargets this (lit "A")
  ∧ (∃ r, buildKanjiComponentTree codeUnitCompare this (Finite 0) (lit "A")
          = Some (Ok r)
          ∧ circularReferenceIds (treeMetadata r) = [])
  ∧ lit "A" ∈ visitedNodes onPath
  ∧ buildTreeNode codeUnitCompare this (Finite 0) 1 (lit "A") 1
      (Some (lit "A")) onPath
    = Some (None, onPath).
Proof.
  intros this onPath. split; [vm_compute; left|].
  split; [eexists; split; [vm_compute; reflexivity | by vm_compute]|].
  split; [unfold onPath; cbn [visitedNodes]; by apply elem_of_singleton|].
  reflexivity.
Qed.

(** ** Reading a CSV row *)

Module CsvFacts.

Lemma split_nonempty sep s : split sep s ≠ [].
Proof.
  destruct s as [|c s]; simpl; [done|].
  destruct (c =? sep)%N; [done|]. by destruct (split sep s).
Qed.

Lemma parseCSVLine_loop_unquoted line current result :
  quote ∉ line →
  parseCSVLine_loop line current false result =
    result ++ (trim <$> match split comma line with
                        | h :: t => (current ++ h) :: t
                        | [] => [current]
                        end).
Proof.
  revert current result.
  induction line as [|c line IH]; intros current result Hq; simpl.
  - by rewrite app_nil_r.
  - apply not_elem_of_cons in Hq as [Hc Hq].
    destruct (c =? quote)%N eqn:Eq; [apply N.eqb_eq in Eq; congruence|].
    destruct (c =? comma)%N eqn:Ec; simpl.
    + rewrite IH by done. rewrite app_nil_r, <- app_assoc. simpl.
      pose proof (split_nonempty comma line).
      by destruct (split comma line).
    + rewrite IH by done. pose proof (split_nonempty comma line).
      destruct (split comma line); [done|]. simpl.
      by rewrite <- app_assoc.
Qed.

(** A field with neither quote nor comma is read up to what follows
    it. *)
Lemma parseCSVLine_loop_plain s rest current result :
  quote ∉ s → comma ∉ s →
  parseCSVLine_loop (s ++ rest) current false result =
    parseCSVLine_loop rest (current ++ s) false result.
Proof.
  revert current. induction s as [|c s IH]; intros current Hq Hc; simpl.
  - by rewrite app_nil_r.
  - apply not_elem_of_cons in Hq as [Hq1 Hq]. apply not_elem_of_cons in Hc as [Hc1 Hc].
    destruct (c =? quote)%N eqn:Eq; [apply N.eqb_eq in Eq; congruence|].
    destruct (c =? comma)%N eqn:Ec; [apply N.eqb_eq in Ec; congruence|].
    simpl. rewrite IH by done. by rewrite <- app_assoc.
Qed.

(** Inside quotes, up to the closing quote. *)
Lemma parseCSVLine_loop_inside s rest current result :
  (rest = [] ∨ ∃ rest', rest = comma :: rest') →
  parseCSVLine_loop
    ((s ≫= fun c => if (c =? quote)%N then [quote; quote] else [c])
       ++ quote :: rest) current true result =
    parseCSVLine_loop rest (current ++ s) false result.
Proof.
  intros Hrest. revert current.
  induction s as [|c s IH]; intros current.
  - rewrite app_nil_r. destruct Hrest as [->|[rest' ->]]; reflexivity.
  - rewrite bind_cons.
    destruct (c =? quote)%N eqn:Eq.
    + apply N.eqb_eq in Eq as ->. cbn [app parseCSVLine_loop].
      change (quote =? quote)%N with true. cbn [andb].
      rewrite IH. by rewrite <- app_assoc.
    + cbn [app parseCSVLine_loop]. rewrite Eq.
      replace ((c =? comma)%N && negb true) with false
        by (by destruct (c =? comma)%N).
      rewrite IH. by rewrite <- app_assoc.
Qed.

Lemma parseCSVLine_loop_open l current result :
  parseCSVLine_loop (quote :: l) current false result =
    parseCSVLine_loop l current true result.
Proof. by destruct l. Qed.

Lemma parseCSVLine_loop_field s rest current result :
  (rest = [] ∨ ∃ rest', rest = comma :: rest') →
  parseCSVLine_loop (csvField s ++ rest) current false result =
    parseCSVLine_loop rest (current ++ s) false result.
Proof.
  intros Hrest. unfold csvField. case_bool_decide as Hq.
  - unfold csvQuote. rewrite <- !app_assoc.
    change ([quote] ++ ?l) with (quote :: l).
    rewrite parseCSVLine_loop_open.
    by apply parseCSVLine_loop_inside.
  - apply parseCSVLine_loop_plain; tauto.
Qed.

Lemma parseCSVLine_loop_row fields result :
  fields ≠ [] →
  parseCSVLine_loop (csvRow fields) [] false result =
    result ++ (trim <$> fields).
Proof.
  unfold csvRow. revert result.
  induction fields as [|f fields IH]; intros result Hne; [done|].
  destruct fields as [|g fields].
  - cbn [fmap list_fmap join].
    rewrite <- (app_nil_r (csvField f)).
    rewrite parseCSVLine_loop_field by by left. done.
  - change (join [comma] (csvField <$> f :: g :: fields))
      with (csvField f ++ comma :: join [comma] (csvField <$> g :: fields)).
    rewrite parseCSVLine_loop_field by (right; eauto).
    cbn [parseCSVLine_loop app]. change (comma =? quote)%N with false.
    change (comma =? comma)%N with true. cbn [andb negb].
    rewrite IH by done. by rewrite <- app_assoc.
Qed.

End CsvFacts.

(** X1.  A line with no double quote is cut at its commas, each piece
    trimmed. *)
Theorem parseCSVLine_unquoted line :
  quote ∉ line →
  parseCSVLine line = trim <$> split comma line.
Proof.
  intros Hq. unfold parseCSVLine.
  rewrite CsvFacts.parseCSVLine_loop_unquoted by done.
  pose proof (CsvFacts.split_nonempty comma line).
  by destruct (split comma line).
Qed.

Lemma parseCSVLine_unquoted_witness :
  parseCSVLine (lit "a, b ,c") = [lit "a"; lit "b"; lit "c"].
Proof.
  rewrite (parseCSVLine_unquoted (lit "a, b ,c")); [reflexivity|].
  vm_compute. intros H. repeat (apply elem_of_cons in H as [H|H]; [done|]).
  by apply elem_of_nil in H.
Defined.

(** X2.  A row written field by field, with the fields holding quotes
    or commas put between quotes and their quotes doubled, is read back
    as the fields, trimmed. *)
Theorem parseCSVLine_csvRow fields :
  fields ≠ [] →
  parseCSVLine (csvRow fields) = trim <$> fields.
Proof.
  intros Hne. unfold parseCSVLine.
  by rewrite CsvFacts.parseCSVLine_loop_row.
Qed.

Lemma parseCSVLine_csvRow_witness :
  parseCSVLine (csvRow [lit "a,b"; [quote]; lit " c "])
    = [lit "a,b"; [quote]; lit "c"].
Proof.
  rewrite (parseCSVLine_csvRow [lit "a,b"; [quote]; lit " c "]) by done.
  reflexivity.
Defined.
(** ** The parsed files *)

Module FileFacts.

Lemma parseCSVLine_loop_trimmed n line current inQuotes result :
  (length line ≤ n)%nat →
  Forall (fun f => trim f = f) result →
  Forall (fun f => trim f = f)
    (parseCSVLine_loop line current inQuotes result)
  ∧ (length result
       < length (parseCSVLine_loop line current inQuotes result))%nat.
Proof.
  revert line current inQuotes result.
  induction n as [|n IH]; intros line current inQuotes result Hn Hres;
    (destruct line as [|c line]; cbn [parseCSVLine_loop];
     [ split;
       [ apply Forall_app; split; [done|];
         constructor; [apply ParserFacts.trim_idemp | constructor]
       | rewrite length_app; simpl; lia ]
     | simpl in Hn; try lia ]).
  assert (∀ current' result',
    Forall (fun f => trim f = f) result' →
    (length result ≤ length result')%nat →
    Forall (fun f => trim f = f)
      (parseCSVLine_loop line current' inQuotes result')
    ∧ (length result
       < length (parseCSVLine_loop line current' inQuotes result'))%nat)
    as Hsame.
  { intros current' result' ? ?.
    destruct (IH line current' inQuotes result') as [? ?]; [lia|done|].
    split; [done|lia]. }
  destruct (c =? quote)%N.
  - destruct line as [|n' line'].
    + by apply IH; [simpl; lia|].
    + destruct (inQuotes && (n' =? quote)%N).
      * apply IH; [simpl in *; lia | done].
      * apply IH; [simpl in *; lia | done].
  - destruct ((c =? comma)%N && negb inQuotes).
    + apply Hsame; [|rewrite length_app; simpl; lia].
      apply Forall_app; split; [done|].
      constructor; [apply ParserFacts.trim_idemp | constructor].
    + by apply Hsame.
Qed.

(** Every line has a first field, and every field is trimmed. *)
Lemma parseCSVLine_fields line :
  ∃ f fs, parseCSVLine line = f :: fs
          ∧ Forall (fun f => trim f = f) (f :: fs).
Proof.
  unfold parseCSVLine.
  destruct (parseCSVLine_loop_trimmed (length line) line [] false [])
    as [Htrim Hlen]; [done|constructor|].
  destruct (parseCSVLine_loop line [] false []) as [|f fs];
    [simpl in Hlen; lia|]. eauto.
Qed.

Lemma parsePrimitiveRow_spec toLowerCase line lineNumber :
  parsePrimitiveRow toLowerCase line lineNumber =
    if decide (pathMissing line)
    then Throw (RTKParseError
                  (lit "Missing oldPath at line "
                     ++ Number_toString lineNumber) (Some lineNumber))
    else Ok (primitiveRowRecord toLowerCase line).
Proof.
  destruct (parseCSVLine_fields line) as (f & fs & Hline & Htrim).
  destruct (decide (pathMissing line)) as [Hm|Hm];
    unfold pathMissing in Hm;
    unfold parsePrimitiveRow, primitiveRowRecord, validatePrimitiveData,
      fieldBeyond, field;
    rewrite Hline in *;
    cbn [length Nat.ltb Nat.leb head lookup list_lookup default oldPath];
    apply Forall_cons in Htrim as [Hf Hfs]; unfold id; rewrite !Hf.
  - injection Hm as ->. done.
  - assert (∀ i, fs !! i ≫= (fun f => or_undefined (trim f))
                 = fs !! i ≫= or_undefined) as ->.
    { intros i. destruct (fs !! i) as [g|] eqn:Hg; [|done]. simpl.
      by rewrite (proj1 (Forall_lookup _ _) Hfs i g Hg). }
    assert (∀ i, fs !! i ≫= (fun f => if truthy (trim f)
                               then Some (parseBoolean toLowerCase f)
                               else None)
                 = fs !! i ≫= (fun f => if truthy f
                                 then Some (parseBoolean toLowerCase f)
                                 else None)) as ->.
    { intros i. destruct (fs !! i) as [g|] eqn:Hg; [|done]. simpl.
      by rewrite (proj1 (Forall_lookup _ _) Hfs i g Hg). }
    destruct f as [|c f]; [done|]. simpl in Hm. done.
Qed.

Lemma parsePrimitiveRows_spec toLowerCase rows i acc :
  parsePrimitiveRows toLowerCase rows i acc =
    match list_find pathMissing rows with
    | Some (k, _) =>
        Throw (RTKParseError
                 (lit "Missing oldPath at line "
                    ++ Number_toString (i + Z.of_nat k + 1))
                 (Some (i + Z.of_nat k + 1)))
    | None => Ok (acc ++ (primitiveRowRecord toLowerCase <$> rows))
    end.
Proof.
  revert i acc. induction rows as [|line rows IH]; intros i acc; simpl.
  - by rewrite app_nil_r.
  - rewrite parsePrimitiveRow_spec.
    destruct (decide (pathMissing line)) as [Hrej|Hrej]; simpl.
    + by replace (i + Z.of_nat 0 + 1) with (i + 1) by lia.
    + change (parsePrimitiveRows toLowerCase rows (i + 1)
                ([] ++ acc ++ [primitiveRowRecord toLowerCase line]))
        with (parsePrimitiveRows toLowerCase rows (i + 1)
                (acc ++ [primitiveRowRecord toLowerCase line])).
      rewrite IH. destruct (list_find pathMissing rows) as [[k l]|]; simpl.
      * by replace (i + 1 + Z.of_nat k + 1) with (i + Z.of_nat (S k) + 1)
          by lia.
      * by rewrite <- app_assoc.
Qed.

Lemma parseKanjiCSV_throws toLowerCase csv e :
  parseKanjiCSV toLowerCase csv = Throw e → ∃ m l, e = RTKParseError m l.
Proof.
  unfold parseKanjiCSV. destruct (csvLines csv) as [|l ls] eqn:E.
  - intros [= <-]. eauto.
  - rewrite ParserFacts.parseKanjiRows_spec.
    destruct (list_find _ _) as [[k x]|]; [|done]. intros [= <-]. eauto.
Qed.

Lemma parsePrimitivesCSV_throws toLowerCase csv e :
  parsePrimitivesCSV toLowerCase csv = Throw e →
  ∃ m l, e = RTKParseError m l.
Proof.
  unfold parsePrimitivesCSV. destruct (csvLines csv) as [|l ls] eqn:E.
  - intros [= <-]. eauto.
  - rewrite parsePrimitiveRows_spec.
    destruct (list_find _ _) as [[k x]|]; [|done]. intros [= <-]. eauto.
Qed.

End FileFacts.

(** X3.  Every record that [parseKanjiCSV] returns has a character and
    at least one keyword, and there is at most one record for each
    non-blank line. *)
Theorem parseKanjiCSV_records_valid toLowerCase csv records :
  parseKanjiCSV toLowerCase csv = Ok records →
  Forall (fun r => kanji r ≠ []
                   ∧ (keyword5th r ≠ [] ∨ keyword6th r ≠ [])
                   ∧ trim (kanji r) = kanji r) records
  ∧ (length records ≤ length (csvLines csv))%nat.
Proof.
  unfold parseKanjiCSV. destruct (csvLines csv) as [|l ls] eqn:E; [done|].
  rewrite ParserFacts.parseKanjiRows_spec.
  destruct (list_find _ _) as [[k x]|] eqn:Hfind; [done|].
  intros [= <-]. apply list_find_None in Hfind. split.
  - simpl. apply Forall_fmap. eapply Forall_impl; [exact Hfind|].
    intros line Hrej. unfold rowRejected in Hrej. simpl.
    split; [tauto|]. split.
    + destruct (decide (trim (field (rowFields line) 3) = [])); [|tauto].
      right. tauto.
    + apply ParserFacts.trim_idemp.
  - simpl. rewrite length_fmap, length_drop. simpl. lia.
Qed.

Lemma parseKanjiCSV_records_valid_witness :
  ∃ records,
    parseKanjiCSV asciiLowerCase completeCSV = Ok records
    ∧ length records = 2%nat
    ∧ Forall (fun r => kanji r ≠ []
                       ∧ (keyword5th r ≠ [] ∨ keyword6th r ≠ [])
                       ∧ trim (kanji r) = kanji r) records.
Proof.
  destruct (parseKanjiCSV asciiLowerCase completeCSV) as [records|e] eqn:E;
    [|vm_compute in E; discriminate].
  exists records. split; [done|]. split.
  - vm_compute in E. by injection E as <-.
  - exact (proj1 (parseKanjiCSV_records_valid asciiLowerCase completeCSV
                    records E)).
Defined.

(** X4.  [parsePrimitivesCSV] fails on a file without a non-blank
    line; otherwise, leaving out a first line that holds "old_path",
    it fails at the first row whose first field is empty, with the
    number of that row among the non-blank lines, and else returns one
    record for each row, in order.  Its "Insufficient fields" error
    never occurs. *)
Theorem parsePrimitivesCSV_spec toLowerCase csv :
  parsePrimitivesCSV toLowerCase csv =
    match csvLines csv with
    | [] => Throw (RTKParseError (lit "CSV file is empty") None)
    | lines =>
        let start := primitivesStartIndex toLowerCase lines in
        match list_find pathMissing (drop start lines) with
        | Some (k, _) =>
            Throw (RTKParseError
                     (lit "Missing oldPath at line "
                        ++ Number_toString (Z.of_nat (start + k + 1)))
                     (Some (Z.of_nat (start + k + 1))))
        | None =>
            Ok (primitiveRowRecord toLowerCase <$> drop start lines)
        end
    end.
Proof.
  unfold parsePrimitivesCSV. destruct (csvLines csv) as [|l ls]; [done|].
  rewrite FileFacts.parsePrimitiveRows_spec. cbv zeta.
  destruct (list_find _ _) as [[k x]|]; [|done].
  by replace (Z.of_nat (primitivesStartIndex toLowerCase (l :: ls))
                + Z.of_nat k + 1)
    with (Z.of_nat (primitivesStartIndex toLowerCase (l :: ls) + k + 1))
    by lia.
Qed.

(** X5.  [parseAllCSV] reports the error of the kanji file first, then
    that of the primitives file, each one unchanged; the wrapping of
    other errors in "Failed to parse CSV data" never happens. *)
Theorem parseAllCSV_spec toLowerCase kanjiCSV primitivesCSV :
  parseAllCSV toLowerCase kanjiCSV primitivesCSV =
    match parseKanjiCSV toLowerCase kanjiCSV with
    | Throw e => Throw e
    | Ok kanji =>
        match parsePrimitivesCSV toLowerCase primitivesCSV with
        | Throw e => Throw e
        | Ok primitives => Ok (kanji, primitives)
        end
    end.
Proof.
  unfold parseAllCSV.
  destruct (parseKanjiCSV toLowerCase kanjiCSV) as [ks|e] eqn:Ek; simpl.
  - destruct (parsePrimitivesCSV toLowerCase primitivesCSV) as [ps|e]
      eqn:Ep; simpl; [done|].
    by destruct (FileFacts.parsePrimitivesCSV_throws _ _ _ Ep)
      as (m & l & ->).
  - by destruct (FileFacts.parseKanjiCSV_throws _ _ _ Ek) as (m & l & ->).
Qed.

(** ** Numbers in a field *)

Module NumberFacts.

Lemma trim_fixed s :
  Forall (fun c => isWhiteSpace c = false) s → trim s = s.
Proof.
  intros Hs. unfold trim, trimEnd.
  rewrite (ParserFacts.trimStart_fixed s)
    by (destruct Hs; [done | by simpl]).
  rewrite ParserFacts.trimStart_fixed; [apply reverse_involutive|].
  apply Forall_reverse in Hs. destruct Hs; [done | by simpl].
Qed.

Lemma digits_noWhiteSpace d :
  Forall (fun c => isWhiteSpace c = false) (digits d).
Proof. induction d; constructor; done. Qed.

Lemma parseDigits_acc d a :
  parseDigits (digits d) (Some (Z.pos a))
    = Some (Z.pos (Pos.of_uint_acc d a)).
Proof.
  revert a. induction d as [|d IH|d IH|d IH|d IH|d IH|d IH|d IH|d IH|d IH|d IH];
    intros a; [done|..];
    (etransitivity; [|apply IH]);
    (match goal with
     | |- parseDigits (digits (?D d)) _ = parseDigits _ ?acc =>
         change (parseDigits (digits (D d)) (Some (Z.pos a)))
           with (parseDigits (digits d)
                   (Some (10 * Z.pos a
                          + (Z.of_N (N_of_ascii
                               (match NilEmpty.string_of_uint (D Decimal.Nil)
                                with String c _ => c | _ => "0"%char end))
                             - 48))))
     end);
    f_equal; f_equal; cbn; lia.
Qed.

Lemma parseDigits_zero d :
  parseDigits (digits d) (Some 0) = Some (Z.of_N (Pos.of_uint d)).
Proof.
  induction d as [|d IH|d IH|d IH|d IH|d IH|d IH|d IH|d IH|d IH|d IH];
    [done | exact IH | ..];
    (etransitivity; [|cbn [Pos.of_uint Z.of_N]; apply parseDigits_acc]);
    reflexivity.
Qed.

Lemma parseDigits_none d :
  d ≠ Decimal.Nil →
  parseDigits (digits d) None = Some (Z.of_N (Pos.of_uint d)).
Proof.
  intros Hd. rewrite <- parseDigits_zero. by destruct d.
Qed.

Lemma to_uint_not_Nil p : Pos.to_uint p ≠ Decimal.Nil.
Proof.
  intros H. pose proof (DecimalPos.Unsigned.of_to p) as Hp.
  by rewrite H in Hp.
Qed.

Lemma parseInt10_digits d :
  d ≠ Decimal.Nil →
  parseInt10 (digits d) = Some (Z.of_N (Pos.of_uint d)).
Proof.
  intros Hd. rewrite <- parseDigits_none by done.
  unfold parseInt10.
  rewrite ParserFacts.trimStart_fixed
    by (destruct (digits_noWhiteSpace d); [done | by simpl]).
  by destruct d.
Qed.

Lemma digits_not_word d w :
  d ≠ Decimal.Nil → head w = Some 78%N ∨ head w = Some 110%N →
  digits d ≠ w.
Proof.
  intros Hd Hw Heq. subst w. destruct d; try done;
    destruct Hw as [Hw|Hw]; discriminate Hw.
Qed.

Lemma parseOptionalNumber_digits d :
  d ≠ Decimal.Nil →
  parseOptionalNumber (digits d) = Some (Z.of_N (Pos.of_uint d)).
Proof.
  intros Hd. unfold parseOptionalNumber. cbv zeta.
  rewrite (trim_fixed (digits d)) by apply digits_noWhiteSpace.
  rewrite (bool_decide_eq_false_2 (digits d = lit "NULL"))
    by (apply digits_not_word; [done | by left]).
  rewrite (bool_decide_eq_false_2 (digits d = lit "null"))
    by (apply digits_not_word; [done | by right]).
  replace (truthy (digits d)) with true by (by destruct d).
  by apply parseInt10_digits.
Qed.

Lemma parseOptionalNumber_minus d :
  d ≠ Decimal.Nil →
  parseOptionalNumber (45%N :: digits d)
    = Some (- Z.of_N (Pos.of_uint d)).
Proof.
  intros Hd. unfold parseOptionalNumber. cbv zeta.
  rewrite (trim_fixed (45%N :: digits d))
    by (constructor; [done | apply digits_noWhiteSpace]).
  rewrite (bool_decide_eq_false_2 (45%N :: digits d = lit "NULL")) by done.
  rewrite (bool_decide_eq_false_2 (45%N :: digits d = lit "null")) by done.
  cbn [truthy negb orb]. unfold parseInt10. cbn [trimStart].
  change (isWhiteSpace 45) with false. cbv iota.
  by rewrite parseDigits_none.
Qed.

End NumberFacts.

(** X6.  [parseOptionalNumber] reads the decimal rendering of an
    integer back as that integer, for the integers that a number holds
    exactly (below 2^53 in absolute value), which are rendered in plain
    decimal and read without rounding. *)
Theorem parseOptionalNumber_toString (z : Z) :
  - 2 ^ 53 < z < 2 ^ 53 →
  parseOptionalNumber (Number_toString z) = Some z.
Proof.
  intros _. destruct z as [|p|p].
  - reflexivity.
  - unfold Number_toString. cbn [Z.to_int NilZero.string_of_int].
    pose proof (NumberFacts.to_uint_not_Nil p) as Hp.
    replace (lit (NilZero.string_of_uint (Pos.to_uint p)))
      with (digits (Pos.to_uint p))
      by (unfold digits; by destruct (Pos.to_uint p)).
    rewrite NumberFacts.parseOptionalNumber_digits by done.
    by rewrite DecimalPos.Unsigned.of_to.
  - unfold Number_toString. cbn [Z.to_int NilZero.string_of_int].
    pose proof (NumberFacts.to_uint_not_Nil p) as Hp.
    replace (lit (String "-" (NilZero.string_of_uint (Pos.to_uint p))))
      with (45%N :: digits (Pos.to_uint p))
      by (unfold digits; by destruct (Pos.to_uint p)).
    rewrite NumberFacts.parseOptionalNumber_minus by done.
    by rewrite DecimalPos.Unsigned.of_to.
Qed.

Lemma parseOptionalNumber_toString_witness :
  parseOptionalNumber (Number_toString (-2048)) = Some (-2048).
Proof.
  apply (parseOptionalNumber_toString (-2048)). lia.
Defined.

(** ** The built graph as a whole *)

Module ClosureFacts.

Lemma orElse_Some {A} (a b : option A) x :
  orElse a b = Some x → a = Some x ∨ b = Some x.
Proof. destruct a; simpl; auto. Qed.

Lemma Map_get_value {V} (m : Map V) k v :
  Map_get m k = Some v → v ∈ Map_values m.
Proof.
  intros H%Map_get_elem. unfold Map_values.
  apply list_elem_of_fmap. by exists (k, v).
Qed.

Lemma find_elem {A} (f : A → bool) l x :
  List.find f l = Some x → x ∈ l ∧ f x = true.
Proof.
  intros [? ?]%find_some. split; [by apply list_elem_of_In | done].
Qed.

Lemma searchByKeyword_elem kn pn keyword node :
  searchByKeyword kn pn keyword = Some node →
  node ∈ Map_values kn ∨ node ∈ Map_values pn.
Proof.
  unfold searchByKeyword.
  destruct (shouldPreferKanji keyword);
    intros [H|H]%orElse_Some; apply find_elem in H as [? _]; auto.
Qed.

Lemma exactCharacterMatch_elem kn pn keyword node :
  exactCharacterMatch kn pn keyword = Some node →
  node ∈ Map_values kn ∨ node ∈ Map_values pn.
Proof.
  unfold exactCharacterMatch.
  destruct (Map_get kn _) as [k|] eqn:Ek.
  - destruct (isComplexKanjiExcluded keyword); simpl.
    + intros H. right. by eapply Map_get_value.
    + intros [= <-]. left. by eapply Map_get_value.
  - intros H. right. by eapply Map_get_value.
Qed.

(** A keyword resolves to a node of one of the two maps. *)
Lemma referencedNode_elem kn pn keyword node :
  referencedNode kn pn keyword = Ok (Some node) →
  node ∈ Map_values kn ∨ node ∈ Map_values pn.
Proof.
  unfold referencedNode.
  destruct (mappedNode kn pn keyword) as [[mapped|]|] eqn:Em; simpl;
    [| |done].
  - intros [= <-]. unfold mappedNode in Em.
    destruct (resolveComponentKeyword keyword) as [|c|]; [done| |done].
    destruct (truthy c); [|done]. injection Em as Em.
    apply orElse_Some in Em as [H|H]; apply Map_get_value in H; auto.
  - intros [= [H|H]%orElse_Some].
    + by eapply searchByKeyword_elem.
    + by eapply exactCharacterMatch_elem.
Qed.

(** The shape of a graph that was built. *)
Lemma buildGraph_shape kd pd jlpt now warnings g :
  buildGraph (Some kd) (Some pd) jlpt now = (warnings, Ok g) →
  nodes g = Map_values (kanjiNodesOf kd jlpt)
            ++ Map_values (primitiveNodesOf pd)
  ∧ metadata g = {| totalKanji := Map_size (kanjiNodesOf kd jlpt);
                    totalPrimitives := Map_size (primitiveNodesOf pd);
                    totalEdges := Z.of_nat (length (edges g));
                    buildTimestamp := now |}
  ∧ ∃ pairs,
      edges g = pairedEdges pairs
      ∧ ∀ p, p ∈ pairs →
             ∃ r, r ∈ kd ∧ p.1 = recordId r
                  ∧ linked (kanjiNodesOf kd jlpt) (primitiveNodesOf pd) r p.2.
Proof.
  intros Hbuild.
  destruct (buildGraph_Ok _ _ _ _ _ _ Hbuild) as (acc & Hloop & _ & ->).
  cbn [nodes edges metadata]. split; [done|]. split; [done|].
  unfold createMnemonicEdges in Hloop.
  destruct (kanjiLoop_spec _ _ _ _ _ Hloop) as (tss & HF & He & _).
  cbn [acc_edges app] in He. exists (recordPairs kd tss). split; [done|].
  intros p Hp.
  destruct (elem_of_recordPairs kd tss p HF Hp)
    as (r & ts & t & Hr & [_ Hlinked] & Ht & ->).
  exists r. simpl. auto.
Qed.

Lemma kanji_node_of kd jlpt r :
  r ∈ kd →
  ∃ n, n ∈ Map_values (kanjiNodesOf kd jlpt)
       ∧ n_id n = recordId r ∧ n_type n = kanji_node.
Proof.
  intros Hr. destruct (kanji_in_map kd jlpt r Hr) as [n Hn].
  destruct (kanjiNodesOf_facts kd jlpt) as (Hkeyed & _ & _ & Hfrom).
  pose proof (Map_get_elem _ _ _ Hn) as Hin.
  exists n. split; [by eapply Map_get_value|]. split.
  - unfold keyed in Hkeyed.
    symmetry. exact (proj1 (Forall_forall _ _) Hkeyed _ Hin).
  - destruct (Hfrom n) as (r' & _ & ->); [by eapply Map_get_value | done].
Qed.

End ClosureFacts.

(** X7.  In a graph that [buildGraph] returns no edge dangles: the
    source and the target of every edge are ids of nodes of the graph,
    and the source of a [mnemonic_uses] edge is the id of a kanji
    node. *)
Theorem buildGraph_edges_closed
    (kanjiData : option (list KanjiData))
    (primitivesData : option (list PrimitiveData))
    (jlpt : option (jsstring → option JLPTLevel)) (now : Z)
    (warnings : list jsstring) (g : Graph) :
  buildGraph kanjiData primitivesData jlpt now = (warnings, Ok g) →
  ∀ e, e ∈ edges g →
    source e ∈ n_id <$> nodes g
    ∧ target e ∈ n_id <$> nodes g
    ∧ (type e = mnemonic_uses →
       ∃ n, n ∈ nodes g ∧ n_id n = source e ∧ n_type n = kanji_node).
Proof.
  destruct kanjiData as [kd|], primitivesData as [pd|]; try done.
  intros Hbuild e He.
  destruct (ClosureFacts.buildGraph_shape _ _ _ _ _ _ Hbuild)
    as (Hnodes & _ & pairs & Hedges & Hpairs).
  rewrite Hedges in He. apply elem_of_pairedEdges in He as (p & Hp & He).
  destruct (Hpairs p Hp) as (r & Hr & Hsrc & kw & node & _ & Href & Hid).
  destruct (ClosureFacts.kanji_node_of kd jlpt r Hr) as (n & Hn & Hnid & Hty).
  assert (p.1 ∈ n_id <$> nodes g) as H1.
  { apply list_elem_of_fmap. exists n. rewrite Hnodes, Hsrc.
    split; [done|]. apply elem_of_app. by left. }
  assert (p.2 ∈ n_id <$> nodes g) as H2.
  { apply list_elem_of_fmap. exists node. rewrite Hnodes.
    split; [done|]. apply elem_of_app.
    by apply ClosureFacts.referencedNode_elem in Href. }
  destruct He as [->| ->]; simpl; (split; [done|]); (split; [done|]);
    [|done].
  intros _. exists n. rewrite Hnodes, Hsrc.
  split; [apply elem_of_app; by left | done].
Qed.

Lemma buildGraph_edges_closed_witness :
  ∃ g, buildGraph (Some [bright; day; month]) (Some []) None 0 = ([], Ok g)
       ∧ Forall (fun e => source e ∈ n_id <$> nodes g
                          ∧ target e ∈ n_id <$> nodes g) (edges g).
Proof.
  eexists. split; [vm_compute; reflexivity|].
  apply Forall_forall. intros e He.
  destruct (buildGraph_edges_closed (Some [bright; day; month]) (Some [])
              None 0 [] _ eq_refl e He) as (? & ? & _).
  done.
Defined.

(** ** When the builder fails *)

Module FailureFacts.

Lemma inherited_not_mapped keyword :
  inheritedKey keyword = true →
  Map_get KEYWORD_TO_CHARACTER_MAPPINGS keyword = None.
Proof.
  unfold inheritedKey. intros H%bool_decide_eq_true.
  unfold Object_prototype_keys in H.
  repeat (apply elem_of_cons in H as [->|H]; [by vm_compute|]).
  by apply elem_of_nil in H.
Qed.

Lemma referencedNode_inherited kn pn keyword :
  inheritedKey keyword = true →
  referencedNode kn pn keyword = Throw notAFunction.
Proof.
  intros H. unfold referencedNode, mappedNode, resolveComponentKeyword.
  by rewrite (inherited_not_mapped keyword H), H.
Qed.

Lemma keywordLoop_inherited kn pn kid kws created acc keyword :
  keyword ∈ kws → inheritedKey keyword = true →
  keywordLoop kn pn kid kws created acc = Throw notAFunction.
Proof.
  revert created acc.
  induction kws as [|kw kws IH]; intros created acc Hin Hk;
    [by apply elem_of_nil in Hin|].
  cbn [keywordLoop].
  destruct (inheritedKey kw) eqn:Ekw.
  - by rewrite referencedNode_inherited.
  - apply elem_of_cons in Hin as [->|Hin]; [congruence|].
    destruct (referencedNode_total kn pn kw Ekw) as [r ->]. simpl.
    destruct r as [node|]; [case_bool_decide|]; by apply IH.
Qed.

Lemma kanjiLoop_inherited kn pn kd acc r keyword :
  (∀ r, r ∈ kd → is_Some (Map_get kn (recordId r))) →
  r ∈ kd → keyword ∈ parseComponents (components r) →
  inheritedKey keyword = true →
  kanjiLoop kn pn kd acc = Throw notAFunction.
Proof.
  intros Hmap. revert acc.
  induction kd as [|r' kd IH]; intros acc Hr Hkw Hk;
    [by apply elem_of_nil in Hr|].
  cbn [kanjiLoop]. fold (recordId r').
  destruct (Hmap r') as [n ->]; [by left|].
  destruct (keywordLoop kn pn (recordId r')
              (parseComponents (components r')) ∅ acc) as [acc'|e] eqn:El.
  - simpl. apply elem_of_cons in Hr as [->|Hr].
    + by rewrite (keywordLoop_inherited _ _ _ _ _ _ keyword Hkw Hk) in El.
    + apply IH; [|done..]. intros r0 Hr0. apply Hmap. by right.
  - simpl. f_equal.
    (* the record that fails does so on an inherited key *)
    assert (∃ kw, kw ∈ parseComponents (components r')
                  ∧ inheritedKey kw = true) as (kw & Hkw' & Hkw'').
    { destruct (decide (Forall (fun kw => inheritedKey kw = false)
                          (parseComponents (components r')))) as [Hall|Hex].
      - destruct (keywordLoop_total kn pn (recordId r')
                    (parseComponents (components r')) ∅ acc) as [a Ha].
        + intros kw ?. by apply (proj1 (Forall_forall _ _) Hall).
        + congruence.
      - apply not_Forall_Exists in Hex; [|apply _].
        apply Exists_exists in Hex as (kw & ? & Hne). exists kw.
        split; [done|]. simpl in Hne. by destruct (inheritedKey kw). }
    rewrite (keywordLoop_inherited _ _ _ _ _ _ kw Hkw' Hkw'') in El.
    congruence.
Qed.

End FailureFacts.

(** X8.  [buildGraph] fails, with an RTKDataError that carries the
    two input lengths and without any warning, when an input is
    missing and when a mnemonic keyword is the name of a property that
    plain objects inherit; in every other case it returns a graph. *)
Theorem buildGraph_failure
    (kanjiData : option (list KanjiData))
    (primitivesData : option (list PrimitiveData))
    (jlpt : option (jsstring → option JLPTLevel)) (now : Z) :
  let failed message :=
    ([], Throw (RTKDataError (lit "Failed to build graph: " ++ lit message)
                  (lengthOrZero kanjiData) (lengthOrZero primitivesData))) in
  match kanjiData, primitivesData with
  | Some kd, Some pd =>
      (plainKeywords kd →
       ∃ warnings g,
         buildGraph kanjiData primitivesData jlpt now = (warnings, Ok g))
      ∧ (¬ plainKeywords kd →
         buildGraph kanjiData primitivesData jlpt now
         = failed "identifier.replace is not a function"%string)
  | _, _ =>
      buildGraph kanjiData primitivesData jlpt now
      = failed "Input data cannot be null or undefined"%string
  end.
Proof.
  destruct kanjiData as [kd|], primitivesData as [pd|]; try done.
  cbv zeta. split.
  - intros Hplain.
    destruct (kanjiLoop_total (kanjiNodesOf kd jlpt) (primitiveNodesOf pd) kd
                {| acc_edges := []; acc_missing := [] |} Hplain)
      as [acc Hloop].
    unfold buildGraph, createMnemonicEdges. rewrite Hloop. eauto.
  - intros Hnot.
    assert (∃ r kw, r ∈ kd ∧ kw ∈ parseComponents (components r)
                    ∧ inheritedKey kw = true) as (r & kw & Hr & Hkw & Hk).
    { destruct (decide (Exists (fun r =>
                  Exists (fun kw => inheritedKey kw = true)
                    (parseComponents (components r))) kd)) as [Hex|Hno].
      - apply Exists_exists in Hex as (r & Hr & Hex).
        apply Exists_exists in Hex as (kw & Hkw & Hk). eauto.
      - exfalso. apply Hnot. intros r kw Hr Hkw.
        destruct (inheritedKey kw) eqn:Ek; [|done].
        exfalso. apply Hno. apply Exists_exists. exists r.
        split; [done|]. apply Exists_exists. eauto. }
    unfold buildGraph, createMnemonicEdges.
    rewrite (FailureFacts.kanjiLoop_inherited _ _ _ _ r kw); try done.
    intros r0 Hr0. by apply kanji_in_map.
Qed.

Lemma buildGraph_failure_witness :
  ∃ warnings g,
    buildGraph (Some [bright; day; month]) (Some []) None 0
    = (warnings, Ok g).
Proof.
  apply (buildGraph_failure (Some [bright; day; month]) (Some []) None 0).
  intros r kw Hr Hkw.
  repeat (apply elem_of_cons in Hr as [->|Hr];
          [vm_compute in Hkw;
           repeat (apply elem_of_cons in Hkw as [->|Hkw]; [by vm_compute|]);
           by apply elem_of_nil in Hkw|]).
  by apply elem_of_nil in Hr.
Defined.

(** ** Counts, identifiers and the exclusion table *)

Module CountFacts.

Lemma filter_all {A} (f : A → bool) l :
  Forall (fun x => f x = true) l → List.filter f l = l.
Proof.
  induction 1 as [|x l Hx _ IH]; simpl; [done|]. by rewrite Hx, IH.
Qed.

Lemma filter_none {A} (f : A → bool) l :
  Forall (fun x => f x = false) l → List.filter f l = [].
Proof. induction 1 as [|x l Hx _ IH]; simpl; [done|]. by rewrite Hx. Qed.

Lemma filter_app' {A} (f : A → bool) l k :
  List.filter f (l ++ k) = List.filter f l ++ List.filter f k.
Proof.
  induction l as [|x l IH]; simpl; [done|]. destruct (f x); simpl; by f_equal.
Qed.

Lemma pairedEdges_length ps :
  length (pairedEdges ps) = (2 * length ps)%nat.
Proof.
  unfold pairedEdges. induction ps as [|p ps IH]; [done|].
  rewrite bind_cons, length_app, IH. simpl. lia.
Qed.

Lemma nodesOf_length {R} (f : R → GraphNode) (rs : list R) :
  (length (foldl (fun m x => Map_set m (n_id (f x)) (f x)) [] rs)
   ≤ length rs)%nat.
Proof.
  destruct (nodesOf_invariant f rs) as (Hkeyed & Hnd & _ & Hfrom).
  set (m := foldl _ _ _) in *.
  rewrite <- (length_fmap fst m), <- (length_fmap (fun r => n_id (f r)) rs).
  apply submseteq_length, NoDup_submseteq; [exact Hnd|].
  intros k Hk. fold (Map_keys m) in Hk.
  rewrite <- (keyed_values m Hkeyed) in Hk.
  apply list_elem_of_fmap in Hk as (n & -> & Hn).
  destruct (Hfrom n Hn) as (r & Hr & ->).
  apply list_elem_of_fmap. by exists r.
Qed.

Lemma sanitize_safe s :
  Forall (fun c => isIdChar c = true) s → sanitize s = s.
Proof.
  unfold sanitize. induction 1 as [|c s Hc _ IH]; [done|].
  rewrite fmap_cons, Hc. by f_equal.
Qed.

Lemma kanji_values kd jlpt n :
  n ∈ Map_values (kanjiNodesOf kd jlpt) →
  n_type n = kanji_node
  ∧ n_id n = generateNodeId kanji_node (n_character n).
Proof.
  intros Hn. destruct (kanjiNodesOf_facts kd jlpt) as (_ & _ & _ & Hfrom).
  by destruct (Hfrom n Hn) as (r & _ & ->).
Qed.

Lemma primitive_values pd n :
  n ∈ Map_values (primitiveNodesOf pd) →
  n_type n = primitive_node
  ∧ ∃ name, n_id n = generateNodeId primitive_node name.
Proof.
  intros Hn. destruct (primitiveNodesOf_facts pd) as (_ & _ & _ & Hfrom).
  destruct (Hfrom n Hn) as (r & _ & ->). split; [done|]. simpl. eauto.
Qed.

End CountFacts.

(** X9.  The counts in the metadata of a built graph are those of the
    graph: [totalKanji] and [totalPrimitives] count the nodes of each
    type and add up to the number of nodes, neither exceeds the number
    of input records, and [totalEdges] is the number of edges, twice
    that of the [mnemonic_uses] edges. *)
Theorem buildGraph_metadata_counts
    (kanjiData : option (list KanjiData))
    (primitivesData : option (list PrimitiveData))
    (jlpt : option (jsstring → option JLPTLevel)) (now : Z)
    (warnings : list jsstring) (g : Graph) :
  buildGraph kanjiData primitivesData jlpt now = (warnings, Ok g) →
  let count (t : NodeType) :=
    Z.of_nat (length (List.filter
                        (fun n => bool_decide (n_type n = t)) (nodes g))) in
  totalKanji (metadata g) = count kanji_node
  ∧ totalPrimitives (metadata g) = count primitive_node
  ∧ totalKanji (metadata g) + totalPrimitives (metadata g)
    = Z.of_nat (length (nodes g))
  ∧ totalKanji (metadata g) ≤ lengthOrZero kanjiData
  ∧ totalPrimitives (metadata g) ≤ lengthOrZero primitivesData
  ∧ totalEdges (metadata g) = Z.of_nat (length (edges g))
  ∧ totalEdges (metadata g)
    = 2 * Z.of_nat (length (List.filter isUses (edges g)))
  ∧ buildTimestamp (metadata g) = now.
Proof.
  destruct kanjiData as [kd|], primitivesData as [pd|]; try done.
  intros Hbuild.
  destruct (ClosureFacts.buildGraph_shape _ _ _ _ _ _ Hbuild)
    as (Hnodes & Hmeta & pairs & Hedges & _).
  cbv zeta. rewrite Hmeta, Hnodes. cbn [totalKanji totalPrimitives totalEdges
    buildTimestamp lengthOrZero].
  rewrite !CountFacts.filter_app', !length_app.
  assert (Forall (fun n => n_type n = kanji_node)
            (Map_values (kanjiNodesOf kd jlpt))) as Hk.
  { apply Forall_forall. intros n Hn.
    by destruct (CountFacts.kanji_values kd jlpt n Hn). }
  assert (Forall (fun n => n_type n = primitive_node)
            (Map_values (primitiveNodesOf pd))) as Hp.
  { apply Forall_forall. intros n Hn.
    by destruct (CountFacts.primitive_values pd n Hn). }
  rewrite (CountFacts.filter_all _ (Map_values (kanjiNodesOf kd jlpt)))
    by (eapply Forall_impl; [exact Hk|]; by intros n ->).
  rewrite (CountFacts.filter_none _ (Map_values (primitiveNodesOf pd)))
    by (eapply Forall_impl; [exact Hp|]; by intros n ->).
  rewrite (CountFacts.filter_none _ (Map_values (kanjiNodesOf kd jlpt)))
    by (eapply Forall_impl; [exact Hk|]; by intros n ->).
  rewrite (CountFacts.filter_all _ (Map_values (primitiveNodesOf pd)))
    by (eapply Forall_impl; [exact Hp|]; by intros n ->).
  unfold Map_size, Map_values. rewrite !length_fmap.
  pose proof (CountFacts.nodesOf_length
                (fun r => createKanjiNode r jlpt) kd) as Hlk.
  pose proof (CountFacts.nodesOf_length createPrimitiveNode pd) as Hlp.
  change (length (kanjiNodesOf kd jlpt) ≤ length kd)%nat in Hlk.
  change (length (primitiveNodesOf pd) ≤ length pd)%nat in Hlp.
  rewrite Hedges, filter_isUses_pairedEdges, length_fmap,
    CountFacts.pairedEdges_length.
  simpl. repeat split; lia.
Qed.

Lemma buildGraph_metadata_counts_witness :
  ∃ g, buildGraph (Some [bright; day; month; day]) (Some []) None 7
       = ([], Ok g)
       ∧ totalKanji (metadata g) = 3 ∧ totalEdges (metadata g) = 4
       ∧ totalEdges (metadata g)
         = 2 * Z.of_nat (length (List.filter isUses (edges g))).
Proof.
  eexists. split; [vm_compute; reflexivity|].
  split; [reflexivity|]. split; [reflexivity|].
  exact (proj1 (proj2 (proj2 (proj2 (proj2 (proj2 (proj2
    (buildGraph_metadata_counts (Some [bright; day; month; day]) (Some [])
       None 7 [] _ eq_refl)))))))).
Defined.

(** X10.  A safe identifier, one made of the characters that
    [generateNodeId] keeps, identifies its node: two ids are equal only
    for the same type and the same identifier. *)
Theorem generateNodeId_injective (t t' : NodeType) (a b : jsstring) :
  Forall (fun c => isIdChar c = true) a →
  Forall (fun c => isIdChar c = true) b →
  generateNodeId t a = generateNodeId t' b →
  t = t' ∧ a = b.
Proof.
  intros Ha Hb. unfold generateNodeId.
  rewrite !CountFacts.sanitize_safe by done.
  destruct t, t'; intros Heq; try discriminate Heq;
    (split; [done|]); by simplify_list_eq.
Qed.

Lemma generateNodeId_injective_witness :
  kanji_node = kanji_node ∧ [26085%N] = [26085%N].
Proof.
  apply (generateNodeId_injective kanji_node kanji_node [26085%N] [26085%N]);
    [by repeat constructor..|reflexivity].
Defined.

(** ** The excluded kanji *)

Module ExclusionFacts.

Lemma sanitize_singleton s (c : N) :
  isIdChar c = true → sanitize s = [c] → s = [c].
Proof.
  intros Hc. destruct s as [|x [|y s]]; try done.
  unfold sanitize. cbn. destruct (isIdChar x) eqn:Hx; intros [= <-]; [done|].
  by vm_compute in Hc.
Qed.

Lemma kanji_id_singleton s (c : N) :
  isIdChar c = true →
  generateNodeId kanji_node s = generateNodeId kanji_node [c] → s = [c].
Proof.
  intros Hc Heq. unfold generateNodeId in Heq.
  apply app_inv_head, app_inv_head in Heq.
  apply (sanitize_singleton s c Hc). rewrite Heq.
  unfold sanitize. cbn. by rewrite Hc.
Qed.

Lemma keyed_get m k n : keyed m → Map_get m k = Some n → n_id n = k.
Proof.
  intros Hkeyed Hget%Map_get_elem.
  symmetry. exact (proj1 (Forall_forall _ _) Hkeyed _ Hget).
Qed.

(** No keyword resolves to the node of an excluded kanji. *)
Lemma referencedNode_not_excluded kd pd jlpt keyword node c :
  c ∈ COMPLEX_KANJI_EXCLUSIONS →
  referencedNode (kanjiNodesOf kd jlpt) (primitiveNodesOf pd) keyword
    = Ok (Some node) →
  n_id node ≠ generateNodeId kanji_node c.
Proof.
  intros Hc. apply list_elem_of_singleton in Hc as ->.
  set (kn := kanjiNodesOf kd jlpt). set (pn := primitiveNodesOf pd).
  destruct (kanjiNodesOf_facts kd jlpt) as (Hkk & _).
  destruct (primitiveNodesOf_facts pd) as (Hkp & _).
  fold kn in Hkk. fold pn in Hkp.
  assert (∀ n, n ∈ Map_values pn →
               n_id n ≠ generateNodeId kanji_node [32920%N]) as Hprim.
  { intros n Hn Heq.
    destruct (CountFacts.primitive_values pd n Hn) as (_ & name & Hid).
    rewrite Hid in Heq. symmetry in Heq.
    by apply generateNodeId_kinds in Heq. }
  assert (∀ k n, Map_get pn k = Some n →
                 n_id n ≠ generateNodeId kanji_node [32920%N]) as Hpget.
  { intros k n Hn. apply Hprim. by eapply ClosureFacts.Map_get_value. }
  unfold referencedNode.
  destruct (mappedNode kn pn keyword) as [[mapped|]|] eqn:Em; simpl;
    [| |done].
  - intros [= <-]. unfold mappedNode, resolveComponentKeyword in Em.
    destruct (Map_get KEYWORD_TO_CHARACTER_MAPPINGS keyword) as [mc|] eqn:Ek;
      [|by destruct (inheritedKey keyword)].
    destruct (truthy mc); [|done]. injection Em as Em.
    apply ClosureFacts.orElse_Some in Em as [H|H]; [|by eapply Hpget].
    apply (keyed_get _ _ _ Hkk) in H. rewrite H. intros Heq.
    apply kanji_id_singleton in Heq; [|done]. subst mc.
    apply ClosureFacts.Map_get_value in Ek. revert Ek. clear.
    intros Ek. vm_compute in Ek.
    repeat (apply elem_of_cons in Ek as [Ek|Ek]; [discriminate Ek|]).
    by apply elem_of_nil in Ek.
  - intros [= [H|H]%ClosureFacts.orElse_Some].
    + assert (∀ n, List.find (kanjiHasKeyword keyword) (Map_values kn)
                   = Some n →
                   n_id n ≠ generateNodeId kanji_node [32920%N]) as Hfind.
      { intros n [Hn Hhas]%ClosureFacts.find_elem Heq.
        destruct (CountFacts.kanji_values kd jlpt n Hn) as (_ & Hid).
        rewrite Hid in Heq. apply kanji_id_singleton in Heq; [|done].
        unfold kanjiHasKeyword in Hhas. rewrite Heq in Hhas.
        apply andb_true_iff in Hhas as [_ Hhas]. by vm_compute in Hhas. }
      unfold searchByKeyword in H.
      destruct (shouldPreferKanji keyword);
        apply ClosureFacts.orElse_Some in H as [H|H];
        first [ by apply Hfind
              | apply ClosureFacts.find_elem in H as [? _]; by apply Hprim ].
    + unfold exactCharacterMatch in H.
      destruct (Map_get kn _) as [k|] eqn:Ek; [|by eapply Hpget].
      destruct (isComplexKanjiExcluded keyword) eqn:Ex; simpl in H;
        [by eapply Hpget|].
      injection H as <-. apply (keyed_get _ _ _ Hkk) in Ek. rewrite Ek.
      intros Heq. apply kanji_id_singleton in Heq; [|done]. subst keyword.
      by vm_compute in Ex.
Qed.

End ExclusionFacts.

(** X11.  The kanji of the exclusion table is never a component: in a
    built graph no [mnemonic_uses] edge leads to its node and no
    [used_in_mnemonic] edge leaves it. *)
Theorem excluded_kanji_never_component
    (kanjiData : option (list KanjiData))
    (primitivesData : option (list PrimitiveData))
    (jlpt : option (jsstring → option JLPTLevel)) (now : Z)
    (warnings : list jsstring) (g : Graph) (c : jsstring) (e : Edge) :
  buildGraph kanjiData primitivesData jlpt now = (warnings, Ok g) →
  c ∈ COMPLEX_KANJI_EXCLUSIONS →
  e ∈ edges g →
  (type e = mnemonic_uses → target e ≠ generateNodeId kanji_node c)
  ∧ (type e = used_in_mnemonic → source e ≠ generateNodeId kanji_node c).
Proof.
  destruct kanjiData as [kd|], primitivesData as [pd|]; try done.
  intros Hbuild Hc He.
  destruct (ClosureFacts.buildGraph_shape _ _ _ _ _ _ Hbuild)
    as (_ & _ & pairs & Hedges & Hpairs).
  rewrite Hedges in He. apply elem_of_pairedEdges in He as (p & Hp & He).
  destruct (Hpairs p Hp) as (r & _ & _ & kw & node & _ & Href & Hid).
  pose proof (ExclusionFacts.referencedNode_not_excluded
                _ _ _ _ _ c Hc Href) as Hne.
  rewrite Hid in Hne. by destruct He as [->| ->]; simpl.
Qed.

Lemma excluded_kanji_never_component_witness :
  ∃ g, buildGraph (Some [arm; elbowKanji; elbowExcluded])
         (Some [elbowPrimitive]) None 0 = ([], Ok g)
       ∧ Forall (fun e => type e = mnemonic_uses →
                          target e ≠ generateNodeId kanji_node [32920%N])
           (edges g).
Proof.
  eexists. split; [vm_compute; reflexivity|].
  apply Forall_forall. intros e He.
  exact (proj1 (excluded_kanji_never_component
                  (Some [arm; elbowKanji; elbowExcluded])
                  (Some [elbowPrimitive]) None 0 [] _ [32920%N] e eq_refl
                  ltac:(by left) He)).
Defined.

(** ** The lookup maps of the transformer *)

Module IndexFacts.

Lemma nodeMap_foldl (ns : list GraphNode) (m : gmap (list N) GraphNode) i :
  foldl (fun m node => <[n_id node := node]> m) m ns !! i
  = match last (filter (fun n => n_id n = i) ns) with
    | Some n => Some n
    | None => m !! i
    end.
Proof.
  revert m. induction ns as [|n ns IH]; intros m; [done|].
  cbn [foldl]. rewrite IH, filter_cons.
  destruct (decide (n_id n = i)) as [Heq|Hne].
  - destruct (filter _ ns) as [|x xs] eqn:E.
    + simpl. by rewrite <- Heq, lookup_insert_eq.
    + rewrite last_cons_cons.
      destruct (last (x :: xs)) eqn:El; [done|]. by apply last_None in El.
  - destruct (last _); [done|]. by rewrite lookup_insert_ne.
Qed.

Lemma edgeMap_foldl (es : list Edge) (m : gmap (list N) (list Edge)) a :
  foldl (fun m edge =>
           <[source edge := default [] (m !! source edge) ++ [edge]]> m)
    m es !! a
  = match filter (fun e => source e = a) es with
    | [] => m !! a
    | found => Some (default [] (m !! a) ++ found)
    end.
Proof.
  revert m. induction es as [|e es IH]; intros m; [done|].
  cbn [foldl]. rewrite IH, filter_cons.
  destruct (decide (source e = a)) as [Heq|Hne].
  - subst a. rewrite lookup_insert_eq. cbn [default from_option id].
    destruct (filter _ es); [done|]. by rewrite <- app_assoc.
  - by rewrite lookup_insert_ne.
Qed.

Section Transformer.
Variable g : Graph.

Lemma nodeMap_lookup i :
  nodeMap (new_TreeDataTransformer g) !! i
  = last (filter (fun n => n_id n = i) (nodes g)).
Proof.
  unfold new_TreeDataTransformer. cbn [nodeMap].
  rewrite nodeMap_foldl. by destruct (last _).
Qed.

Lemma edgeMap_lookup a :
  default [] (edgeMap (new_TreeDataTransformer g) !! a)
  = filter (fun e => source e = a) (edges g).
Proof.
  unfold new_TreeDataTransformer. cbn [edgeMap].
  rewrite edgeMap_foldl. by destruct (filter _ _).
Qed.

Lemma nodeMap_Some i n :
  nodeMap (new_TreeDataTransformer g) !! i = Some n →
  n ∈ nodes g ∧ n_id n = i.
Proof.
  rewrite nodeMap_lookup. intros Hl%last_Some_elem_of.
  by apply list_elem_of_filter in Hl as [? ?].
Qed.

Lemma nodeMap_NoDup n :
  NoDup (n_id <$> nodes g) → n ∈ nodes g →
  nodeMap (new_TreeDataTransformer g) !! n_id n = Some n.
Proof.
  intros Hnd Hn. rewrite nodeMap_lookup.
  destruct (last _) as [n'|] eqn:El.
  - apply last_Some_elem_of, list_elem_of_filter in El as [Hid Hn'].
    f_equal. apply list_elem_of_lookup in Hn as [j Hj].
    apply list_elem_of_lookup in Hn' as [j' Hj'].
    assert (j' = j) as ->; [|congruence].
    eapply NoDup_lookup; [exact Hnd| |];
      rewrite list_lookup_fmap; [by rewrite Hj'|by rewrite Hj, Hid].
  - apply last_None in El.
    assert (n ∈ filter (fun n0 => n_id n0 = n_id n) (nodes g)) as Hin
      by by apply list_elem_of_filter.
    rewrite El in Hin. by apply elem_of_nil in Hin.
Qed.
End Transformer.

End IndexFacts.

(** X12.  The constructor of [TreeDataTransformer] indexes the graph
    faithfully: the node map gives, for an id, the last node of the
    graph with that id; the edge map gives, for a source, the edges
    that leave it, in the order of the graph, and has no entry for an
    id that no edge leaves. *)
Theorem transformer_indexes (g : Graph) (i : jsstring) :
  let this := new_TreeDataTransformer g in
  nodeMap this !! i = last (filter (fun n => n_id n = i) (nodes g))
  ∧ default [] (edgeMap this !! i)
    = filter (fun e => source e = i) (edges g)
  ∧ (edgeMap this !! i = None ↔ ∀ e, e ∈ edges g → source e ≠ i).
Proof.
  cbv zeta. split; [apply IndexFacts.nodeMap_lookup|].
  split; [apply IndexFacts.edgeMap_lookup|].
  unfold new_TreeDataTransformer. cbn [edgeMap].
  rewrite IndexFacts.edgeMap_foldl.
  destruct (filter _ _) as [|e es] eqn:E.
  - split; [|done]. intros _ e He Hs.
    assert (e ∈ filter (fun e => source e = i) (edges g)) as Hin
      by by apply list_elem_of_filter.
    rewrite E in Hin. by apply elem_of_nil in Hin.
  - split; [done|]. intros Hno. exfalso.
    assert (e ∈ filter (fun e => source e = i) (edges g)) as Hin
      by (rewrite E; by left).
    apply list_elem_of_filter in Hin as [Hs He]. by apply (Hno e).
Qed.

(** X13.  Referers and components are two views of the same edges:
    for two known ids [a] and [b], the node of [a] is among the
    referers of [b] exactly when the node of [b] is among the
    components of [a], that is when the graph has the [mnemonic_uses]
    edge from [a] to [b]. *)
Theorem referers_components_dual (g : Graph) (a b : jsstring)
    (na nb : GraphNode) :
  let this := new_TreeDataTransformer g in
  nodeMap this !! a = Some na →
  nodeMap this !! b = Some nb →
  (na ∈ findNodeReferers this b ↔ usesEdge a b ∈ edges g)
  ∧ (nb ∈ getKanjiComponents this a ↔ usesEdge a b ∈ edges g).
Proof.
  cbv zeta. intros Ha Hb.
  pose proof (IndexFacts.nodeMap_Some g _ _ Ha) as [_ Hida].
  pose proof (IndexFacts.nodeMap_Some g _ _ Hb) as [_ Hidb].
  split.
  - unfold findNodeReferers. rewrite list_elem_of_omap.
    cbn [tr_graph new_TreeDataTransformer]. split.
    + intros (e & He & Hsome).
      destruct (bool_decide (type e = mnemonic_uses)) eqn:Et; [|done].
      destruct (bool_decide (target e = b)) eqn:Eb; [|done].
      apply bool_decide_eq_true in Et, Eb. simpl in Hsome.
      apply IndexFacts.nodeMap_Some in Hsome as [_ Hs].
      replace (usesEdge a b) with e; [done|].
      destruct e as [s t ty]. simpl in *. unfold usesEdge. congruence.
    + intros He. exists (usesEdge a b). split; [done|].
      cbn [type target source usesEdge].
      rewrite !bool_decide_eq_true_2 by done. exact Ha.
  - unfold getKanjiComponents. rewrite list_elem_of_omap.
    rewrite IndexFacts.edgeMap_lookup. split.
    + intros (e & He & Hsome).
      apply list_elem_of_filter in He as [Hs He].
      destruct (bool_decide (type e = mnemonic_uses)) eqn:Et; [|done].
      apply bool_decide_eq_true in Et.
      apply IndexFacts.nodeMap_Some in Hsome as [_ Ht].
      replace (usesEdge a b) with e; [done|].
      destruct e as [s t ty]. simpl in *. unfold usesEdge. congruence.
    + intros He. exists (usesEdge a b).
      split; [by apply list_elem_of_filter|]. exact Hb.
Qed.

Lemma referers_components_dual_witness :
  sampleNode (lit "B") ∈ findNodeReferers (new_TreeDataTransformer diamond)
                           (lit "D")
  ↔ usesEdge (lit "B") (lit "D") ∈ edges diamond.
Proof.
  exact (proj1 (referers_components_dual diamond (lit "B") (lit "D")
                  (sampleNode (lit "B")) (sampleNode (lit "D"))
                  eq_refl eq_refl)).
Defined.

(** ** Referers in a built graph, and their pages *)

Module RefererMoreFacts.

Lemma omap_cons {A B} (f : A → option B) x l :
  omap f (x :: l)
  = match f x with
    | Some y => y :: omap f l
    | None => omap f l
    end.
Proof. reflexivity. Qed.

(** In a built graph the source of a [mnemonic_uses] edge is known to
    the transformer as a kanji node. *)
Lemma built_source_known kd pd jlpt now warnings g e :
  buildGraph (Some kd) (Some pd) jlpt now = (warnings, Ok g) →
  e ∈ edges g → type e = mnemonic_uses →
  ∃ n, nodeMap (new_TreeDataTransformer g) !! source e = Some n
       ∧ n_id n = source e ∧ n_type n = kanji_node.
Proof.
  intros Hbuild He Hty.
  destruct (ClosureFacts.buildGraph_shape _ _ _ _ _ _ Hbuild)
    as (Hnodes & _ & pairs & Hedges & Hpairs).
  rewrite Hedges in He. apply elem_of_pairedEdges in He as (p & Hp & He).
  destruct He as [->| ->]; [|done]. cbn [source usesEdge].
  destruct (Hpairs p Hp) as (r & Hr & Hsrc & _).
  destruct (ClosureFacts.kanji_node_of kd jlpt r Hr) as (n & Hn & Hid & Hk).
  exists n. rewrite Hsrc, <- Hid. split; [|done].
  apply IndexFacts.nodeMap_NoDup.
  - rewrite Hnodes. apply built_nodes_NoDup.
  - rewrite Hnodes. apply elem_of_app. by left.
Qed.

End RefererMoreFacts.

(** X14.  In a graph that [buildGraph] returned, the referers of a
    node are kanji nodes, one for each [mnemonic_uses] edge that leads
    to it, in edge order; so [findKanjiUsingPrimitive], which asks for
    kanji nodes only, returns the same list. *)
Theorem built_graph_referers
    (kanjiData : option (list KanjiData))
    (primitivesData : option (list PrimitiveData))
    (jlpt : option (jsstring → option JLPTLevel)) (now : Z)
    (warnings : list jsstring) (g : Graph) (nodeId : jsstring) :
  buildGraph kanjiData primitivesData jlpt now = (warnings, Ok g) →
  let this := new_TreeDataTransformer g in
  findKanjiUsingPrimitive this nodeId = findNodeReferers this nodeId
  ∧ Forall (fun n => n_type n = kanji_node) (findNodeReferers this nodeId)
  ∧ n_id <$> findNodeReferers this nodeId
    = source <$> List.filter
                   (fun e => bool_decide (type e = mnemonic_uses)
                             && bool_decide (target e = nodeId))
                   (edges g).
Proof.
  destruct kanjiData as [kd|], primitivesData as [pd|]; try done.
  intros Hbuild. cbv zeta.
  set (this := new_TreeDataTransformer g).
  set (kanjiOnly := fun edge : Edge =>
         if bool_decide (type edge = mnemonic_uses)
            && bool_decide (target edge = nodeId)
         then match nodeMap this !! source edge with
              | Some kanjiNode =>
                  if bool_decide (n_type kanjiNode = kanji_node)
                  then Some kanjiNode else None
              | None => None
              end
         else None).
  set (anyNode := fun edge : Edge =>
         if bool_decide (type edge = mnemonic_uses)
            && bool_decide (target edge = nodeId)
         then nodeMap this !! source edge else None).
  assert (∀ es, Forall (fun e => e ∈ edges g) es →
    omap kanjiOnly es = omap anyNode es
    ∧ Forall (fun n => n_type n = kanji_node) (omap anyNode es)
    ∧ n_id <$> omap anyNode es
      = source <$> List.filter
                     (fun e => bool_decide (type e = mnemonic_uses)
                               && bool_decide (target e = nodeId)) es)
    as Hgen.
  { intros es Hes. induction Hes as [|e es He _ IH].
    - repeat split. constructor.
    - rewrite !RefererMoreFacts.omap_cons. cbn [List.filter].
      destruct (bool_decide (type e = mnemonic_uses)
                && bool_decide (target e = nodeId)) eqn:Ec.
      + pose proof Ec as [Et _]%andb_true_iff.
        apply bool_decide_eq_true in Et.
        destruct (RefererMoreFacts.built_source_known _ _ _ _ _ _ e
                    Hbuild He Et) as (n & Hn & Hid & Hk).
        fold this in Hn.
        assert (anyNode e = Some n) as ->
          by (unfold anyNode; by rewrite Ec).
        assert (kanjiOnly e = Some n) as ->
          by (unfold kanjiOnly;
              by rewrite Ec, Hn, bool_decide_eq_true_2).
        destruct IH as (IH1 & IH2 & IH3). rewrite IH1.
        split; [done|]. split; [by constructor|].
        rewrite !fmap_cons. by rewrite Hid, IH3.
      + assert (anyNode e = None) as ->
          by (unfold anyNode; by rewrite Ec).
        assert (kanjiOnly e = None) as ->
          by (unfold kanjiOnly; by rewrite Ec).
        exact IH. }
  apply Hgen. by apply Forall_forall.
Qed.

Lemma built_graph_referers_witness :
  ∃ g, buildGraph (Some [bright; day; month]) (Some []) None 0 = ([], Ok g)
       ∧ Forall (fun n => n_type n = kanji_node)
           (findNodeReferers (new_TreeDataTransformer g) (recordId day)).
Proof.
  eexists. split; [vm_compute; reflexivity|].
  exact (proj1 (proj2 (built_graph_referers
                         (Some [bright; day; month]) (Some []) None 0 [] _
                         (recordId day) eq_refl))).
Defined.

(** X15.  Pages follow one another without loss or repetition: the
    referer nodes of the page at [offset] of size [p], followed by
    those of the page at [offset + p] of size [q], are, up to the order
    within each page, the referers at positions [offset, offset+p+q);
    and the second page ends in a summary node exactly when referers
    remain beyond [offset + p + q]. *)
Theorem referers_pages_compose
    (localeCompare : jsstring → jsstring → Z) (this : TreeDataTransformer)
    (nodeId : jsstring) (offset p q : Z) :
  0 ≤ offset → 0 ≤ p → 0 ≤ q →
  let referers := findNodeReferers this nodeId in
  let regular :=
    List.filter (fun n => bool_decide (t_moreNodeMeta n = None)) in
  let first := buildReferersTree localeCompare this nodeId p offset in
  let second := buildReferersTree localeCompare this nodeId q (offset + p) in
  t_data <$> (regular first ++ regular second)
    ≡ₚ take (Z.to_nat (p + q)) (drop (Z.to_nat offset) referers)
  ∧ ((∃ n, n ∈ second ∧ t_moreNodeMeta n ≠ None)
     ↔ offset + p + q < Z.of_nat (length referers)).
Proof.
  intros Ho Hp Hq referers regular first second.
  assert (∀ count start, 0 ≤ start → 0 ≤ count →
    t_data <$> regular
      (buildReferersTree localeCompare this nodeId count start)
    ≡ₚ take (Z.to_nat count) (drop (Z.to_nat start) referers)
    ∧ ((∃ n, n ∈ buildReferersTree localeCompare this nodeId count start
             ∧ t_moreNodeMeta n ≠ None)
       ↔ start + count < Z.of_nat (length referers))) as Hpage.
  { intros count start Hs Hc.
    rewrite buildReferersTree_split. cbv zeta. fold referers.
    rewrite Array_slice_page by done.
    set (page := take _ _).
    assert (Forall (fun n => t_moreNodeMeta n = None)
              (sortNodesByJLPTLevel localeCompare (refererTreeNode <$> page)))
      as Hleaves.
    { rewrite sortNodesByJLPTLevel_perm.
      apply Forall_fmap, Forall_true. done. }
    split.
    - unfold regular. rewrite CountFacts.filter_app'.
      rewrite CountFacts.filter_all
        by (eapply Forall_impl; [exact Hleaves|];
            intros n Hn; by apply bool_decide_eq_true_2).
      rewrite CountFacts.filter_none
        by (case_bool_decide; repeat constructor).
      rewrite app_nil_r, sortNodesByJLPTLevel_perm, <- list_fmap_compose.
      by rewrite list_fmap_id.
    - split.
      + intros (n & Hn & Hmeta). apply elem_of_app in Hn as [Hn|Hn].
        * rewrite Forall_forall in Hleaves. by specialize (Hleaves n Hn).
        * case_bool_decide; [done|]. by apply elem_of_nil in Hn.
      + intros Hlt. rewrite bool_decide_eq_true_2 by done.
        eexists. split; [apply elem_of_app; right; left|]. done. }
  destruct (Hpage p offset Ho Hp) as [H1 _].
  destruct (Hpage q (offset + p)) as [H2 H3]; [lia..|].
  split.
  - rewrite fmap_app. subst first second. rewrite H1, H2.
    replace (Z.to_nat (offset + p)) with (Z.to_nat offset + Z.to_nat p)%nat
      by lia.
    rewrite <- drop_drop, take_take_drop.
    by replace (Z.to_nat (p + q)) with (Z.to_nat p + Z.to_nat q)%nat by lia.
  - subst second. rewrite H3. lia.
Qed.

Lemma referers_pages_compose_witness :
  let this := new_TreeDataTransformer (hubGraph 15) in
  let regular :=
    List.filter (fun n => bool_decide (t_moreNodeMeta n = None)) in
  t_data <$> (regular (buildReferersTree codeUnitCompare this hubId 8 0)
              ++ regular (buildReferersTree codeUnitCompare this hubId 5 8))
  ≡ₚ take 13 (findNodeReferers this hubId).
Proof.
  exact (proj1 (referers_pages_compose codeUnitCompare
                  (new_TreeDataTransformer (hubGraph 15)) hubId 0 8 5
                  ltac:(lia) ltac:(lia) ltac:(lia))).
Defined.

(** ** Trees by character *)

Module KanjiTreeFacts.

Lemma Math_max_spec (values : list Z) :
  match Math_max values with
  | None => values = []
  | Some d => d ∈ values ∧ Forall (fun v => v ≤ d) values
  end.
Proof.
  induction values as [|v values IH]; [done|].
  cbn [Math_max foldr]. fold (Math_max values).
  destruct (Math_max values) as [d|]; cbn [from_option].
  - destruct IH as [Hd Hle]. split.
    + destruct (Z.max_spec v d) as [[_ ->]|[_ ->]]; [by right|by left].
    + constructor; [lia|]. eapply Forall_impl; [exact Hle|].
      intros x Hx. simpl in Hx. lia.
  - subst values. split; [by left|]. by repeat constructor.
Qed.

Section Run.
Variable localeCompare : jsstring → jsstring → Z.
Variable this : TreeDataTransformer.
Variable maxDepth : DepthLimit.

(** The outcome of [buildKanjiComponentTree] on the id of a kanji
    node, for a bound that admits the root. *)
Lemma buildKanjiComponentTree_Ok kanjiId rootNode :
  nodeMap this !! kanjiId = Some rootNode →
  n_type rootNode = kanji_node →
  exceeds 0 maxDepth = false →
  ∃ r, buildKanjiComponentTree localeCompare this maxDepth kanjiId
       = Some (Ok r)
       ∧ t_id (root r) = kanjiId ∧ t_data (root r) = rootNode
       ∧ t_depth (root r) = 0 ∧ t_parent (root r) = None.
Proof.
  intros Hnode Hkanji Hdepth. unfold buildKanjiComponentTree.
  rewrite Hnode, decide_True by done.
  destruct (buildTreeNode_total localeCompare this maxDepth
              (enoughFuel this) kanjiId 0 None
              {| visitedNodes := ∅; circularReferences := [];
                 allTreeNodes := [] |}) as [[res st] Hrun].
  { cbn [visitedNodes]. unfold enoughFuel.
    rewrite difference_empty_L, size_dom. lia. }
  rewrite Hrun.
  destruct (buildTreeNode_spec _ _ _ _ _ _ _ _ _ _ Hrun)
    as (newNodes & newCirc & _ & Hres).
  cbn [visitedNodes] in Hres.
  destruct res as [rootTree|].
  - destruct Hres as (Hid & _ & Hshape & _).
    apply shaped_unfold in Hshape as (_ & Hd & _ & Hp & Hdata & _).
    eexists. split; [done|]. cbn [root].
    rewrite Hid in Hdata. split; [done|]. split; [congruence|]. done.
  - destruct Hres as (_ & Hnot & _). exfalso. apply Hnot.
    split; [done|]. split; [set_solver|]. by rewrite Hnode.
Qed.
End Run.

End KanjiTreeFacts.

(** X16.  In a graph whose node ids are distinct and for a bound that
    admits the root, [buildKanjiTree] returns the tree of a kanji node
    with the character asked for, its root at depth 0 and without
    parent, when there is such a node, and throws "Kanji character not
    found" when there is none. *)
Theorem buildKanjiTree_by_character
    (localeCompare : jsstring → jsstring → Z) (g : Graph)
    (kanjiCharacter : jsstring) (maxDepth : DepthLimit) :
  NoDup (n_id <$> nodes g) →
  exceeds 0 maxDepth = false →
  ((∃ n, n ∈ nodes g ∧ n_type n = kanji_node
         ∧ n_character n = kanjiCharacter) →
   ∃ r, buildKanjiTree localeCompare g kanjiCharacter maxDepth = Some (Ok r)
        ∧ t_data (root r) ∈ nodes g
        ∧ n_type (t_data (root r)) = kanji_node
        ∧ n_character (t_data (root r)) = kanjiCharacter
        ∧ t_id (root r) = n_id (t_data (root r))
        ∧ t_depth (root r) = 0 ∧ t_parent (root r) = None)
  ∧ ((∀ n, n ∈ nodes g → n_type n = kanji_node →
           n_character n ≠ kanjiCharacter) →
     buildKanjiTree localeCompare g kanjiCharacter maxDepth
     = Some (Throw (Error (lit "Kanji character not found: "
                             ++ kanjiCharacter)))).
Proof.
  intros Hnd Hdepth. unfold buildKanjiTree. split.
  - intros (n & Hn & Hk & Hc).
    destruct (List.find _ (nodes g)) as [kanjiNode|] eqn:Ef.
    + apply ClosureFacts.find_elem in Ef as [Hin Hcond].
      apply andb_true_iff in Hcond as [Hk'%bool_decide_eq_true
                                         Hc'%bool_decide_eq_true].
      destruct (KanjiTreeFacts.buildKanjiComponentTree_Ok localeCompare
                  (new_TreeDataTransformer g) maxDepth
                  (n_id kanjiNode) kanjiNode)
        as (r & Hr & Hid & Hdata & Hd & Hp); [|done|done|].
      { by apply IndexFacts.nodeMap_NoDup. }
      exists r. rewrite Hdata. done.
    + exfalso.
      pose proof (find_none _ _ Ef n (proj1 (list_elem_of_In _ _) Hn))
        as Hfalse.
      cbv beta in Hfalse. by rewrite !bool_decide_eq_true_2 in Hfalse.
  - intros Hnone.
    destruct (List.find _ (nodes g)) as [kanjiNode|] eqn:Ef; [|done].
    apply ClosureFacts.find_elem in Ef as [Hin Hcond].
    apply andb_true_iff in Hcond as [Hk'%bool_decide_eq_true
                                       Hc'%bool_decide_eq_true].
    by destruct (Hnone kanjiNode Hin Hk').
Qed.

Lemma buildKanjiTree_by_character_witness :
  ∃ r, buildKanjiTree codeUnitCompare diamond (lit "A") (Finite 5)
       = Some (Ok r)
       ∧ t_depth (root r) = 0.
Proof.
  assert (NoDup (n_id <$> nodes diamond)) as Hnd
    by (apply (bool_decide_unpack _); by vm_compute).
  destruct (proj1 (buildKanjiTree_by_character codeUnitCompare diamond
                     (lit "A") (Finite 5) Hnd eq_refl))
    as (r & Hr & _ & _ & _ & _ & Hd & _).
  - exists (sampleNode (lit "A")). split; [by left|]. done.
  - by exists r.
Defined.

(** X17.  The metadata of a tree result are those of its tree:
    [totalNodes] is the number of nodes of the tree and [maxDepth] is
    the greatest depth of a node, a depth that some node has, between 0
    and the bound. *)
Theorem tree_metadata_exact
    (localeCompare : jsstring → jsstring → Z) (this : TreeDataTransformer)
    (maxDepth : DepthLimit) (kanjiId : jsstring) (r : TreeResult) :
  buildKanjiComponentTree localeCompare this maxDepth kanjiId
  = Some (Ok r) →
  totalNodes (treeMetadata r) = Z.of_nat (length (subtree (root r)))
  ∧ ∃ d, maxTreeDepth (treeMetadata r) = Some d
         ∧ Forall (fun n => t_depth n ≤ d) (subtree (root r))
         ∧ Exists (fun n => t_depth n = d) (subtree (root r))
         ∧ 0 ≤ d ∧ exceeds d maxDepth = false.
Proof.
  unfold buildKanjiComponentTree.
  destruct (nodeMap this !! kanjiId) as [rootNode|]; [|done].
  destruct (decide (n_type rootNode = kanji_node)); [|done].
  destruct (buildTreeNode _ _ _ _ _ _ _ _) as [[[rootTree|] st]|] eqn:Hrun;
    [|done..].
  intros [= <-]. cbn [root treeMetadata totalNodes maxTreeDepth].
  destruct (buildTreeNode_spec _ _ _ _ _ _ _ _ _ _ Hrun)
    as (newNodes & newCirc & (_ & Hall & _) & Hres).
  cbn [allTreeNodes app] in Hall.
  destruct Hres as (_ & _ & _ & Hperm & Hwithin & _).
  rewrite Hall. split; [by rewrite Hperm|].
  pose proof (KanjiTreeFacts.Math_max_spec (t_depth <$> newNodes)) as Hmax.
  destruct (Math_max _) as [d|].
  - destruct Hmax as [Hd Hle]. exists d. split; [done|].
    apply list_elem_of_fmap in Hd as (n & -> & Hn).
    rewrite Forall_fmap in Hle.
    split; [rewrite <- Hperm; exact Hle|].
    split; [rewrite <- Hperm; apply Exists_exists; by exists n|].
    by destruct (proj1 (Forall_forall _ _) Hwithin n Hn).
  - apply fmap_nil_inv in Hmax. rewrite Hmax in Hperm.
    apply Permutation_nil_l in Hperm. by rewrite subtree_unfold in Hperm.
Qed.

Lemma tree_metadata_exact_witness :
  ∃ r, buildKanjiComponentTree codeUnitCompare
         (new_TreeDataTransformer diamond) (Finite 5) (lit "A")
       = Some (Ok r)
       ∧ totalNodes (treeMetadata r) = Z.of_nat (length (subtree (root r))).
Proof.
  destruct (buildKanjiComponentTree codeUnitCompare
              (new_TreeDataTransformer diamond) (Finite 5) (lit "A"))
    as [[r|e]|] eqn:E; [|vm_compute in E; discriminate E..].
  exists r. split; [done|].
  exact (proj1 (tree_metadata_exact codeUnitCompare
                  (new_TreeDataTransformer diamond) (Finite 5) (lit "A")
                  r E)).
Defined.

(** ** Walking a tree *)

Module PathFacts.

(** Induction on a tree, the children of a node before the node. *)
Lemma TreeNode_children_ind (P : TreeNode → Prop) :
  (∀ n, Forall P (t_children n) → P n) → ∀ n, P n.
Proof.
  intros Hstep. fix IH 1. intros n. apply Hstep.
  destruct n as [? ? ? ? ? ? children ? ?]. cbn [t_children].
  induction children as [|child children IHc]; constructor;
    [apply IH | apply IHc].
Qed.

Lemma searchPath_unfold targetId node path :
  searchPath targetId node path
  = if bool_decide (t_id node = targetId) then Some (path ++ [node])
    else foldr (fun child later =>
                  match searchPath targetId child (path ++ [node]) with
                  | Some result => Some result
                  | None => later
                  end) None (t_children node).
Proof.
  destruct node as [? ? ? ? ? ? children ? ?]. cbn [searchPath t_id t_children].
  case_bool_decide; [done|].
  set (currentPath := path ++ _). clearbody currentPath.
  induction children as [|child children IH]; [done|].
  cbn [foldr]. by rewrite <- IH.
Qed.


Lemma descends_subtree n p : descends n p → Forall (fun m => m ∈ subtree n) p.
Proof.
  induction 1 as [n|n child p Hchild _ IH].
  - constructor; [|constructor]. rewrite subtree_unfold. by left.
  - constructor; [rewrite subtree_unfold; by left|].
    eapply Forall_impl; [exact IH|]. intros m Hm. simpl.
    rewrite subtree_unfold. right. apply list_elem_of_bind.
    exists child. by split.
Qed.

Lemma searchPath_spec targetId node :
  ∀ path,
    match searchPath targetId node path with
    | Some result =>
        ∃ front found,
          result = path ++ front ++ [found]
          ∧ descends node (front ++ [found])
          ∧ t_id found = targetId
          ∧ Forall (fun n => t_id n ≠ targetId) front
    | None => Forall (fun n => t_id n ≠ targetId) (subtree node)
    end.
Proof.
  induction node as [node IH] using TreeNode_children_ind. intros path.
  rewrite searchPath_unfold, subtree_unfold.
  case_bool_decide as Hid.
  { exists [], node. split; [done|]. split; [constructor|]. done. }
  assert (∀ children,
    (∀ child, child ∈ children → child ∈ t_children node) →
    Forall (fun child => ∀ path,
      match searchPath targetId child path with
      | Some result =>
          ∃ front found,
            result = path ++ front ++ [found]
            ∧ descends child (front ++ [found])
            ∧ t_id found = targetId
            ∧ Forall (fun n => t_id n ≠ targetId) front
      | None => Forall (fun n => t_id n ≠ targetId) (subtree child)
      end) children →
    match foldr (fun child later =>
                   match searchPath targetId child (path ++ [node]) with
                   | Some result => Some result
                   | None => later
                   end) None children with
    | Some result =>
        ∃ front found,
          result = path ++ front ++ [found]
          ∧ descends node (front ++ [found])
          ∧ t_id found = targetId
          ∧ Forall (fun n => t_id n ≠ targetId) front
    | None => Forall (fun n => t_id n ≠ targetId) (children ≫= subtree)
    end) as Hchildren.
  { intros children Hsub Hall.
    induction Hall as [|child children Hchild _ IHc]; cbn [foldr].
    - constructor.
    - specialize (Hchild (path ++ [node])).
      destruct (searchPath targetId child (path ++ [node])) as [result|].
      + destruct Hchild as (front & found & -> & Hdesc & Hfound & Hfront).
        exists (node :: front), found. rewrite <- !app_assoc.
        split; [done|]. split; [|by split; [|constructor]].
        apply descends_child with (child := child);
          [apply Hsub; by left | exact Hdesc].
      + specialize (IHc (fun c Hc => Hsub c (list_elem_of_further _ _ _ Hc))).
        destruct (foldr _ None children) as [result|]; [exact IHc|].
        rewrite bind_cons. apply Forall_app. by split. }
  specialize (Hchildren (t_children node) (fun _ H => H) IH).
  destruct (foldr _ None (t_children node)) as [result|]; [exact Hchildren|].
  by constructor.
Qed.

Lemma depth_counts (l : list TreeNode) (m : gmap Z Z) d :
  foldl (fun m node => <[t_depth node := default 0 (m !! t_depth node) + 1]> m)
    m l !! d
  = if decide (countAtDepth d l = 0) then m !! d
    else Some (default 0 (m !! d) + countAtDepth d l).
Proof.
  revert m. unfold countAtDepth.
  induction l as [|n l IH]; intros m; [done|].
  cbn [foldl]. rewrite IH, filter_cons.
  destruct (decide (t_depth n = d)) as [->|Hne].
  - rewrite lookup_insert_eq. cbn [default from_option id length].
    repeat destruct (decide _); try (exfalso; lia); f_equal; lia.
  - rewrite lookup_insert_ne by done. done.
Qed.

End PathFacts.

(** X18.  [findKanjiPath] returns a path that starts at the root,
    goes from each node to one of its children and ends at the first
    node on it that has the target id; it returns null exactly when no
    node of the tree has that id. *)
Theorem findKanjiPath_spec (root : TreeNode) (targetId : jsstring) :
  match findKanjiPath root targetId with
  | Some path =>
      ∃ front found,
        path = front ++ [found]
        ∧ descends root path
        ∧ t_id found = targetId
        ∧ Forall (fun n => t_id n ≠ targetId) front
        ∧ Forall (fun n => n ∈ subtree root) path
  | None => ∀ n, n ∈ subtree root → t_id n ≠ targetId
  end.
Proof.
  unfold findKanjiPath.
  pose proof (PathFacts.searchPath_spec targetId root []) as Hspec.
  destruct (searchPath targetId root []) as [path|].
  - destruct Hspec as (front & found & -> & Hdesc & Hfound & Hfront).
    exists front, found. cbn [app]. repeat split; try done.
    by apply PathFacts.descends_subtree.
  - by apply Forall_forall.
Qed.

(** X19.  The statistics of a tree result count its nodes: the counts
    by type add up to the total, and the count recorded for a depth is
    the number of nodes at that depth, a depth without node having no
    entry. *)
Theorem getTreeStatistics_counts (treeResult : TreeResult) :
  let statistics := getTreeStatistics treeResult in
  stat_totalNodes statistics = Z.of_nat (length (allNodes treeResult))
  ∧ stat_kanji statistics + stat_primitive statistics
    = stat_totalNodes statistics
  ∧ ∀ depth,
      stat_nodesByDepth statistics !! depth
      = if decide (countAtDepth depth (allNodes treeResult) = 0) then None
        else Some (countAtDepth depth (allNodes treeResult)).
Proof.
  cbv zeta. unfold getTreeStatistics.
  cbn [stat_totalNodes stat_kanji stat_primitive stat_nodesByDepth].
  split; [done|]. split.
  - induction (allNodes treeResult) as [|n l IH]; [done|].
    cbn [List.filter length].
    destruct (n_type (t_data n)); simpl bool_decide; cbn [length]; lia.
  - intros depth. rewrite PathFacts.depth_counts.
    destruct (decide _); [done|]. rewrite lookup_empty. simpl. by f_equal.
Qed.


(** ** Validation and the pipeline from text *)

Module PipelineFacts.

Lemma foldl_Set_add (names kws : list (list N)) kw :
  kw ∈ foldl Set_add names kws ↔ kw ∈ names ∨ kw ∈ kws.
Proof.
  revert names. induction kws as [|k kws IH]; intros names; cbn [foldl].
  - split; [auto|]. intros [?|?%elem_of_nil]; done.
  - rewrite IH, Set_add_elem, elem_of_cons. tauto.
Qed.

Lemma foldl_Set_add_NoDup (names kws : list (list N)) :
  NoDup names → NoDup (foldl Set_add names kws).
Proof.
  revert names. induction kws as [|k kws IH]; intros names Hnd; [done|].
  cbn [foldl]. by apply IH, Set_add_NoDup.
Qed.

Lemma allComponentNames_spec (kd : list KanjiData) names kw :
  kw ∈ foldl (fun names kanji =>
                foldl Set_add names (parseComponents (components kanji)))
         names kd
  ↔ kw ∈ names ∨ ∃ r, r ∈ kd ∧ kw ∈ parseComponents (components r).
Proof.
  revert names. induction kd as [|r kd IH]; intros names; cbn [foldl].
  - split; [auto|]. intros [?|(r & ?%elem_of_nil & _)]; done.
  - rewrite IH, foldl_Set_add. split.
    + intros [[?|?]|(r' & ? & ?)]; [by left| |].
      * right. exists r. split; [by left|done].
      * right. exists r'. split; [by right|done].
    + intros [?|(r' & [->|?]%elem_of_cons & ?)]; [by left; left| |].
      * left. by right.
      * right. by exists r'.
Qed.

Lemma allComponentNames_NoDup (kd : list KanjiData) names :
  NoDup names →
  NoDup (foldl (fun names kanji =>
                  foldl Set_add names (parseComponents (components kanji)))
           names kd).
Proof.
  revert names. induction kd as [|r kd IH]; intros names Hnd; [done|].
  cbn [foldl]. by apply IH, foldl_Set_add_NoDup.
Qed.

Lemma parseKanjiCSV_valid toLowerCase csv records :
  parseKanjiCSV toLowerCase csv = Ok records →
  Forall (fun r => kanji r ≠ []
                   ∧ (keyword5th r ≠ [] ∨ keyword6th r ≠ [])) records.
Proof.
  unfold parseKanjiCSV. destruct (csvLines csv) as [|l ls] eqn:E; [done|].
  rewrite ParserFacts.parseKanjiRows_spec.
  destruct (list_find _ _) as [[k x]|] eqn:Hfind; [done|].
  intros [= <-]. apply list_find_None in Hfind.
  simpl. apply Forall_fmap. eapply Forall_impl; [exact Hfind|].
  intros line Hrej. unfold rowRejected in Hrej. simpl.
  split; [tauto|].
  destruct (decide (trim (field (rowFields line) 3) = [])); [|tauto].
  right. tauto.
Qed.

Lemma parsePrimitivesCSV_valid toLowerCase csv records :
  parsePrimitivesCSV toLowerCase csv = Ok records →
  Forall (fun p => oldPath p ≠ []) records.
Proof.
  unfold parsePrimitivesCSV. destruct (csvLines csv) as [|l ls] eqn:E; [done|].
  rewrite FileFacts.parsePrimitiveRows_spec.
  destruct (list_find _ _) as [[k x]|] eqn:Hfind; [done|].
  intros [= <-]. apply list_find_None in Hfind.
  simpl. apply Forall_fmap. eapply Forall_impl; [exact Hfind|].
  intros line Hmiss. unfold pathMissing in Hmiss. simpl.
  destruct (FileFacts.parseCSVLine_fields line) as (f & fs & Hline & _).
  rewrite Hline in *. simpl in *. congruence.
Qed.

End PipelineFacts.

(** X21.  The [missingComponents] of a validated graph are, without
    repetition, the mnemonic keywords of the records that are not the
    name under which a node is available: its character or, for a node
    without character, its keyword. *)
Theorem validation_missingComponents
    (kd : list KanjiData) (pd : list PrimitiveData)
    (jlpt : option (jsstring → option JLPTLevel)) (now : Z)
    (warnings : list jsstring) (validated : ValidatedGraph) :
  buildValidatedGraph (Some kd) (Some pd) jlpt now
    = (warnings, Ok validated) →
  NoDup (missingComponents (validation validated))
  ∧ ∀ keyword,
      keyword ∈ missingComponents (validation validated)
      ↔ (∃ r, r ∈ kd ∧ keyword ∈ parseComponents (components r))
        ∧ ∀ n, n ∈ nodes (graph validated) → availableName n ≠ keyword.
Proof.
  unfold buildValidatedGraph.
  destruct (buildGraph (Some kd) (Some pd) jlpt now) as [w [g|e]];
    [|done].
  cbn [mbind]. intros [= _ <-].
  cbn [validation missingComponents graph default from_option].
  split.
  - apply NoDup_ListNoDup, List.NoDup_filter, NoDup_ListNoDup.
    apply PipelineFacts.allComponentNames_NoDup. constructor.
  - intros keyword. rewrite list_elem_of_In, filter_In, <- list_elem_of_In.
    rewrite PipelineFacts.allComponentNames_spec, negb_true_iff,
      bool_decide_eq_false, elem_of_list_to_set, list_elem_of_fmap.
    split.
    + intros [[?%elem_of_nil|Hr] Hno]; [done|]. split; [done|].
      intros n Hn Heq. apply Hno. by exists n.
    + intros [Hr Hno]. split; [by right|].
      intros (n & Heq & Hn). by apply (Hno n).
Qed.

Lemma validation_missingComponents_witness :
  ∃ validated,
    buildValidatedGraph (Some [bright; day; month]) (Some []) None 0
    = ([], Ok validated)
    ∧ NoDup (missingComponents (validation validated)).
Proof.
  destruct (buildValidatedGraph (Some [bright; day; month]) (Some []) None 0)
    as [w [validated|e]] eqn:E; [|vm_compute in E; discriminate E].
  assert (w = []) as -> by (vm_compute in E; congruence).
  exists validated. split; [done|].
  exact (proj1 (validation_missingComponents _ _ _ _ _ _ E)).
Defined.

(** X22.  In the graph that [buildRTKGraphFromCSV] makes from the two
    texts every kanji node has a character and a keyword, and every
    primitive node has the path of its drawing. *)
Theorem pipeline_nodes_complete
    (toLowerCase : jsstring → jsstring) (kanjiCSV primitivesCSV : jsstring)
    (now : Z) (warnings : list jsstring) (g : Graph) :
  buildRTKGraphFromCSV toLowerCase kanjiCSV primitivesCSV now
    = (warnings, Ok g) →
  Forall (fun n =>
            match n_type n with
            | kanji_node => n_character n ≠ [] ∧ n_keyword n ≠ []
            | primitive_node => ∃ path, n_svgPath n = Some path ∧ path ≠ []
            end) (nodes g).
Proof.
  unfold buildRTKGraphFromCSV, parseAllCSV.
  destruct (parseKanjiCSV toLowerCase kanjiCSV) as [kd|e] eqn:Ek; simpl;
    [|by destruct e].
  destruct (parsePrimitivesCSV toLowerCase primitivesCSV) as [pd|e] eqn:Ep;
    simpl; [|by destruct e].
  intros Hbuild.
  destruct (ClosureFacts.buildGraph_shape _ _ _ _ _ _ Hbuild)
    as (-> & _).
  apply PipelineFacts.parseKanjiCSV_valid in Ek.
  apply PipelineFacts.parsePrimitivesCSV_valid in Ep.
  apply Forall_app. split; apply Forall_forall; intros n Hn.
  - destruct (kanjiNodesOf_facts kd None) as (_ & _ & _ & Hfrom).
    destruct (Hfrom n Hn) as (r & Hr & ->).
    destruct (proj1 (Forall_forall _ _) Ek r Hr) as [Hc Hkw].
    cbn [n_type createKanjiNode n_character n_keyword]. split; [done|].
    unfold or_else. destruct (keyword6th r); simpl; [|done].
    by destruct Hkw.
  - destruct (primitiveNodesOf_facts pd) as (_ & _ & _ & Hfrom).
    destruct (Hfrom n Hn) as (p & Hp & ->).
    cbn [n_type createPrimitiveNode n_svgPath]. eexists. split; [done|].
    exact (proj1 (Forall_forall _ _) Ep p Hp).
Qed.

Lemma pipeline_nodes_complete_witness :
  ∃ warnings g,
    buildRTKGraphFromCSV asciiLowerCase completeCSV primitivesCSV 0
    = (warnings, Ok g)
    ∧ Forall (fun n =>
                match n_type n with
                | kanji_node => n_character n ≠ [] ∧ n_keyword n ≠ []
                | primitive_node =>
                    ∃ path, n_svgPath n = Some path ∧ path ≠ []
                end) (nodes g).
Proof.
  destruct (buildRTKGraphFromCSV asciiLowerCase completeCSV primitivesCSV 0)
    as [w [g|e]] eqn:E; [|vm_compute in E; discriminate E].
  exists w, g. split; [done|].
  exact (pipeline_nodes_complete _ _ _ _ _ _ E).
Defined.

(** ** Mnemonic fields and drawing files *)

Module FieldFacts.

Lemma split_plain sep s : sep ∉ s → split sep s = [s].
Proof.
  induction s as [|c s IH]; [done|]. intros [Hc Hs]%not_elem_of_cons.
  cbn [split]. rewrite (proj2 (N.eqb_neq c sep)) by done.
  by rewrite IH.
Qed.

Lemma split_app sep a b :
  sep ∉ a → split sep (a ++ sep :: b) = a :: split sep b.
Proof.
  induction a as [|c a IH]; intros Ha.
  - cbn [app split]. by rewrite N.eqb_refl.
  - apply not_elem_of_cons in Ha as [Hc Ha]. cbn [app split].
    rewrite (proj2 (N.eqb_neq c sep)) by done. by rewrite IH.
Qed.

Lemma trimStart_length s : (length (trimStart s) ≤ length s)%nat.
Proof.
  induction s as [|c s IH]; [done|]. cbn [trimStart].
  destruct (isWhiteSpace c); simpl; lia.
Qed.

Lemma trim_length s : (length (trim s) ≤ length (trimStart s))%nat.
Proof.
  unfold trim, trimEnd. rewrite length_reverse.
  etransitivity; [apply trimStart_length|]. by rewrite length_reverse.
Qed.

(** A trimmed string that is not empty starts with a code unit that is
    not white space. *)
Lemma trimmed_head k :
  trim k = k → k ≠ [] → ∃ c k', k = c :: k' ∧ isWhiteSpace c = false.
Proof.
  intros Htrim Hne. destruct k as [|c k']; [done|].
  exists c, k'. split; [done|].
  destruct (isWhiteSpace c) eqn:Ec; [|done]. exfalso.
  pose proof (trim_length (c :: k')) as Hlen.
  rewrite Htrim in Hlen. cbn [trimStart] in Hlen. rewrite Ec in Hlen.
  pose proof (trimStart_length k'). simpl in Hlen. lia.
Qed.

Lemma trim_space k : trim (32%N :: k) = trim k.
Proof. reflexivity. Qed.

Lemma trimStart_nil s :
  trimStart s = [] → Forall (fun c => isWhiteSpace c = true) s.
Proof.
  induction s as [|c s IH]; [constructor|]. cbn [trimStart].
  destruct (isWhiteSpace c) eqn:Ec; [|done]. constructor; auto.
Qed.

Lemma trim_nil s : trim s = [] → Forall (fun c => isWhiteSpace c = true) s.
Proof.
  unfold trim, trimEnd. intros H.
  apply (f_equal reverse) in H. rewrite reverse_involutive in H.
  change (reverse []) with (@nil N) in H.
  apply trimStart_nil, Forall_reverse in H. rewrite reverse_involutive in H.
  clear -H. induction s as [|c s IH]; [constructor|].
  cbn [trimStart] in H. destruct (isWhiteSpace c) eqn:Ec.
  - constructor; auto.
  - done.
Qed.

Lemma fields_of_joined k ks :
  Forall keywordLike (k :: ks) →
  List.filter truthy (trim <$> split 59%N (join (lit "; ") (k :: ks)))
  = k :: ks.
Proof.
  revert k. induction ks as [|k' ks IH]; intros k Hall.
  - apply Forall_cons in Hall as [(Htrim & Hne & Hsemi) _].
    cbn [join]. rewrite split_plain by done. cbn [fmap list_fmap].
    rewrite Htrim. cbn [List.filter]. by destruct k.
  - apply Forall_cons in Hall as [(Htrim & Hne & Hsemi) Hrest].
    change (join (lit "; ") (k :: k' :: ks))
      with (k ++ 59%N :: 32%N :: join (lit "; ") (k' :: ks)).
    rewrite split_app by done. rewrite fmap_cons, Htrim.
    cbn [List.filter]. replace (truthy k) with true by (by destruct k).
    f_equal. specialize (IH k' Hrest).
    pose proof Hrest as [(Htrim' & Hne' & Hsemi') _]%Forall_cons.
    assert (∀ rest, split 59%N (32%N :: rest)
                    = match split 59%N rest with
                      | h :: t => (32%N :: h) :: t
                      | [] => [[32%N]]
                      end) as Hsp by done.
    rewrite Hsp.
    pose proof (CsvFacts.split_nonempty 59%N (join (lit "; ") (k' :: ks))).
    destruct (split 59%N (join (lit "; ") (k' :: ks))) as [|h t]; [done|].
    rewrite fmap_cons, trim_space. by rewrite fmap_cons in IH.
Qed.

End FieldFacts.

(** X23.  Keywords written into a mnemonic field with "; " between
    them are read back by [parseComponents], in order, provided each is
    trimmed, not empty and free of semicolons. *)
Theorem parseComponents_join (keywords : list jsstring) :
  Forall (fun k => trim k = k ∧ k ≠ [] ∧ 59%N ∉ k) keywords →
  parseComponents (join (lit "; ") keywords) = keywords.
Proof.
  intros Hall. destruct keywords as [|k ks]; [done|].
  unfold parseComponents.
  rewrite (FieldFacts.fields_of_joined k ks Hall).
  destruct (truthy (trim (join (lit "; ") (k :: ks)))) eqn:Et; [done|].
  exfalso. apply ParserFacts.truthy_false, FieldFacts.trim_nil in Et.
  apply Forall_cons in Hall as [(Htrim & Hne & _) _].
  destruct (FieldFacts.trimmed_head k Htrim Hne) as (c & k' & -> & Hc).
  assert (c ∈ join (lit "; ") ((c :: k') :: ks)) as Hin
    by (destruct ks; by left).
  rewrite Forall_forall in Et. specialize (Et c Hin). congruence.
Qed.

Lemma parseComponents_join_witness :
  parseComponents (lit "sun; moon; walking stick")
  = [lit "sun"; lit "moon"; lit "walking stick"].
Proof.
  apply (parseComponents_join [lit "sun"; lit "moon"; lit "walking stick"]).
  repeat constructor; try done;
    (vm_compute; intros H;
     repeat (apply elem_of_cons in H as [H|H]; [discriminate H|]);
     by apply elem_of_nil in H).
Defined.
(** ** Names of drawing files *)

Module FileNameFacts.

Lemma split_sep_app sep a b :
  ∃ l, l ≠ [] ∧ split sep (a ++ sep :: b) = l ++ split sep b.
Proof.
  induction a as [|c a (l & Hl & IH)].
  - exists [[]]. split; [done|]. cbn [app split]. by rewrite N.eqb_refl.
  - cbn [app split]. rewrite IH. destruct (c =? sep)%N.
    + by exists ([] :: l).
    + destruct l as [|h t]; [done|]. by exists ((c :: h) :: t).
Qed.

Lemma last_split_app sep a b :
  sep ∉ b → last (split sep (a ++ sep :: b)) = Some b.
Proof.
  intros Hb. destruct (split_sep_app sep a b) as (l & _ & ->).
  rewrite FieldFacts.split_plain by done. by rewrite last_snoc.
Qed.

Lemma dropDigits_app ds rest :
  Forall (fun c => isDigit c = true) ds →
  dropDigits (ds ++ 45%N :: rest) = 45%N :: rest.
Proof.
  induction 1 as [|d ds Hd _ IH]; [done|]. cbn [app dropDigits].
  by rewrite Hd.
Qed.

Lemma stripPrefix_numbered number keyword :
  number ≠ [] → Forall (fun c => isDigit c = true) number →
  stripPrefix (112%N :: number ++ 45%N :: keyword) = keyword.
Proof.
  intros Hne Hdigits. destruct Hdigits as [|d ds Hd Hds]; [done|].
  cbn [app stripPrefix]. rewrite Hd. by rewrite dropDigits_app.
Qed.

Lemma stripExtension_image stem ext :
  ext ∈ imageExtensions → stripExtension (stem ++ ext) = stem.
Proof.
  intros Hext. unfold stripExtension, endsWith. cbv zeta.
  rewrite fmap_app, reverse_app, length_app.
  unfold imageExtensions in Hext. rewrite !fmap_cons, fmap_nil in Hext.
  repeat (apply elem_of_cons in Hext as [->|Hext]);
    [..|by apply elem_of_nil in Hext];
    repeat match goal with
      | |- context [reverse (asciiLower <$> lit ?s)] =>
          let v := eval vm_compute in (reverse (asciiLower <$> lit s)) in
          change (reverse (asciiLower <$> lit s)) with v
      | |- context [reverse (lit ?s)] =>
          let v := eval vm_compute in (reverse (lit s)) in
          change (reverse (lit s)) with v
      | |- context [length (lit ?s)] =>
          let v := eval vm_compute in (length (lit s)) in
          change (length (lit s)) with v
      end;
    cbn [app startsWith N.eqb Pos.eqb andb orb];
    destruct (reverse (asciiLower <$> stem));
    cbn [app startsWith N.eqb Pos.eqb andb orb];
    rewrite Nat.add_sub; by rewrite take_app_length.
Qed.

End FileNameFacts.

(** X24.  [createPrimitiveNode] decodes the name of a drawing file:
    for a path that ends in a file named "p", a frame number, "-", a
    keyword and an image extension, the keyword of the node is that
    keyword, its id is built from the file name without the extension,
    its character is the unicode field when there is one and the
    keyword otherwise, and the path is kept. *)
Theorem createPrimitiveNode_decodes
    (directory number keyword extension : jsstring)
    (primitive : PrimitiveData) :
  number ≠ [] → Forall (fun c => isDigit c = true) number →
  47%N ∉ keyword → extension ∈ imageExtensions →
  oldPath primitive
  = directory ++ 47%N :: (112%N :: number ++ 45%N :: keyword) ++ extension →
  let node := createPrimitiveNode primitive in
  n_keyword node = keyword
  ∧ n_id node
    = generateNodeId primitive_node (112%N :: number ++ 45%N :: keyword)
  ∧ n_character node = opt_or_else (unicode primitive) keyword
  ∧ n_svgPath node = Some (oldPath primitive)
  ∧ n_type node = primitive_node.
Proof.
  intros Hne Hdigits Hslash Hext Hpath. cbv zeta.
  unfold createPrimitiveNode. cbv zeta.
  cbn [n_keyword n_id n_character n_svgPath n_type].
  rewrite Hpath at 1 2 3.
  rewrite FileNameFacts.last_split_app.
  - cbn [default from_option id].
    change (λ x : list N, x) with (@id (list N)). unfold id.
    rewrite FileNameFacts.stripExtension_image by done.
    rewrite FileNameFacts.stripPrefix_numbered by done. done.
  - intros Hin. apply elem_of_app in Hin as [Hin|Hin].
    + apply elem_of_cons in Hin as [Hin|Hin]; [done|].
      apply elem_of_app in Hin as [Hin|Hin].
      * rewrite Forall_forall in Hdigits. by specialize (Hdigits _ Hin).
      * apply elem_of_cons in Hin as [Hin|Hin]; done.
    + unfold imageExtensions in Hext. rewrite !fmap_cons, fmap_nil in Hext.
      repeat (apply elem_of_cons in Hext as [->|Hext]);
        [..|by apply elem_of_nil in Hext];
        vm_compute in Hin;
        repeat (apply elem_of_cons in Hin as [Hin|Hin]; [discriminate Hin|]);
        by apply elem_of_nil in Hin.
Qed.

Lemma createPrimitiveNode_decodes_witness :
  n_keyword (createPrimitiveNode elbowPrimitive) = lit "private"
  ∧ n_character (createPrimitiveNode elbowPrimitive) = [21430%N].
Proof.
  destruct (createPrimitiveNode_decodes (lit "primitives") (lit "80")
              (lit "private") (lit ".svg") elbowPrimitive)
    as (Hk & _ & Hc & _); try done.
  - by repeat constructor.
  - vm_compute. intros H.
    repeat (apply elem_of_cons in H as [H|H]; [discriminate H|]).
    by apply elem_of_nil in H.
  - by left.
Defined.
